(** * Shabda web routes: a shallow embedding of [shabda/web.py]

    The route handlers of [web.py] are embedded as functions in a small
    state-and-exception monad.  The [Dj] engine ([shabda.dj]) that the
    handlers call is a collaborator whose code is not part of this file: its
    three entry points used by the routes are the fields of the class [Dj].
    The Python runtime's float parser and float [str] are the fields of
    [PyRuntime]; the formatting the routes do themselves ([+.1f], [int],
    [str] of an integer, [replace], [split], [in]) is written out. *)

From Stdlib Require Import String Ascii List ZArith Bool Lia Permutation.
From Stdlib Require Import DecimalString SpecFloat.
Import ListNotations.

Local Open Scope string_scope.
Local Open Scope Z_scope.

(** ** Python strings *)

Module PyStr.

(** [sub in s] *)
Fixpoint contains (sub s : string) : bool :=
  String.prefix sub s
  || match s with
     | EmptyString => false
     | String _ t => contains sub t
     end.

(** [s.replace(old, new)] for one-character [old] and [new] *)
Fixpoint replace (old new : ascii) (s : string) : string :=
  match s with
  | EmptyString => EmptyString
  | String c t =>
      String (if Ascii.eqb c old then new else c) (replace old new t)
  end.

(** [s.split(sep)] for a one-character separator *)
Fixpoint split (sep : ascii) (s : string) : list string :=
  match s with
  | EmptyString => [EmptyString]
  | String c t =>
      if Ascii.eqb c sep then EmptyString :: split sep t
      else match split sep t with
           | h :: r => String c h :: r
           | [] => [String c EmptyString]
           end
  end.

(** [s[n:]] *)
Fixpoint drop (n : nat) (s : string) : string :=
  match n, s with
  | O, _ => s
  | S _, EmptyString => EmptyString
  | S k, String _ t => drop k t
  end.

(** [sep.join(parts)] *)
Definition join (sep : string) (parts : list string) : string :=
  String.concat sep parts.

(** [str(i)] for an integer *)
Definition of_int (i : Z) : string :=
  NilZero.string_of_int (Z.to_int i).

End PyStr.

(** ** Python exceptions raised in the routes *)

Inductive exn : Type :=
| BadRequest (description : string)   (* werkzeug.exceptions.BadRequest *)
| ValueError (msg : string)
| OverflowError (msg : string)
| AttributeError (msg : string)
| TypeError (msg : string)
| KeyError (key : string).

(** ** Python floats

    A float is a [spec_float]: a signed zero, an infinity, a NaN or
    [(-1)^s * m * 2^e]. *)

Module PyFloat.

(** [x != 0.0] *)
Definition ne_zero (x : spec_float) : bool :=
  match x with
  | S754_zero _ => false
  | _ => true
  end.

Definition is_finite (x : spec_float) : bool :=
  match x with
  | S754_zero _ | S754_finite _ _ _ => true
  | _ => false
  end.

(** nearest integer to [num / den], ties to even ([den > 0]) *)
Definition round_half_even (num den : Z) : Z :=
  let q := num / den in
  let r := num mod den in
  match 2 * r ?= den with
  | Lt => q
  | Gt => q + 1
  | Eq => if Z.even q then q else q + 1
  end.

(** [m * 2^e * 10] rounded to the nearest integer, ties to even *)
Definition tenths (m : positive) (e : Z) : Z :=
  if 0 <=? e then Z.pos m * 2 ^ e * 10
  else round_half_even (Z.pos m * 10) (2 ^ (- e)).

Definition sign_char (s : bool) : string := if s then "-" else "+".

(** [f"{x:+.1f}"] *)
Definition format_plus_1f (x : spec_float) : string :=
  match x with
  | S754_nan => "+nan"
  | S754_infinity s => sign_char s ++ "inf"
  | S754_zero s => sign_char s ++ "0.0"
  | S754_finite s m e =>
      let t := tenths m e in
      sign_char s ++ PyStr.of_int (t / 10) ++ "." ++ PyStr.of_int (t mod 10)
  end.

(** [int(x)]: truncation towards zero; NaN and the infinities raise *)
Definition to_int (x : spec_float) : exn + Z :=
  match x with
  | S754_nan => inl (ValueError "cannot convert float NaN to integer")
  | S754_infinity _ =>
      inl (OverflowError "cannot convert float infinity to integer")
  | S754_zero _ => inr 0
  | S754_finite s m e =>
      let a := if 0 <=? e then Z.pos m * 2 ^ e else Z.pos m / 2 ^ (- e) in
      inr (if s then - a else a)
  end.

(** [x == i] for a float [x] and an integer [i] (an exact comparison) *)
Definition eq_int (x : spec_float) (i : Z) : bool :=
  match x with
  | S754_zero _ => i =? 0
  | S754_finite s m e =>
      let v := if s then Z.neg m else Z.pos m in
      if 0 <=? e then v * 2 ^ e =? i else v =? i * 2 ^ (- e)
  | _ => false
  end.

End PyFloat.

(** The parts of the Python runtime the routes rely on and that are not
    written out here: [float(s)] ([None] when it raises [ValueError]) and
    [str(x)] of a float. *)
Class PyRuntime : Type := {
  py_float : string -> option spec_float;
  float_str : spec_float -> string
}.

(** ** JSON values handed to [jsonify] *)

#[local] Set Warnings "-register-all".

Inductive json : Type :=
| JStr (s : string)
| JInt (i : Z)
| JArr (items : list json)
| JObj (fields : list (string * json)).

(** A Python [dict] with string keys, in insertion order. *)
Module Dict.

Definition t : Type := list (string * json).

Definition mem (k : string) (d : t) : bool :=
  existsb (fun kv => String.eqb (fst kv) k) d.

Fixpoint get (k : string) (d : t) : option json :=
  match d with
  | [] => None
  | (k', v) :: r => if String.eqb k' k then Some v else get k r
  end.

Fixpoint update (k : string) (v : json) (d : t) : t :=
  match d with
  | [] => []
  | (k', v') :: r =>
      if String.eqb k' k then (k', v) :: r else (k', v') :: update k v r
  end.

(** [d[k] = v] *)
Definition set (k : string) (v : json) (d : t) : t :=
  if mem k d then update k v d else (d ++ [(k, v)])%list.

Definition keys (d : t) : list string := map fst d.

End Dict.

Bind Scope list_scope with Dict.t.

(** ** The [Dj] collaborator ([shabda.dj], constructed at module level) *)

(** A sample as the routes read it: [.file], [.url], [.licensename],
    [.username]. *)
Record Sound : Type := {
  file : string;
  url : string;
  licensename : string;
  username : string
}.

(** A parsed definition: the [dict] returned by [dj.parse_definition], from
    word to count ([None] when the count was left out), in insertion
    order. *)
Definition definition_map : Type := list (string * option Z).

(** A positional or keyword argument that a call may leave out. *)
Inductive arg (A : Type) : Type :=
| Omitted
| Passed (a : A).
Arguments Omitted {A}.
Arguments Passed {A} a.

(** One call [dj.list(word, number, licenses=, gender=, language=,
    soundtype=)]. *)
Record list_call : Type := {
  lc_word : string;
  lc_number : arg (option Z);
  lc_licenses : arg (option (list string));
  lc_gender : arg string;
  lc_language : arg string;
  lc_soundtype : arg string
}.

(** The coroutines the routes hand to [asyncio.gather]. *)
Inductive coroutine : Type :=
| DjFetch (word : string) (number : Z) (licenses : option (list string))
| DjSpeak (word language gender : string) (pitch : spec_float).

(** [async def fetch_one(word, number, licenses)] *)
Definition fetch_one (word : string) (number : Z)
    (licenses : option (list string)) : coroutine :=
  DjFetch word number licenses.

(** [async def speak_one(word, language, gender, pitch=0.0)] *)
Definition speak_one (word language gender : string) (pitch : spec_float)
    : coroutine :=
  DjSpeak word language gender pitch.

(** The engine over its state [St] (the sample cache on disk and whatever
    else it keeps).
    - [parse_definition d]: [inl msg] when it raises [ValueError(msg)];
    - [run_tasks cs s]: the event loop driving the coroutines [cs] to
      completion from [s], interleaved as it chooses; it gives the results
      in the order of [cs], as [asyncio.gather] does, and the state it
      leaves;
    - [dj_list c s]: the samples [dj.list] returns in state [s]. *)
Class Dj (St : Type) : Type := {
  parse_definition : string -> string + definition_map;
  run_tasks : list coroutine -> St -> list bool * St;
  dj_list : list_call -> St -> list Sound * St
}.

(** What a handler asks of the engine, in order. *)
Inductive event : Type :=
| EvParse (definition : string)
| EvDispatch (task : coroutine)
| EvList (call : list_call).

(** ** The request *)

(** [urlparse(request.base_url)] as the routes read it.  [.hostname] is
    [None] when the URL names no host; reading [.port] raises
    [ValueError(msg)] ([inl msg]) when the port is not a number in range,
    and gives [None] when the URL has no port. *)
Record Url : Type := {
  url_scheme : string;
  url_hostname : option string;
  url_port : string + option Z
}.

Record Request : Type := {
  args : list (string * string);   (* request.args, first value per key *)
  urlparse_base_url : string + Url;     (* [inl msg]: [urlparse] raises
                                           [ValueError(msg)] *)
  environ_script_name : option string;  (* request.environ["SCRIPT_NAME"] *)
  tempdir : string                 (* tempfile.gettempdir() *)
}.

(** [request.args.get(key)] *)
Fixpoint args_get (key : string) (a : list (string * string))
    : option string :=
  match a with
  | [] => None
  | (k, v) :: r => if String.eqb k key then Some v else args_get key r
  end.

(** [request.args.get(key, default)] *)
Definition args_get_default (key default : string)
    (a : list (string * string)) : string :=
  match args_get key a with
  | Some v => v
  | None => default
  end.

(** [request.args.get(key, False, type=bool)]: [bool(v)] of a string *)
Definition args_get_bool (key : string) (a : list (string * string)) : bool :=
  match args_get key a with
  | Some v => negb (String.eqb v "")
  | None => false
  end.

(** [request.args.get(key, 0.0, type=float)]: the default when the
    conversion raises [ValueError] *)
Definition args_get_float `{PyRuntime} (key : string)
    (a : list (string * string)) : spec_float :=
  match args_get key a with
  | Some v => match py_float v with
              | Some x => x
              | None => S754_zero false
              end
  | None => S754_zero false
  end.

(** [licenses = request.args.get("licenses")], split on [","] when
    present *)
Definition licenses_arg (req : Request) : option (list string) :=
  option_map (PyStr.split ",") (args_get "licenses" (args req)).

(** What a handler returns: [jsonify(body)], or [send_file(tmpfile)] of the
    archive made by the calls [zipfile.write(filename, arcname)] listed in
    [archive]. *)
Inductive response : Type :=
| Jsonify (body : json)
| SendFile (tmpfile : string) (archive : list (string * string)).

(** [clean_definition(words)] *)
Definition clean_definition (words : definition_map) : string :=
  PyStr.join ","
    (map (fun wn : string * option Z =>
            let (word, number) := wn in
            word ++ match number with
                    | Some n => if n =? 0 then "" else ":" ++ PyStr.of_int n
                    | None => ""
                    end)
         words).

(** The loop over [results] that both [pack] and [speech] end with. *)
Definition global_status (results : list bool) : string :=
  fold_left (fun st (status : bool) => if status then "ok" else st)
            results "empty".

(** The message of the [TypeError] that [str + None] raises. *)
Definition concat_none_error : string :=
  "can only concatenate str (not "
  ++ String (ascii_of_nat 34)
       ("NoneType" ++ String (ascii_of_nat 34) ") to str").

(** [base] as built in [pack_json] and [speech_json], from
    [url = urlparse(request.base_url)] to [base += script_name + "/"]:
    [urlparse] may raise, ["https://" + url.hostname] raises [TypeError]
    when the hostname is [None], and [url.port] may raise. *)
Definition base_url (req : Request) : exn + string :=
  match urlparse_base_url req with
  | inl msg => inl (ValueError msg)
  | inr url =>
      match url_hostname url with
      | None => inl (TypeError concat_none_error)
      | Some hostname =>
          let base := "https://" ++ hostname in
          match url_port url with
          | inl msg => inl (ValueError msg)
          | inr port =>
              let base := match port with
                          | Some p => if p =? 0 then base
                                      else base ++ ":" ++ PyStr.of_int p
                          | None => base
                          end in
              let script_name := match environ_script_name req with
                                 | Some s => s
                                 | None => ""
                                 end in
              inr (base ++ script_name ++ "/")
          end
      end
  end.

(** ** The listing under construction ([reslist]) *)

Inductive reslist : Type :=
| ResDict (d : Dict.t)       (* strudel: [{"_base": base, ...}] *)
| ResList (l : list json).   (* otherwise: [[...]] *)

Definition reslist_json (r : reslist) : json :=
  match r with
  | ResDict d => JObj d
  | ResList l => JArr l
  end.

(** The [sound_data] record of the flat listing. *)
Definition sound_data (complete : bool) (bank : string) (sample_num : Z)
    (sound : Sound) : json :=
  JObj ([("url", JStr (file sound));
         ("type", JStr "audio");
         ("bank", JStr bank);
         ("n", JInt sample_num)]
        ++ (if complete
            then [("licensename", JStr (licensename sound));
                  ("original_url", JStr (url sound));
                  ("author", JStr (username sound))]
            else []))%list.

(** The body of [for sound in samples] in [pack_json] and [speech_json]
    ([speech_json] has no [complete] branch: it runs this with
    [complete = false]).  The accumulator is [(reslist, sample_num)]. *)
Definition add_sound (strudel complete : bool) (key : string)
    (acc : reslist * Z) (sound : Sound) : exn + (reslist * Z) :=
  let (res, sample_num) := acc in
  if strudel then
    match res with
    | ResDict d =>
        (* if key not in reslist: reslist[key] = [] *)
        let d := if Dict.mem key d then d
                 else Dict.set key (JArr []) d in
        (* reslist[key].append(sound.file) *)
        match Dict.get key d with
        | Some (JArr l) =>
            inr (ResDict (Dict.set key (JArr (l ++ [JStr (file sound)])) d),
                 sample_num)
        | Some (JStr _) =>
            inl (AttributeError "'str' object has no attribute 'append'")
        | Some (JInt _) =>
            inl (AttributeError "'int' object has no attribute 'append'")
        | Some (JObj _) =>
            inl (AttributeError "'dict' object has no attribute 'append'")
        | None => inl (KeyError key)
        end
    | ResList _ =>
        inl (TypeError "list indices must be integers or slices, not str")
    end
  else
    match res with
    | ResList l =>
        inr (ResList (l ++ [sound_data complete key sample_num sound]),
             sample_num + 1)
    | ResDict _ =>
        inl (AttributeError "'dict' object has no attribute 'append'")
    end.

(** A [for] loop whose body may raise. *)
Fixpoint for_each_e {A B : Type} (xs : list A) (body : B -> A -> exn + B)
    (acc : B) : exn + B :=
  match xs with
  | [] => inr acc
  | x :: r => match body acc x with
              | inl e => inl e
              | inr acc' => for_each_e r body acc'
              end
  end.

(** [sample_num = 0; for sound in samples: ...] for one word *)
Definition add_samples (strudel complete : bool) (key : string)
    (samples : list Sound) (res : reslist) : exn + reslist :=
  match for_each_e samples (add_sound strudel complete key) (res, 0) with
  | inl e => inl e
  | inr (res', _) => inr res'
  end.

(** The pitch block of [speech_json]: the samples kept for the requested
    pitch and the [sample_key] they are listed under. *)
Definition select_pitch `{PyRuntime} (word : string) (pitch : spec_float)
    (samples : list Sound) : exn + (list Sound * string) :=
  if PyFloat.ne_zero pitch then
    let pitch_suffix := "_p" ++ PyFloat.format_plus_1f pitch in
    let samples :=
      filter (fun s => PyStr.contains pitch_suffix (file s)) samples in
    (* pitch_int = int(pitch) if pitch == int(pitch) else pitch *)
    match PyFloat.to_int pitch with
    | inl e => inl e
    | inr i =>
        let pitch_int := if PyFloat.eq_int pitch i then PyStr.of_int i
                         else float_str pitch in
        inr (samples, word ++ "_p" ++ pitch_int)
    end
  else
    inr (filter (fun s => negb (PyStr.contains "_p+" (file s))
                          && negb (PyStr.contains "_p-" (file s)))
                samples,
         word).

(** ** The route handlers *)

Section Routes.

Context {RT : PyRuntime} {St : Type} {DJ : Dj St}.

(** The engine's state and the calls made to it so far. *)
Record World : Type := {
  dj_state : St;
  trace : list event
}.

(** A handler step: it reads and changes the world and either raises or
    returns. *)
Definition M (A : Type) : Type := World -> (exn + A) * World.

Definition ret {A : Type} (a : A) : M A := fun w => (inr a, w).

Definition raise {A : Type} (e : exn) : M A := fun w => (inl e, w).

Definition bind {A B : Type} (m : M A) (k : A -> M B) : M B :=
  fun w => match m w with
           | (inl e, w') => (inl e, w')
           | (inr a, w') => k a w'
           end.

Definition lift {A : Type} (r : exn + A) : M A := fun w => (r, w).

Notation "x <- m ;; k" := (bind m (fun x => k))
  (at level 61, m at next level, right associativity).
Notation "' p <- m ;; k" := (bind m (fun x => match x with p => k end))
  (at level 61, p pattern, m at next level, right associativity).

Definition log (ev : list event) (w : World) : World :=
  {| dj_state := dj_state w; trace := (trace w ++ ev)%list |}.

(** [try: words = dj.parse_definition(definition)]
    [except ValueError as ex: raise BadRequest(ex) from ex] *)
Definition parse (definition : string) : M definition_map :=
  fun w =>
    let w' := log [EvParse definition] w in
    match parse_definition definition with
    | inl ex => (inl (BadRequest ex), w')
    | inr words => (inr words, w')
    end.

(** [await asyncio.gather( *tasks )] *)
Definition gather (tasks : list coroutine) : M (list bool) :=
  fun w =>
    let (results, s) := run_tasks tasks (dj_state w) in
    (inr results,
     {| dj_state := s; trace := (trace w ++ map EvDispatch tasks)%list |}).

(** [dj.list(...)] *)
Definition list_samples (call : list_call) : M (list Sound) :=
  fun w =>
    let (samples, s) := dj_list call (dj_state w) in
    (inr samples,
     {| dj_state := s; trace := (trace w ++ [EvList call])%list |}).

(** A [for] loop over [xs] whose body acts on the world. *)
Fixpoint for_each {A B : Type} (xs : list A) (body : B -> A -> M B)
    (acc : B) : M B :=
  match xs with
  | [] => ret acc
  | x :: r => acc' <- body acc x ;; for_each r body acc'
  end.

(** [@bp.route("/pack/<definition>")] *)
Definition pack (req : Request) (definition : string) : M response :=
  let licenses := licenses_arg req in
  words <- parse definition ;;
  let tasks :=
    map (fun wn : string * option Z =>
           let (word, number) := wn in
           let number := match number with
                         | None => 1
                         | Some n => n
                         end in
           fetch_one word number licenses)
        words in
  results <- gather tasks ;;
  ret (Jsonify (JObj [("status", JStr (global_status results));
                      ("definition", JStr (clean_definition words))])).

(** [@bp.route("/<definition>.json")] *)
Definition pack_json (req : Request) (definition : string) : M response :=
  let complete := args_get_bool "complete" (args req) in
  let licenses := licenses_arg req in
  let strudel := args_get_bool "strudel" (args req) in
  _ <- pack req definition ;;
  base <- lift (base_url req) ;;
  words <- parse definition ;;
  let reslist := if strudel then ResDict [("_base", JStr base)]
                 else ResList [] in
  reslist <-
    for_each words
      (fun reslist (wn : string * option Z) =>
         let (word, number) := wn in
         samples <- list_samples
                      {| lc_word := word;
                         lc_number := Passed number;
                         lc_licenses := Passed licenses;
                         lc_gender := Omitted;
                         lc_language := Omitted;
                         lc_soundtype := Omitted |} ;;
         lift (add_samples strudel complete word samples reslist))
      reslist ;;
  ret (Jsonify (reslist_json reslist)).

(** The calls [zipfile.write(sample.file, sample.file[len(strip):])] of the
    two zip routes, in order: for every word and every listed sample, the
    file written and the archive name passed for it.  (What [ZipFile] then
    does with the name it is passed is not part of this file.) *)
Definition zip_entries (strip : string) (call : string -> option Z -> list_call)
    (words : definition_map) : M (list (string * string)) :=
  for_each words
    (fun zipfile (wn : string * option Z) =>
       let (word, number) := wn in
       samples <- list_samples (call word number) ;;
       ret (zipfile
            ++ map (fun sample =>
                      (file sample,
                       PyStr.drop (String.length strip) (file sample)))
                   samples)%list)
    [].

(** [@bp.route("/<definition>.zip")] *)
Definition pack_zip (req : Request) (definition : string) : M response :=
  words <- parse definition ;;
  let definition := clean_definition words in
  let tmpfile := tempdir req ++ "/" ++ definition ++ ".zip" in
  zipfile <- zip_entries "samples/"
               (fun word number =>
                  {| lc_word := word;
                     lc_number := Passed number;
                     lc_licenses := Omitted;
                     lc_gender := Omitted;
                     lc_language := Omitted;
                     lc_soundtype := Omitted |})
               words ;;
  ret (SendFile tmpfile zipfile).

(** [@bp.route("/speech/<definition>.zip")] *)
Definition speech_zip (req : Request) (definition : string) : M response :=
  let definition := PyStr.replace " " "_" definition in
  words <- parse definition ;;
  let tmpfile := tempdir req ++ "/" ++ definition ++ ".zip" in
  zipfile <- zip_entries "speech_samples/"
               (fun word number =>
                  {| lc_word := word;
                     lc_number := Passed number;
                     lc_licenses := Omitted;
                     lc_gender := Omitted;
                     lc_language := Omitted;
                     lc_soundtype := Passed "tts" |})
               words ;;
  ret (SendFile tmpfile zipfile).

(** [@bp.route("/speech/<definition>")] *)
Definition speech (req : Request) (definition : string) : M response :=
  let gender := args_get_default "gender" "f" (args req) in
  let language := args_get_default "language" "en-GB" (args req) in
  let pitch := args_get_float "pitch" (args req) in
  let definition := PyStr.replace " " "_" definition in
  words <- parse definition ;;
  let tasks :=
    map (fun wn : string * option Z =>
           speak_one (fst wn) language gender pitch)
        words in
  results <- gather tasks ;;
  ret (Jsonify (JObj [("status", JStr (global_status results));
                      ("definition", JStr (clean_definition words))])).

(** [@bp.route("/speech/<definition>.json")] *)
Definition speech_json (req : Request) (definition : string)
    : M response :=
  let strudel := args_get_bool "strudel" (args req) in
  let gender := args_get_default "gender" "f" (args req) in
  let language := args_get_default "language" "en-GB" (args req) in
  let pitch := args_get_float "pitch" (args req) in
  let definition := PyStr.replace " " "_" definition in
  _ <- speech req definition ;;
  base <- lift (base_url req) ;;
  words <- parse definition ;;
  let reslist := if strudel then ResDict [("_base", JStr base)]
                 else ResList [] in
  reslist <-
    for_each words
      (fun reslist (wn : string * option Z) =>
         let word := fst wn in
         samples <- list_samples
                      {| lc_word := word;
                         lc_number := Omitted;
                         lc_licenses := Omitted;
                         lc_gender := Passed gender;
                         lc_language := Passed language;
                         lc_soundtype := Passed "tts" |} ;;
         ' (samples, sample_key) <- lift (select_pitch word pitch samples) ;;
         lift (add_samples strudel false sample_key samples reslist))
      reslist ;;
  ret (Jsonify (reslist_json reslist)).

End Routes.

Arguments World St : clear implicits.
Arguments M St A : clear implicits.

(** ** The body [jsonify] serves

    [jsonify(body)] writes [body] with the application's JSON provider,
    whose [sort_keys] is on unless the application turns it off: the keys
    of an object are written in sorted order, strings being compared
    character by character. *)




(** ** The error handler and the CORS hook *)

(** A Python value as [json.dumps] may meet it in the body of an error:
    [None], an integer, a string or an exception object. *)
Inductive pyobj : Type :=
| PyNone
| PyInt (i : Z)
| PyString (s : string)
| PyException (type_name message : string).

(** The text [json.dumps] writes for a dict whose values it can
    serialise. *)
Class JsonText : Type := {
  dumps_text : list (string * pyobj) -> string
}.

(** The type of the first value [json.dumps] cannot serialise. *)
Fixpoint unserializable (fields : list (string * pyobj)) : option string :=
  match fields with
  | [] => None
  | (_, PyException type_name _) :: _ => Some type_name
  | _ :: r => unserializable r
  end.

(** [json.dumps(fields)] *)
Definition json_dumps `{JsonText} (fields : list (string * pyobj))
    : exn + string :=
  match unserializable fields with
  | Some type_name =>
      inl (TypeError ("Object of type " ++ type_name
                      ++ " is not JSON serializable"))
  | None => inr (dumps_text fields)
  end.

(** [response.headers]: werkzeug's [Headers], a list of names and values
    whose names are compared without regard to case. *)
Module Headers.

Definition t : Type := list (string * string).

Definition lower_char (c : ascii) : ascii :=
  let n := nat_of_ascii c in
  if ((65 <=? n) && (n <=? 90))%nat then ascii_of_nat (n + 32) else c.

(** [name.lower()] of an ASCII name *)
Fixpoint lower (s : string) : string :=
  match s with
  | EmptyString => EmptyString
  | String c r => String (lower_char c) (lower r)
  end.

Definition same (a b : string) : bool := String.eqb (lower a) (lower b).

(** [headers.get(name)]: the first value under the name *)
Fixpoint get (name : string) (h : t) : option string :=
  match h with
  | [] => None
  | (k, v) :: r => if same k name then Some v else get name r
  end.

Definition remove (name : string) (h : t) : t :=
  filter (fun kv => negb (same (fst kv) name)) h.

(** [headers[name] = value]: the first entry under the name is replaced
    and the later ones are dropped; without one, the entry is appended *)
Fixpoint set (name value : string) (h : t) : t :=
  match h with
  | [] => [(name, value)]
  | (k, v) :: r =>
      if same k name then (name, value) :: remove name r
      else (k, v) :: set name value r
  end.

End Headers.

Bind Scope list_scope with Headers.t.

(** A response object: status, headers and body. *)
Record http_response : Type := {
  status_code : Z;
  headers : Headers.t;
  data : string
}.

(** [response.data = text]: the body, and its length as
    [Content-Length]. *)
Definition set_data (text : string) (r : http_response) : http_response :=
  {| status_code := status_code r;
     headers := Headers.set "Content-Length"
                            (PyStr.of_int (Z.of_nat (String.length text)))
                            (headers r);
     data := text |}.

(** [response.content_type = value] *)
Definition set_content_type (value : string) (r : http_response)
    : http_response :=
  {| status_code := status_code r;
     headers := Headers.set "Content-Type" value (headers r);
     data := data r |}.

(** An [HTTPException] as the error handler reads it: [.code], [.name],
    [.description] and the response [get_response()] builds. *)
Record HTTPException : Type := {
  exc_code : pyobj;
  exc_name : string;
  exc_description : pyobj;
  exc_response : http_response
}.

(** [@bp.errorhandler(HTTPException)] *)
Definition handle_exception `{JsonText} (exception : HTTPException)
    : exn + http_response :=
  let response := exc_response exception in
  match json_dumps [("code", exc_code exception);
                    ("name", PyString (exc_name exception));
                    ("description", exc_description exception)] with
  | inl e => inl e
  | inr text =>
      let response := set_data text response in
      let response := set_content_type "application/json" response in
      inr response
  end.

(** [@bp.after_request] *)
Definition cors_after (response : http_response) : http_response :=
  {| status_code := status_code response;
     headers := Headers.set "Access-Control-Allow-Origin" "*"
                            (headers response);
     data := data response |}.

(** [BadRequest(ex)] as the routes raise it, [ex] being the [ValueError] of
    the parser: werkzeug's code 400 and name, the exception object itself
    as the description, and the page [get_response()] builds. *)
Definition bad_request (ex : string) (page : http_response) : HTTPException :=
  {| exc_code := PyInt 400;
     exc_name := "Bad Request";
     exc_description := PyException "ValueError" ex;
     exc_response := page |}.

(** The [HTTPException] the error handler receives for what a route raised;
    none for an exception that is not one. *)
Definition http_exception (e : exn) (page : http_response)
    : option HTTPException :=
  match e with
  | BadRequest ex => Some (bad_request ex page)
  | _ => None
  end.

(** * Specification vocabulary *)

(** [sub] occurs in [s]. *)
Definition occurs_in (sub s : string) : Prop :=
  exists before after, s = before ++ sub ++ after.

(** [int(x)] for a finite [x]. *)
Definition trunc (x : spec_float) : Z :=
  match PyFloat.to_int x with
  | inr i => i
  | inl _ => 0
  end.

(** [x] is a whole number. *)
Definition is_integral (x : spec_float) : bool :=
  match x with
  | S754_zero _ => true
  | S754_finite _ m e => (0 <=? e) || (Z.pos m mod 2 ^ (- e) =? 0)
  | _ => false
  end.

(** The file-name suffix of a pitched sample. *)
Definition pitch_suffix (pitch : spec_float) : string :=
  "_p" ++ PyFloat.format_plus_1f pitch.

(** The samples a listing keeps for a requested pitch. *)
Definition keeps (pitch : spec_float) (s : Sound) : bool :=
  if PyFloat.ne_zero pitch then PyStr.contains (pitch_suffix pitch) (file s)
  else negb (PyStr.contains "_p+" (file s))
       && negb (PyStr.contains "_p-" (file s)).

(** The key a word is listed under for a requested pitch. *)
Definition sample_key `{PyRuntime} (word : string) (pitch : spec_float)
    : string :=
  if PyFloat.ne_zero pitch then
    word ++ "_p" ++ (if is_integral pitch then PyStr.of_int (trunc pitch)
                     else float_str pitch)
  else word.

(** The flat records of one bank, numbered from [n]. *)
Fixpoint records (complete : bool) (bank : string) (n : Z)
    (samples : list Sound) : list json :=
  match samples with
  | [] => []
  | s :: r => sound_data complete bank n s :: records complete bank (n + 1) r
  end.

(** A group is a key with the samples listed under it.  The flat listing
    of groups: each group's records, numbered from 0, group after group. *)
Definition flat_listing (complete : bool)
    (groups : list (string * list Sound)) : list json :=
  flat_map (fun g => records complete (fst g) 0 (snd g)) groups.

Definition file_urls (samples : list Sound) : json :=
  JArr (map (fun s => JStr (file s)) samples).

(** The strudel entry of a group: none when the group has no sample. *)
Definition group_entry (g : string * list Sound) : Dict.t :=
  match snd g with
  | [] => []
  | _ :: _ => [(fst g, file_urls (snd g))]
  end.

Definition strudel_listing (base : string)
    (groups : list (string * list Sound)) : Dict.t :=
  ("_base", JStr base) :: flat_map group_entry groups.

(** [add_samples] group after group. *)
Fixpoint add_groups (strudel complete : bool)
    (groups : list (string * list Sound)) (res : reslist) : exn + reslist :=
  match groups with
  | [] => inr res
  | g :: r => match add_samples strudel complete (fst g) (snd g) res with
              | inl e => inl e
              | inr res' => add_groups strudel complete r res'
              end
  end.

(** A field of a JSON object. *)
Definition field (name : string) (j : json) : option json :=
  match j with
  | JObj fields => Dict.get name fields
  | _ => None
  end.

(** The tasks dispatched in a trace. *)
Fixpoint dispatched (tr : list event) : list coroutine :=
  match tr with
  | [] => []
  | EvDispatch c :: r => c :: dispatched r
  | _ :: r => dispatched r
  end.

(** The definitions handed to the parser in a trace. *)
Fixpoint parsed (tr : list event) : list string :=
  match tr with
  | [] => []
  | EvParse d :: r => d :: parsed r
  | _ :: r => parsed r
  end.



(** The base URL in the words of the specification: the literal scheme,
    the host name, the port when there is one, the script name and a
    slash. *)
Definition claimed_base_url (hostname : string) (port : option Z)
    (script_name : option string) : string :=
  "https://" ++ hostname
  ++ match port with
     | Some p => ":" ++ PyStr.of_int p
     | None => ""
     end
  ++ match script_name with
     | Some s => s
     | None => ""
     end
  ++ "/".

(** The same request received over another scheme. *)
Definition with_scheme (scheme : string) (req : Request) : Request :=
  {| args := args req;
     urlparse_base_url :=
       match urlparse_base_url req with
       | inl msg => inl msg
       | inr url => inr {| url_scheme := scheme;
                           url_hostname := url_hostname url;
                           url_port := url_port url |}
       end;
     environ_script_name := environ_script_name req;
     tempdir := tempdir req |}.


(** The base URL put under [_base] stays there while the listing runs. *)
Definition holds_base (base : string) (res : reslist) : Prop :=
  exists dct, res = ResDict dct /\ Dict.get "_base" dct = Some (JStr base).

(** No group that has samples is keyed [_base]. *)
Definition no_base_clash (groups : list (string * list Sound)) : Prop :=
  forall g, In g groups -> snd g <> [] -> fst g <> "_base".

(** The calls of [dj.list] in a trace. *)
Fixpoint listed_calls (tr : list event) : list list_call :=
  match tr with
  | [] => []
  | EvList c :: r => c :: listed_calls r
  | _ :: r => listed_calls r
  end.

(** The [dj.list] call of [pack_zip] for one entry of the definition. *)
Definition pack_zip_call (wn : string * option Z) : list_call :=
  {| lc_word := fst wn;
     lc_number := Passed (snd wn);
     lc_licenses := Omitted;
     lc_gender := Omitted;
     lc_language := Omitted;
     lc_soundtype := Omitted |}.

(** The [dj.list] call of [speech_zip] for one entry. *)
Definition speech_zip_call (wn : string * option Z) : list_call :=
  {| lc_word := fst wn;
     lc_number := Passed (snd wn);
     lc_licenses := Omitted;
     lc_gender := Omitted;
     lc_language := Omitted;
     lc_soundtype := Passed "tts" |}.

(** The files written to an archive and the archive names passed for
    them, for samples listed word by word: every sample with its file path
    without the first [length strip] characters. *)
Definition archive_entries (strip : string) (sampless : list (list Sound))
    : list (string * string) :=
  flat_map (fun samples =>
              map (fun sample =>
                     (file sample,
                      PyStr.drop (String.length strip) (file sample)))
                  samples)
           sampless.

(** What [int(pitch)] raises: [ValueError] for a NaN, [OverflowError] for
    an infinity. *)
Definition int_error (e : exn) : Prop :=
  e = ValueError "cannot convert float NaN to integer"
  \/ e = OverflowError "cannot convert float infinity to integer".

(** What appending to a value that is not a list raises. *)
Definition append_error : exn :=
  AttributeError "'str' object has no attribute 'append'".

(** Every value of a listing is a string or a list, as in the listings the
    routes build. *)
Definition str_or_list (res : reslist) : Prop :=
  match res with
  | ResDict d => forall k v, In (k, v) d ->
                             (exists s, v = JStr s) \/ (exists l, v = JArr l)
  | ResList _ => True
  end.

(** The text of one entry in a cleaned definition. *)
Definition segment (wn : string * option Z) : string :=
  fst wn ++ match snd wn with
            | Some n => if n =? 0 then "" else ":" ++ PyStr.of_int n
            | None => ""
            end.

(** What splitting a segment on [":"] gives for an entry. *)
Definition segment_parts (wn : string * option Z) : list string :=
  match snd wn with
  | Some n => if n =? 0 then [fst wn] else [fst wn; PyStr.of_int n]
  | None => [fst wn]
  end.

(** The character [c] is not in [s]. *)
Definition free_of (c : ascii) (s : string) : Prop :=
  PyStr.contains (String c "") s = false.

Section Vocabulary.

Context {RT : PyRuntime} {St : Type} {DJ : Dj St}.

(** The calls [dj.list] of a listing, one after the other. *)
Fixpoint list_each (calls : list list_call) (w : World St)
    : list (list Sound) * World St :=
  match calls with
  | [] => ([], w)
  | c :: r =>
      let (samples, s) := dj_list c (dj_state w) in
      let (rest, w') :=
        list_each r {| dj_state := s; trace := trace w ++ [EvList c] |} in
      (samples :: rest, w')
  end.

(** The tasks [pack] dispatches. *)
Definition pack_tasks (req : Request) (words : definition_map)
    : list coroutine :=
  map (fun wn : string * option Z =>
         fetch_one (fst wn)
                   (match snd wn with None => 1 | Some n => n end)
                   (licenses_arg req))
      words.

(** The tasks [speech] dispatches. *)
Definition speech_tasks (req : Request) (words : definition_map)
    : list coroutine :=
  map (fun wn : string * option Z =>
         speak_one (fst wn)
                   (args_get_default "language" "en-GB" (args req))
                   (args_get_default "gender" "f" (args req))
                   (args_get_float "pitch" (args req)))
      words.

(** The body of the status response. *)
Definition status_body (results : list bool) (words : definition_map)
    : response :=
  Jsonify (JObj [("status", JStr (global_status results));
                 ("definition", JStr (clean_definition words))]).

(** The world after a successful parse and the fan-out of [tasks]. *)
Definition after_tasks (definition : string) (tasks : list coroutine)
    (w : World St) : World St :=
  {| dj_state := snd (run_tasks tasks (dj_state w));
     trace := trace w ++ EvParse definition :: map EvDispatch tasks |}.

(** The [dj.list] call of [pack_json] for one entry of the definition. *)
Definition pack_json_call (req : Request) (wn : string * option Z)
    : list_call :=
  {| lc_word := fst wn;
     lc_number := Passed (snd wn);
     lc_licenses := Passed (licenses_arg req);
     lc_gender := Omitted;
     lc_language := Omitted;
     lc_soundtype := Omitted |}.

(** The [dj.list] call of [speech_json] for one entry. *)
Definition speech_json_call (req : Request) (wn : string * option Z)
    : list_call :=
  {| lc_word := fst wn;
     lc_number := Omitted;
     lc_licenses := Omitted;
     lc_gender := Passed (args_get_default "gender" "f" (args req));
     lc_language := Passed (args_get_default "language" "en-GB" (args req));
     lc_soundtype := Passed "tts" |}.

(** The loop shared by [pack_json] and [speech_json]: list the samples of
    an entry, then add them to the listing. *)
Definition listing_loop {A : Type} (call : A -> list_call)
    (step : A -> list Sound -> reslist -> exn + reslist)
    (xs : list A) (res : reslist) : M St reslist :=
  for_each xs
    (fun res x => bind (list_samples (call x))
                       (fun samples => lift (step x samples res)))
    res.

(** The additions of the loop, given what every call listed. *)
Fixpoint steps {A : Type}
    (step : A -> list Sound -> reslist -> exn + reslist)
    (xs : list A) (sampless : list (list Sound)) (res : reslist)
    : exn + reslist :=
  match xs, sampless with
  | x :: xs', ss :: r =>
      match step x ss res with
      | inl e => inl e
      | inr res' => steps step xs' r res'
      end
  | _, _ => inr res
  end.

(** The listing step of [pack_json] for one entry. *)
Definition pack_json_step (req : Request) (wn : string * option Z)
    (samples : list Sound) (res : reslist) : exn + reslist :=
  add_samples (args_get_bool "strudel" (args req))
              (args_get_bool "complete" (args req)) (fst wn) samples res.

(** The listing step of [speech_json] for one entry. *)
Definition speech_json_step (req : Request) (wn : string * option Z)
    (samples : list Sound) (res : reslist) : exn + reslist :=
  match select_pitch (fst wn) (args_get_float "pitch" (args req)) samples with
  | inl e => inl e
  | inr (samples', sample_key) =>
      add_samples (args_get_bool "strudel" (args req)) false sample_key
                  samples' res
  end.

(** The empty listing a [.json] route starts from. *)
Definition empty_listing (strudel : bool) (base : string) : reslist :=
  if strudel then ResDict [("_base", JStr base)] else ResList [].

(** What a [.json] route returns once its listing loop has run. *)
Definition respond (r : (exn + reslist) * World St)
    : (exn + response) * World St :=
  match r with
  | (inl e, w) => (inl e, w)
  | (inr res, w) => (inr (Jsonify (reslist_json res)), w)
  end.

(** The world in which [pack_json] starts listing: after [pack] and the
    second parse. *)
Definition pack_json_start (req : Request) (d : string)
    (words : definition_map) (w : World St) : World St :=
  log [EvParse d] (after_tasks d (pack_tasks req words) w).

(** What [dj.list] gives [pack_json], entry by entry. *)
Definition pack_json_listed (req : Request) (d : string)
    (words : definition_map) (w : World St) : list (list Sound) :=
  fst (list_each (map (pack_json_call req) words)
                 (pack_json_start req d words w)).

(** The world [pack_json] leaves. *)
Definition pack_json_end (req : Request) (d : string)
    (words : definition_map) (w : World St) : World St :=
  snd (list_each (map (pack_json_call req) words)
                 (pack_json_start req d words w)).

(** The groups of a [pack_json] listing: every word with its samples. *)
Definition pack_json_groups (req : Request) (d : string)
    (words : definition_map) (w : World St) : list (string * list Sound) :=
  combine (map fst words) (pack_json_listed req d words w).

(** The same for [speech_json], whose definition [d] has its spaces
    replaced already. *)
Definition speech_json_start (req : Request) (d : string)
    (words : definition_map) (w : World St) : World St :=
  log [EvParse d] (after_tasks d (speech_tasks req words) w).

Definition speech_json_listed (req : Request) (d : string)
    (words : definition_map) (w : World St) : list (list Sound) :=
  fst (list_each (map (speech_json_call req) words)
                 (speech_json_start req d words w)).

Definition speech_json_end (req : Request) (d : string)
    (words : definition_map) (w : World St) : World St :=
  snd (list_each (map (speech_json_call req) words)
                 (speech_json_start req d words w)).

(** The groups of a [speech_json] listing: every word under its sample
    key, with the samples kept for the requested pitch. *)
Definition speech_json_groups (req : Request) (d : string)
    (words : definition_map) (w : World St) : list (string * list Sound) :=
  let pitch := args_get_float "pitch" (args req) in
  combine (map (fun wn => sample_key (fst wn) pitch) words)
          (map (filter (keeps pitch)) (speech_json_listed req d words w)).

End Vocabulary.

(** * An example engine *)

Module Demo.

(** Modelled from the spec: [float] and [str] of the runtime on the few
    literals the examples use ([float] gives [None] elsewhere). *)
Definition parse_float (s : string) : option spec_float :=
  if String.eqb s "0" then Some (S754_zero false)
  else if String.eqb s "1.0" then Some (S754_finite false 1 0)
  else if String.eqb s "-2.0" then Some (S754_finite true 1 1)
  else if String.eqb s "1.5" then Some (S754_finite false 3 (-1))
  else if String.eqb s "nan" then Some S754_nan
  else None.

Definition str_float (x : spec_float) : string :=
  match x with
  | S754_finite false 3 (-1) => "1.5"
  | S754_finite false 1 (-1) => "0.5"
  | S754_finite true 5 (-1) => "-2.5"
  | _ => "?"
  end.

Definition runtime : PyRuntime :=
  {| py_float := parse_float; float_str := str_float |}.

(** Modelled from the spec: the definition parser of section 4.1.
    Segments are separated by [","]; a segment is [word] or [word:count];
    an empty word and a count that is not a positive integer are
    malformed; a repeated word keeps its place and takes the last count. *)
Fixpoint upsert (word : string) (number : option Z) (m : definition_map)
    : definition_map :=
  match m with
  | [] => [(word, number)]
  | (w, n) :: r => if String.eqb w word then (w, number) :: r
                   else (w, n) :: upsert word number r
  end.

Definition parse_segment (segment : string) : string + (string * option Z) :=
  match PyStr.split ":" segment with
  | [word] => if String.eqb word "" then inl "A word is empty"
              else inr (word, None)
  | [word; count] =>
      if String.eqb word "" then inl "A word is empty"
      else match NilEmpty.uint_of_string count with
           | Some u => if 0 <? Z.of_uint u then inr (word, Some (Z.of_uint u))
                       else inl "A count is not positive"
           | None => inl "A count is not a number"
           end
  | _ => inl "A segment is malformed"
  end.

Fixpoint parse_segments (segments : list string) (m : definition_map)
    : string + definition_map :=
  match segments with
  | [] => inr m
  | seg :: r => match parse_segment seg with
                | inl msg => inl msg
                | inr (word, number) => parse_segments r (upsert word number m)
                end
  end.

Definition parse (definition : string) : string + definition_map :=
  parse_segments (PyStr.split "," definition) [].

(** Modelled from the spec: the sample cache of section 4.2 as two trees,
    plain samples and speech samples, each a list of words with a sample. *)
Record cache : Type := {
  samples_dir : list (string * Sound);
  speech_dir : list (string * Sound)
}.

Definition of_word (word : string) (tree : list (string * Sound))
    : list Sound :=
  map snd (filter (fun e => String.eqb (fst e) word) tree).

Definition licensed (licenses : option (list string)) (s : Sound) : bool :=
  match licenses with
  | None => true
  | Some allowed => existsb (String.eqb (licensename s)) allowed
  end.

Definition cached (s : Sound) (have : list Sound) : bool :=
  existsb (fun h => String.eqb (file h) (file s)) have.

(** Modelled from the spec: the fetch of section 4.3 against a remote
    catalogue, and the synthesis of section 4.5, which writes one file per
    word and pitch. *)
Definition run_task (remote : list (string * Sound)) (task : coroutine)
    (c : cache) : bool * cache :=
  match task with
  | DjFetch word number licenses =>
      let have := of_word word (samples_dir c) in
      if number <=? Z.of_nat (length have) then (true, c)
      else
        let found := firstn (Z.to_nat number)
                            (filter (licensed licenses) (of_word word remote)) in
        let fresh := filter (fun s => negb (cached s have)) found in
        (negb (Nat.eqb (length (have ++ fresh)) 0),
         {| samples_dir := samples_dir c ++ map (pair word) fresh;
            speech_dir := speech_dir c |})
  | DjSpeak word language gender pitch =>
      let name := "speech_samples/" ++ word ++ "/" ++ word ++ "_" ++ language
                  ++ "_" ++ gender
                  ++ (if PyFloat.ne_zero pitch
                      then "_p" ++ PyFloat.format_plus_1f pitch else "")
                  ++ ".wav" in
      let s := {| file := name; url := ""; licensename := "";
                  username := "" |} in
      if cached s (of_word word (speech_dir c)) then (true, c)
      else (true,
            {| samples_dir := samples_dir c;
               speech_dir := speech_dir c ++ [(word, s)] |})
  end.

(** One schedule of the event loop: the tasks one after the other. *)
Fixpoint run_all (remote : list (string * Sound)) (tasks : list coroutine)
    (c : cache) : list bool * cache :=
  match tasks with
  | [] => ([], c)
  | t :: r => let (b, c1) := run_task remote t c in
              let (bs, c2) := run_all remote r c1 in
              (b :: bs, c2)
  end.

Definition list_cached (call : list_call) (c : cache) : list Sound * cache :=
  match lc_soundtype call with
  | Passed _ => (of_word (lc_word call) (speech_dir c), c)
  | Omitted =>
      let all := of_word (lc_word call) (samples_dir c) in
      let all := match lc_licenses call with
                 | Passed licenses => filter (licensed licenses) all
                 | Omitted => all
                 end in
      (match lc_number call with
       | Passed (Some n) => firstn (Z.to_nat n) all
       | _ => all
       end, c)
  end.

Definition engine (remote : list (string * Sound)) : Dj cache :=
  {| parse_definition := parse;
     run_tasks := run_all remote;
     dj_list := list_cached |}.

Definition sound (name : string) : Sound :=
  {| file := name; url := "https://freesound.example/" ++ name;
     licensename := "cc0"; username := "someone" |}.

(** A remote catalogue with two dogs, a cat and a sample filed under the
    word [_base]. *)
Definition remote : list (string * Sound) :=
  [("dog", sound "samples/dog/dog_0.wav");
   ("dog", sound "samples/dog/dog_1.wav");
   ("cat", sound "samples/cat/cat_0.wav");
   ("_base", sound "samples/_base/_base_0.wav")].

Definition empty_cache : cache := {| samples_dir := []; speech_dir := [] |}.

(** A cache that holds the neutral reading of [fox] and one at pitch
    [+1.0]. *)
Definition fox_cache : cache :=
  {| samples_dir := [];
     speech_dir := [("fox", sound "speech_samples/fox/fox_en-GB_f.wav");
                    ("fox", sound "speech_samples/fox/fox_en-GB_f_p+1.0.wav")]
  |}.

(** A request to [http://shabda.example:8080/...] of an application
    mounted under [/shabda]. *)
Definition request (query : list (string * string)) : Request :=
  {| args := query;
     urlparse_base_url := inr {| url_scheme := "http";
                                 url_hostname := Some "shabda.example";
                                 url_port := inr (Some 8080) |};
     environ_script_name := Some "/shabda";
     tempdir := "/tmp" |}.

(** A request to [http://shabda.example:0/...]: a port of 0 in its URL. *)
Definition request_port0 : Request :=
  {| args := [("strudel", "1")];
     urlparse_base_url := inr {| url_scheme := "http";
                                 url_hostname := Some "shabda.example";
                                 url_port := inr (Some 0) |};
     environ_script_name := None;
     tempdir := "/tmp" |}.

(** A request whose URL names no host ([http:///...]). *)
Definition request_no_host (query : list (string * string)) : Request :=
  {| args := query;
     urlparse_base_url := inr {| url_scheme := "http";
                                 url_hostname := None;
                                 url_port := inr None |};
     environ_script_name := None;
     tempdir := "/tmp" |}.

Definition world (c : cache) : World cache :=
  {| dj_state := c; trace := [] |}.

Definition dj : Dj cache := engine remote.

(** A cache that holds two dogs and a cat. *)
Definition dogs_cache : cache :=
  {| samples_dir := [("dog", sound "samples/dog/dog_0.wav");
                     ("dog", sound "samples/dog/dog_1.wav");
                     ("cat", sound "samples/cat/cat_0.wav")];
     speech_dir := [] |}.

(** The text [json.dumps] writes for values that hold no character to
    escape. *)
Definition quote (s : string) : string :=
  String (ascii_of_nat 34) (s ++ String (ascii_of_nat 34) "").

Definition dump_value (v : pyobj) : string :=
  match v with
  | PyNone => "null"
  | PyInt i => PyStr.of_int i
  | PyString s => quote s
  | PyException _ _ => ""
  end.

Definition dumps (fields : list (string * pyobj)) : string :=
  "{"
  ++ PyStr.join ", "
       (map (fun kv => quote (fst kv) ++ ": " ++ dump_value (snd kv)) fields)
  ++ "}".

Definition json_text : JsonText := {| dumps_text := dumps |}.

(** The page of an error, with an origin header spelt in lower case. *)
Definition page (status : Z) : http_response :=
  {| status_code := status;
     headers := [("Content-Type", "text/html; charset=utf-8");
                 ("access-control-allow-origin", "null")];
     data := "<!doctype html>" |}.

(** An exception with a text for description, as werkzeug's own. *)
Definition not_found : HTTPException :=
  {| exc_code := PyInt 404;
     exc_name := "Not Found";
     exc_description := PyString "The requested URL was not found.";
     exc_response := page 404 |}.

End Demo.

(** * Properties *)

(** Proof steps for lists of distinct literal words and for listings
    without a key [_base]. *)
Ltac distinct_strings :=
  repeat (constructor; [cbn; intuition discriminate|]); constructor.



(** ** Strings *)

Lemma prefix_iff (sub s : string) :
  String.prefix sub s = true <-> exists after, s = sub ++ after.
Proof.
  revert s; induction sub as [|c sub IH]; intros s; simpl.
  - destruct s; split; eauto.
  - destruct s as [|c' s]; simpl.
    + split; [discriminate | intros [a Ha]; discriminate].
    + destruct (ascii_dec c c') as [->|Hne].
      * rewrite IH. split; intros [a Ha]; exists a.
        -- now rewrite Ha.
        -- now injection Ha.
      * split; [discriminate|].
        intros [a Ha]. injection Ha as Hc _. congruence.
Qed.

Lemma contains_iff (sub s : string) :
  PyStr.contains sub s = true <-> occurs_in sub s.
Proof.
  unfold occurs_in. induction s as [|c s IH].
  - cbn [PyStr.contains]. rewrite orb_false_r, prefix_iff. split.
    + intros [a Ha]. now exists EmptyString, a.
    + intros [b [a Hba]]. destruct b; [now exists a | discriminate].
  - cbn [PyStr.contains]. rewrite orb_true_iff, prefix_iff, IH. split.
    + intros [[a Ha] | [b [a Hba]]].
      * now exists EmptyString, a.
      * exists (String c b), a. cbn. now rewrite Hba.
    + intros [b [a Hba]]. destruct b as [|c' b].
      * left. now exists a.
      * right. exists b, a. cbn in Hba. now injection Hba.
Qed.

Lemma contains_false_iff (sub s : string) :
  PyStr.contains sub s = false <-> ~ occurs_in sub s.
Proof.
  rewrite <- contains_iff. destruct (PyStr.contains sub s); split;
    congruence.
Qed.

Lemma replace_length (old new : ascii) (s : string) :
  String.length (PyStr.replace old new s) = String.length s.
Proof. induction s; simpl; congruence. Qed.

Lemma replace_get (old new : ascii) (s : string) (n : nat) :
  String.get n (PyStr.replace old new s)
  = option_map (fun c => if Ascii.eqb c old then new else c)
               (String.get n s).
Proof.
  revert n; induction s as [|c s IH]; intros [|n]; simpl; auto.
Qed.

Lemma replace_idem (old new : ascii) (s : string) :
  old <> new ->
  PyStr.replace old new (PyStr.replace old new s) = PyStr.replace old new s.
Proof.
  intros Hne. induction s as [|c s IH]; simpl; [reflexivity|].
  rewrite IH. f_equal.
  destruct (Ascii.eqb c old) eqn:E; [|now rewrite E].
  destruct (Ascii.eqb new old) eqn:E'; [|reflexivity].
  apply Ascii.eqb_eq in E'. congruence.
Qed.

Lemma append_nil_r (s : string) : s ++ "" = s.
Proof. induction s; simpl; congruence. Qed.

Lemma append_assoc (a b c : string) : (a ++ b) ++ c = a ++ b ++ c.
Proof. induction a; simpl; congruence. Qed.

Lemma append_length (a b : string) :
  String.length (a ++ b) = (String.length a + String.length b)%nat.
Proof. induction a; simpl; congruence. Qed.

Lemma append_inj_l (a b s : string) : a ++ s = b ++ s -> a = b.
Proof.
  revert b; induction a as [|c a IH]; intros [|c' b] H; simpl in H.
  - reflexivity.
  - apply (f_equal String.length) in H. simpl in H.
    rewrite append_length in H. lia.
  - apply (f_equal String.length) in H. simpl in H.
    rewrite append_length in H. lia.
  - injection H as -> H. f_equal. now apply IH.
Qed.

(** ** Floats *)

Lemma to_int_finite (x : spec_float) :
  PyFloat.is_finite x = true -> PyFloat.to_int x = inr (trunc x).
Proof. destruct x; simpl; try discriminate; reflexivity. Qed.

Lemma to_int_not_finite (x : spec_float) :
  PyFloat.is_finite x = false -> exists e, PyFloat.to_int x = inl e.
Proof. destruct x; simpl; try discriminate; eauto. Qed.

Lemma not_finite_ne_zero (x : spec_float) :
  PyFloat.is_finite x = false -> PyFloat.ne_zero x = true.
Proof. destruct x; simpl; try discriminate; reflexivity. Qed.

Lemma eq_int_trunc (x : spec_float) :
  PyFloat.is_finite x = true ->
  PyFloat.eq_int x (trunc x) = is_integral x.
Proof.
  destruct x as [s|s| |s m e]; intros H; try (simpl in H; discriminate H).
  - reflexivity.
  - unfold trunc, PyFloat.to_int, PyFloat.eq_int, is_integral.
    destruct (0 <=? e) eqn:He; cbn [orb].
    + destruct s; apply Z.eqb_eq; [|reflexivity].
      change (Z.neg m) with (- Z.pos m). ring.
    + apply Z.leb_gt in He.
      assert (Hk : 0 < 2 ^ (- e)) by (apply Z.pow_pos_nonneg; lia).
      pose proof (Z.div_mod (Z.pos m) (2 ^ (- e)) ltac:(lia)) as Hdm.
      destruct (Z.pos m mod 2 ^ (- e) =? 0) eqn:Hr.
      * apply Z.eqb_eq in Hr. rewrite Hr, Z.add_0_r in Hdm.
        destruct s; apply Z.eqb_eq.
        -- change (Z.neg m) with (- Z.pos m). rewrite Hdm at 1. ring.
        -- rewrite Hdm at 1. ring.
      * apply Z.eqb_neq in Hr.
        destruct s; apply Z.eqb_neq; intros Heq; apply Hr.
        -- change (Z.neg m) with (- Z.pos m) in Heq. lia.
        -- lia.
Qed.

(** A finite float is whole when [m * 2^e] is an integer. *)
Lemma is_integral_finite_iff (s : bool) (m : positive) (e : Z) :
  is_integral (S754_finite s m e) = true <->
  0 <= e \/ (e < 0 /\ exists i : Z, Z.pos m = i * 2 ^ (- e)).
Proof.
  unfold is_integral. rewrite orb_true_iff, Z.leb_le, Z.eqb_eq. split.
  - intros [He|Hm]; [now left|].
    destruct (Z_lt_le_dec e 0) as [Hneg|Hpos]; [right | now left].
    split; [exact Hneg|]. apply Z.mod_divide in Hm; [exact Hm|].
    assert (0 < 2 ^ (- e)) by (apply Z.pow_pos_nonneg; lia). lia.
  - intros [He|[Hneg [i Hi]]]; [now left | right].
    apply Z.mod_divide; [|now exists i].
    assert (0 < 2 ^ (- e)) by (apply Z.pow_pos_nonneg; lia). lia.
Qed.

(** [round_half_even num den] is within a half of [num / den]. *)
Lemma round_half_even_nearest (num den : Z) :
  0 < den ->
  Z.abs (2 * num - 2 * PyFloat.round_half_even num den * den) <= den.
Proof.
  intros Hden. unfold PyFloat.round_half_even.
  pose proof (Z.div_mod num den ltac:(lia)) as Hdm.
  pose proof (Z.mod_pos_bound num den Hden) as Hr.
  destruct (2 * (num mod den) ?= den) eqn:Hc.
  - apply Z.compare_eq in Hc. destruct (Z.even (num / den)); nia.
  - rewrite Z.compare_lt_iff in Hc. nia.
  - rewrite Z.compare_gt_iff in Hc. nia.
Qed.

(** On a tie, [round_half_even] gives the even neighbour. *)
Lemma round_half_even_tie (num den : Z) :
  0 < den -> 2 * (num mod den) = den ->
  Z.even (PyFloat.round_half_even num den) = true.
Proof.
  intros Hden Htie. unfold PyFloat.round_half_even.
  rewrite Htie, Z.compare_refl.
  destruct (Z.even (num / den)) eqn:E; [exact E|].
  rewrite Z.even_add, E. reflexivity.
Qed.

(** [tenths m e] is the integer nearest to [10 * m * 2^e]. *)
Lemma tenths_nearest (m : positive) (e : Z) :
  (0 <= e -> PyFloat.tenths m e = 10 * (Z.pos m * 2 ^ e))
  /\ (e < 0 ->
      Z.abs (2 * (10 * Z.pos m) - 2 * PyFloat.tenths m e * 2 ^ (- e))
      <= 2 ^ (- e)).
Proof.
  unfold PyFloat.tenths. split; intros He.
  - apply Z.leb_le in He. rewrite He. ring.
  - assert (Hle : (0 <=? e) = false) by (apply Z.leb_gt; lia).
    rewrite Hle. replace (10 * Z.pos m) with (Z.pos m * 10) by ring.
    apply round_half_even_nearest. apply Z.pow_pos_nonneg; lia.
Qed.

Lemma tenths_nonneg (m : positive) (e : Z) : 0 <= PyFloat.tenths m e.
Proof.
  unfold PyFloat.tenths. destruct (0 <=? e) eqn:He.
  - apply Z.leb_le in He.
    assert (0 <= 2 ^ e) by (apply Z.pow_nonneg; lia). nia.
  - apply Z.leb_gt in He.
    assert (Hk : 0 < 2 ^ (- e)) by (apply Z.pow_pos_nonneg; lia).
    unfold PyFloat.round_half_even.
    assert (0 <= Z.pos m * 10 / 2 ^ (- e)) by (apply Z.div_pos; lia).
    destruct (2 * ((Z.pos m * 10) mod 2 ^ (- e)) ?= 2 ^ (- e)); try lia.
    destruct (Z.even _); lia.
Qed.

(** [str(d)] of a one-digit number is one character. *)
Lemma of_int_digit (d : Z) :
  0 <= d < 10 -> String.length (PyStr.of_int d) = 1%nat.
Proof.
  intros Hd.
  assert (H : d = 0 \/ d = 1 \/ d = 2 \/ d = 3 \/ d = 4 \/ d = 5 \/ d = 6
              \/ d = 7 \/ d = 8 \/ d = 9) by lia.
  repeat (destruct H as [->|H]; [reflexivity|]). now subst.
Qed.

(** The text of [f"{x:+.1f}"] for a finite [x]: a sign, the whole part,
    a point and one digit. *)
Lemma format_plus_1f_shape (x : spec_float) :
  PyFloat.is_finite x = true ->
  exists (sign : string) (whole digit : Z),
    PyFloat.format_plus_1f x
    = sign ++ PyStr.of_int whole ++ "." ++ PyStr.of_int digit
    /\ (sign = "+" \/ sign = "-")
    /\ 0 <= whole
    /\ 0 <= digit < 10
    /\ String.length (PyStr.of_int digit) = 1%nat.
Proof.
  destruct x as [s|s| |s m e]; simpl; try discriminate; intros _.
  - exists (PyFloat.sign_char s), 0, 0. repeat split; try lia.
    destruct s; auto.
  - pose proof (tenths_nonneg m e) as Ht.
    pose proof (Z.mod_pos_bound (PyFloat.tenths m e) 10 ltac:(lia)) as Hd.
    exists (PyFloat.sign_char s), (PyFloat.tenths m e / 10),
           (PyFloat.tenths m e mod 10).
    repeat split; try lia.
    + destruct s; auto.
    + apply Z.div_pos; lia.
    + apply of_int_digit; lia.
Qed.

(** ** Pitch selection *)

Lemma select_pitch_finite `{PyRuntime} (word : string) (pitch : spec_float)
    (samples : list Sound) :
  PyFloat.is_finite pitch = true ->
  select_pitch word pitch samples
  = inr (filter (keeps pitch) samples, sample_key word pitch).
Proof.
  intros Hfin. unfold select_pitch, sample_key, keeps, pitch_suffix.
  destruct (PyFloat.ne_zero pitch); [|reflexivity].
  rewrite (to_int_finite _ Hfin), (eq_int_trunc _ Hfin). reflexivity.
Qed.

Lemma select_pitch_not_finite `{PyRuntime} (word : string)
    (pitch : spec_float) (samples : list Sound) :
  PyFloat.is_finite pitch = false ->
  exists e, select_pitch word pitch samples = inl e.
Proof.
  intros Hfin. unfold select_pitch.
  rewrite (not_finite_ne_zero _ Hfin).
  destruct (to_int_not_finite _ Hfin) as [e ->]. now exists e.
Qed.


(** The readings of [fox] at hand: the neutral one and one at [+1.0].
    Pitch 0 keeps the first, pitch 1.0 the second, pitch -2.0 none. *)
Example select_pitch_fox `{PyRuntime} :
  let neutral := {| file := "fox"; url := ""; licensename := "";
                    username := "" |} in
  let raised := {| file := "fox_p+1.0"; url := ""; licensename := "";
                   username := "" |} in
  select_pitch "fox" (S754_zero false) [neutral; raised]
  = inr ([neutral], "fox")
  /\ select_pitch "fox" (S754_finite false 1 0) [neutral; raised]
     = inr ([raised], "fox_p1")
  /\ select_pitch "fox" (S754_finite true 1 1) [neutral; raised]
     = inr ([], "fox_p-2").
Proof. repeat split. Qed.

(** ** Dictionaries *)

Lemma dict_mem_app (k : string) (d d' : Dict.t) :
  Dict.mem k (d ++ d')%list = Dict.mem k d || Dict.mem k d'.
Proof. unfold Dict.mem. apply existsb_app. Qed.

Lemma dict_mem_keys (k : string) (d : Dict.t) :
  Dict.mem k d = true <-> In k (Dict.keys d).
Proof.
  unfold Dict.mem, Dict.keys. rewrite existsb_exists, in_map_iff.
  split; intros [[k' v] [H1 H2]]; exists (k', v); simpl in *.
  - apply String.eqb_eq in H2. auto.
  - subst. split; [auto | apply String.eqb_refl].
Qed.

Lemma dict_get_mem (k : string) (d : Dict.t) (v : json) :
  Dict.get k d = Some v -> Dict.mem k d = true.
Proof.
  induction d as [|[k' v'] d IH]; simpl; [discriminate|].
  destruct (String.eqb k' k); simpl; auto.
Qed.

Lemma dict_get_app_fresh (k : string) (d : Dict.t) (v : json) :
  Dict.mem k d = false -> Dict.get k (d ++ [(k, v)])%list = Some v.
Proof.
  induction d as [|[k' v'] d IH]; simpl.
  - now rewrite String.eqb_refl.
  - destruct (String.eqb k' k); simpl; [discriminate | exact IH].
Qed.

Lemma dict_update_app_fresh (k : string) (d : Dict.t) (v v' : json) :
  Dict.mem k d = false ->
  Dict.update k v' (d ++ [(k, v)])%list = (d ++ [(k, v')])%list.
Proof.
  induction d as [|[k' v''] d IH]; simpl.
  - now rewrite String.eqb_refl.
  - destruct (String.eqb k' k); simpl; [discriminate|].
    intros H. now rewrite IH.
Qed.

Lemma dict_set_app_fresh (k : string) (d : Dict.t) (v v' : json) :
  Dict.mem k d = false ->
  Dict.set k v' (d ++ [(k, v)])%list = (d ++ [(k, v')])%list.
Proof.
  intros H. unfold Dict.set.
  rewrite dict_mem_app, H. simpl. rewrite String.eqb_refl. simpl.
  now apply dict_update_app_fresh.
Qed.

Lemma dict_set_fresh (k : string) (d : Dict.t) (v : json) :
  Dict.mem k d = false -> Dict.set k v d = (d ++ [(k, v)])%list.
Proof. intros H. unfold Dict.set. now rewrite H. Qed.

Lemma dict_get_app_other (k k' : string) (d : Dict.t) (v : json) :
  k <> k' -> Dict.get k' (d ++ [(k, v)])%list = Dict.get k' d.
Proof.
  intros Hne. induction d as [|[k'' v''] d IH]; simpl.
  - apply String.eqb_neq in Hne. now rewrite Hne.
  - destruct (String.eqb k'' k'); auto.
Qed.

Lemma dict_get_update_other (k k' : string) (d : Dict.t) (v : json) :
  k <> k' -> Dict.get k' (Dict.update k v d) = Dict.get k' d.
Proof.
  intros Hne. induction d as [|[k'' v''] d IH]; simpl; [reflexivity|].
  destruct (String.eqb k'' k) eqn:E; simpl.
  - apply String.eqb_eq in E. subst k''.
    apply String.eqb_neq in Hne. now rewrite Hne.
  - destruct (String.eqb k'' k'); auto.
Qed.

Lemma dict_get_set_other (k k' : string) (d : Dict.t) (v : json) :
  k <> k' -> Dict.get k' (Dict.set k v d) = Dict.get k' d.
Proof.
  intros Hne. unfold Dict.set. destruct (Dict.mem k d).
  - now apply dict_get_update_other.
  - now apply dict_get_app_other.
Qed.

Lemma dict_get_not_mem (k : string) (d : Dict.t) :
  Dict.mem k d = false -> Dict.get k d = None.
Proof.
  induction d as [|[k' v'] d IH]; simpl; [reflexivity|].
  destruct (String.eqb k' k); simpl; [discriminate | exact IH].
Qed.

(** ** Assembling a listing *)

Lemma for_each_flat (complete : bool) (key : string) (samples : list Sound)
    (l : list json) (n : Z) :
  for_each_e samples (add_sound false complete key) (ResList l, n)
  = inr (ResList (l ++ records complete key n samples),
         n + Z.of_nat (length samples)).
Proof.
  revert l n; induction samples as [|s r IH]; intros l n.
  - simpl. now rewrite app_nil_r, Z.add_0_r.
  - cbn [for_each_e add_sound records length].
    rewrite IH, <- app_assoc, Nat2Z.inj_succ. cbn [app].
    do 2 f_equal. lia.
Qed.

Lemma add_samples_flat (complete : bool) (key : string)
    (samples : list Sound) (l : list json) :
  add_samples false complete key samples (ResList l)
  = inr (ResList (l ++ records complete key 0 samples)).
Proof. unfold add_samples. now rewrite for_each_flat. Qed.

Lemma add_groups_flat (complete : bool) (groups : list (string * list Sound))
    (l : list json) :
  add_groups false complete groups (ResList l)
  = inr (ResList (l ++ flat_listing complete groups)).
Proof.
  revert l; induction groups as [|g r IH]; intros l; simpl.
  - now rewrite app_nil_r.
  - rewrite add_samples_flat, IH, <- app_assoc. reflexivity.
Qed.

Lemma for_each_strudel (complete : bool) (key : string)
    (samples : list Sound) (d : Dict.t) (l : list json) (n : Z) :
  Dict.mem key d = false ->
  for_each_e samples (add_sound true complete key)
             (ResDict (d ++ [(key, JArr l)]), n)
  = inr (ResDict (d ++ [(key, JArr (l ++ map (fun s => JStr (file s))
                                                samples))]),
         n).
Proof.
  intros Hd. revert l; induction samples as [|s r IH]; intros l.
  - simpl. now rewrite app_nil_r.
  - cbn [for_each_e add_sound].
    assert (Hin : Dict.mem key (d ++ [(key, JArr l)]) = true).
    { rewrite dict_mem_app. simpl. rewrite String.eqb_refl.
      now rewrite orb_true_r. }
    rewrite Hin, (dict_get_app_fresh _ _ _ Hd), (dict_set_app_fresh _ _ _ _ Hd).
    rewrite IH, <- app_assoc. reflexivity.
Qed.

Lemma add_samples_strudel (complete : bool) (key : string)
    (samples : list Sound) (d : Dict.t) :
  (samples <> [] -> Dict.mem key d = false) ->
  add_samples true complete key samples (ResDict d)
  = inr (ResDict (d ++ group_entry (key, samples))).
Proof.
  intros Hd. destruct samples as [|s r].
  - cbn. now rewrite app_nil_r.
  - specialize (Hd ltac:(discriminate)).
    unfold add_samples. cbn [for_each_e add_sound]. rewrite Hd.
    rewrite (dict_set_fresh key d (JArr []) Hd).
    rewrite (dict_get_app_fresh _ _ _ Hd), (dict_set_app_fresh _ _ _ _ Hd).
    rewrite (for_each_strudel _ _ _ _ _ _ Hd). reflexivity.
Qed.

Lemma add_groups_strudel (complete : bool)
    (groups : list (string * list Sound)) (d : Dict.t) :
  NoDup (map fst groups) ->
  (forall g, In g groups -> snd g <> [] -> Dict.mem (fst g) d = false) ->
  add_groups true complete groups (ResDict d)
  = inr (ResDict (d ++ flat_map group_entry groups)).
Proof.
  revert d; induction groups as [|[key ss] r IH]; intros d Hnd Hfresh.
  - simpl. now rewrite app_nil_r.
  - cbn [add_groups fst snd flat_map].
    rewrite add_samples_strudel
      by (intros Hne; apply (Hfresh (key, ss)); [now left | exact Hne]).
    inversion Hnd as [|? ? Hnotin Hnd']; subst.
    rewrite IH, <- app_assoc; [reflexivity | exact Hnd' |].
    intros g Hg Hne. rewrite dict_mem_app.
    rewrite (Hfresh g (or_intror Hg) Hne). simpl.
    destruct ss as [|s ss']; [reflexivity|].
    cbn. rewrite orb_false_r. apply String.eqb_neq.
    intros Heq. apply Hnotin. rewrite Heq.
    apply in_map_iff. now exists g.
Qed.

(** A sample under the key that holds the base URL cannot be appended. *)
Lemma add_samples_clash (complete : bool) (key base : string)
    (s : Sound) (r : list Sound) (d : Dict.t) :
  Dict.get key d = Some (JStr base) ->
  exists e, add_samples true complete key (s :: r) (ResDict d) = inl e.
Proof.
  intros Hget. unfold add_samples. cbn [for_each_e add_sound].
  rewrite (dict_get_mem _ _ _ Hget), Hget. eauto.
Qed.

(** Whatever is appended, the entry of another key stays. *)
Lemma add_sound_keeps (complete : bool) (key k : string) (v : string)
    (s : Sound) (d : Dict.t) (n : Z) (acc : reslist * Z) :
  Dict.get k d = Some (JStr v) ->
  add_sound true complete key (ResDict d, n) s = inr acc ->
  exists d', fst acc = ResDict d' /\ Dict.get k d' = Some (JStr v).
Proof.
  intros Hget. cbn [add_sound].
  destruct (String.eqb key k) eqn:Hk.
  - apply String.eqb_eq in Hk. subst k.
    rewrite (dict_get_mem _ _ _ Hget), Hget. discriminate.
  - apply String.eqb_neq in Hk.
    set (d1 := if Dict.mem key d then d else Dict.set key (JArr []) d).
    assert (Hd1 : Dict.get k d1 = Some (JStr v)).
    { unfold d1. destruct (Dict.mem key d); [exact Hget|].
      now rewrite dict_get_set_other. }
    destruct (Dict.get key d1) as [[| |l|]|]; try discriminate.
    intros [= <-]. eexists; split; [reflexivity|].
    now rewrite dict_get_set_other.
Qed.

Lemma add_samples_keeps (complete : bool) (key k : string) (v : string)
    (samples : list Sound) (d : Dict.t) (res : reslist) :
  Dict.get k d = Some (JStr v) ->
  add_samples true complete key samples (ResDict d) = inr res ->
  exists d', res = ResDict d' /\ Dict.get k d' = Some (JStr v).
Proof.
  unfold add_samples. generalize 0 as n.
  revert d; induction samples as [|s r IH]; intros d n Hget.
  - simpl. intros [= <-]. eauto.
  - cbn [for_each_e].
    destruct (add_sound true complete key (ResDict d, n) s)
      as [e|[res1 n1]] eqn:Hs; [discriminate|].
    destruct (add_sound_keeps _ _ _ _ _ _ _ _ Hget Hs) as [d1 [E1 Hget1]].
    simpl in E1. subst res1. now apply IH.
Qed.

(** A group with samples under [_base] makes the strudel listing raise. *)
Lemma add_groups_clash (complete : bool) (base : string)
    (groups : list (string * list Sound)) (res : reslist) :
  holds_base base res -> ~ no_base_clash groups ->
  exists e, add_groups true complete groups res = inl e.
Proof.
  revert res; induction groups as [|[key ss] r IH];
    intros res [dct [-> Hget]] Hclash.
  - exfalso. apply Hclash. intros g [].
  - cbn [add_groups fst snd].
    destruct (add_samples true complete key ss (ResDict dct))
      as [e|res1] eqn:Hadd; [now exists e|].
    apply IH.
    + exact (add_samples_keeps _ _ _ _ _ _ _ Hget Hadd).
    + intros Hr. apply Hclash. intros g [<-|Hg] Hne Hk; [|now apply (Hr g)].
      cbn [fst snd] in *. subst key. destruct ss as [|s0 ss0]; [easy|].
      destruct (add_samples_clash complete "_base" base s0 ss0 dct Hget)
        as [e He].
      congruence.
Qed.

Lemma records_length (complete : bool) (bank : string) (n : Z)
    (samples : list Sound) :
  length (records complete bank n samples) = length samples.
Proof.
  revert n; induction samples as [|s r IH]; intros n; simpl; auto.
Qed.

Lemma records_nth (complete : bool) (bank : string) (n : Z)
    (samples : list Sound) (i : nat) (s : Sound) :
  nth_error samples i = Some s ->
  nth_error (records complete bank n samples) i
  = Some (sound_data complete bank (n + Z.of_nat i) s).
Proof.
  revert n i; induction samples as [|s0 r IH]; intros n [|i]; simpl;
    try discriminate.
  - intros [= ->]. now rewrite Z.add_0_r.
  - intros H. rewrite (IH _ _ H). do 2 f_equal. lia.
Qed.

Lemma field_bank (complete : bool) (bank : string) (n : Z) (s : Sound) :
  field "bank" (sound_data complete bank n s) = Some (JStr bank).
Proof. now destruct complete. Qed.


Lemma records_banks (complete : bool) (bank : string) (n : Z)
    (samples : list Sound) :
  map (field "bank") (records complete bank n samples)
  = repeat (Some (JStr bank)) (length samples).
Proof.
  revert n; induction samples as [|s r IH]; intros n; [reflexivity|].
  cbn [records map length repeat]. now rewrite IH, field_bank.
Qed.


Lemma flat_listing_banks (complete : bool)
    (groups : list (string * list Sound)) :
  map (field "bank") (flat_listing complete groups)
  = flat_map (fun g => repeat (Some (JStr (fst g))) (length (snd g))) groups.
Proof.
  unfold flat_listing. induction groups as [|g r IH]; simpl; [reflexivity|].
  now rewrite map_app, records_banks, IH.
Qed.







Lemma global_status_fold (results : list bool) (st : string) :
  fold_left (fun st (status : bool) => if status then "ok" else st) results st
  = if existsb (fun b => b) results then "ok" else st.
Proof.
  revert st; induction results as [|[|] r IH]; intros st; simpl.
  - reflexivity.
  - rewrite IH. now destruct (existsb _ r).
  - apply IH.
Qed.

Lemma global_status_cases (results : list bool) :
  (global_status results = "ok" /\ In true results)
  \/ (global_status results = "empty" /\ ~ In true results).
Proof.
  unfold global_status. rewrite global_status_fold.
  destruct (existsb (fun b => b) results) eqn:E.
  - left. split; [reflexivity|].
    apply existsb_exists in E. destruct E as [[|] [Hin Hb]]; auto.
    discriminate.
  - right. split; [reflexivity|]. intros Hin.
    assert (existsb (fun b => b) results = true)
      by (apply existsb_exists; now exists true).
    congruence.
Qed.

Lemma dispatched_app (a b : list event) :
  dispatched (a ++ b) = (dispatched a ++ dispatched b)%list.
Proof.
  induction a as [|[| |] a IH]; simpl; auto. now rewrite IH.
Qed.

Lemma dispatched_map (tasks : list coroutine) :
  dispatched (map EvDispatch tasks) = tasks.
Proof. induction tasks; simpl; congruence. Qed.

Lemma parsed_app (a b : list event) :
  parsed (a ++ b) = (parsed a ++ parsed b)%list.
Proof.
  induction a as [|[| |] a IH]; simpl; auto. now rewrite IH.
Qed.

Lemma parsed_map_dispatch (tasks : list coroutine) :
  parsed (map EvDispatch tasks) = [].
Proof. induction tasks; simpl; auto. Qed.

Lemma base_url_text (req : Request) (base : string) :
  base_url req = inr base ->
  exists url hostname port,
    urlparse_base_url req = inr url
    /\ url_hostname url = Some hostname
    /\ url_port url = inr port
    /\ base = "https://" ++ hostname
              ++ match port with
                 | Some p => if p =? 0 then "" else ":" ++ PyStr.of_int p
                 | None => ""
                 end
              ++ match environ_script_name req with
                 | Some s => s
                 | None => ""
                 end
              ++ "/".
Proof.
  unfold base_url.
  destruct (urlparse_base_url req) as [msg|url] eqn:Hu; [discriminate|].
  destruct (url_hostname url) as [hostname|] eqn:Hh; [|discriminate].
  destruct (url_port url) as [msg|port] eqn:Hp; [discriminate|].
  intros H. injection H as <-. exists url, hostname, port.
  repeat split; auto.
  destruct port as [p|]; [destruct (p =? 0)|]; cbn;
    now rewrite ?append_assoc.
Qed.

Lemma base_url_with_scheme (scheme : string) (req : Request) :
  base_url (with_scheme scheme req) = base_url req.
Proof.
  unfold base_url, with_scheme. cbn.
  now destruct (urlparse_base_url req).
Qed.

Lemma base_url_no_hostname (req : Request) (url : Url) :
  urlparse_base_url req = inr url -> url_hostname url = None ->
  base_url req = inl (TypeError concat_none_error).
Proof. unfold base_url. now intros -> ->. Qed.

(** ** Sorted keys *)





(** ** Running the handlers *)

Section Runs.

Context {RT : PyRuntime} {St : Type} {DJ : Dj St}.

Lemma parse_run (d : string) (w : World St) :
  parse d w
  = (match parse_definition d with
     | inl ex => inl (BadRequest ex)
     | inr words => inr words
     end,
     log [EvParse d] w).
Proof. unfold parse. now destruct (parse_definition d). Qed.

Lemma pack_fails (req : Request) (d ex : string) (w : World St) :
  parse_definition d = inl ex ->
  pack req d w = (inl (BadRequest ex), log [EvParse d] w).
Proof. intros H. unfold pack, bind. now rewrite parse_run, H. Qed.

Lemma pack_runs (req : Request) (d : string) (words : definition_map)
    (w : World St) :
  parse_definition d = inr words ->
  pack req d w
  = (inr (status_body (fst (run_tasks (pack_tasks req words) (dj_state w)))
                      words),
     after_tasks d (pack_tasks req words) w).
Proof.
  intros H. unfold pack, bind. rewrite parse_run, H.
  unfold gather, ret, after_tasks, status_body, log. cbn [dj_state trace].
  replace (map _ words) with (pack_tasks req words).
  - destruct (run_tasks _ _) as [results s]. cbn [fst snd].
    now rewrite <- app_assoc.
  - unfold pack_tasks. apply map_ext. now intros [word number].
Qed.

Lemma speech_fails (req : Request) (d ex : string) (w : World St) :
  parse_definition (PyStr.replace " " "_" d) = inl ex ->
  speech req d w
  = (inl (BadRequest ex), log [EvParse (PyStr.replace " " "_" d)] w).
Proof. intros H. unfold speech, bind. now rewrite parse_run, H. Qed.

Lemma speech_runs (req : Request) (d : string) (words : definition_map)
    (w : World St) :
  let d' := PyStr.replace " " "_" d in
  parse_definition d' = inr words ->
  speech req d w
  = (inr (status_body
            (fst (run_tasks (speech_tasks req words) (dj_state w))) words),
     after_tasks d' (speech_tasks req words) w).
Proof.
  intros d' H. unfold speech, bind. fold d'. rewrite parse_run, H.
  unfold gather, ret, after_tasks, status_body, log. cbn [dj_state trace].
  fold (speech_tasks req words).
  destruct (run_tasks _ _) as [results s]. cbn [fst snd].
  now rewrite <- app_assoc.
Qed.

(** *** The listing loop *)

Lemma for_each_ext {A B : Type} (xs : list A) (f g : B -> A -> M St B)
    (acc : B) (w : World St) :
  (forall b x w', f b x w' = g b x w') ->
  for_each xs f acc w = for_each xs g acc w.
Proof.
  intros Hfg. revert acc w; induction xs as [|x r IH]; intros acc w.
  - reflexivity.
  - cbn [for_each]. unfold bind. rewrite Hfg.
    destruct (g acc x w) as [[e|b] w1]; [reflexivity | apply IH].
Qed.

Lemma list_each_length (calls : list list_call) (w : World St) :
  length (fst (list_each calls w)) = length calls.
Proof.
  revert w; induction calls as [|c r IH]; intros w; simpl; [reflexivity|].
  destruct (dj_list c (dj_state w)) as [ss s].
  specialize (IH {| dj_state := s; trace := trace w ++ [EvList c] |}).
  destruct (list_each r _) as [rest w']. simpl in *. now rewrite IH.
Qed.

Lemma list_each_trace (calls : list list_call) (w : World St) :
  trace (snd (list_each calls w)) = (trace w ++ map EvList calls)%list.
Proof.
  revert w; induction calls as [|c r IH]; intros w; simpl.
  - now rewrite app_nil_r.
  - destruct (dj_list c (dj_state w)) as [ss s].
    specialize (IH {| dj_state := s; trace := trace w ++ [EvList c] |}).
    destruct (list_each r _) as [rest w']. cbn [snd trace] in *.
    now rewrite IH, <- app_assoc.
Qed.

Lemma listing_loop_runs {A : Type} (call : A -> list_call)
    (step : A -> list Sound -> reslist -> exn + reslist)
    (xs : list A) (res res' : reslist) (w : World St) :
  steps step xs (fst (list_each (map call xs) w)) res = inr res' ->
  listing_loop call step xs res w
  = (inr res', snd (list_each (map call xs) w)).
Proof.
  unfold listing_loop.
  revert res w; induction xs as [|x r IH]; intros res w.
  - simpl. now intros [= ->].
  - cbn [map list_each for_each]. unfold bind at 1 2, list_samples, lift.
    destruct (dj_list (call x) (dj_state w)) as [ss s].
    set (w1 := {| dj_state := s; trace := trace w ++ [EvList (call x)] |}).
    specialize (IH) with (w := w1).
    destruct (list_each (map call r) w1) as [rest w2]. cbn [fst snd steps] in *.
    destruct (step x ss res) as [e|res1]; [discriminate|].
    intros Hsteps. now apply IH.
Qed.

Lemma listing_loop_returned {A : Type} (call : A -> list_call)
    (step : A -> list Sound -> reslist -> exn + reslist)
    (xs : list A) (res res' : reslist) (w w' : World St) :
  listing_loop call step xs res w = (inr res', w') ->
  steps step xs (fst (list_each (map call xs) w)) res = inr res'.
Proof.
  unfold listing_loop.
  revert res w; induction xs as [|x r IH]; intros res w.
  - simpl. unfold ret. now intros [= -> _].
  - cbn [map list_each for_each]. unfold bind at 1 2, list_samples, lift.
    destruct (dj_list (call x) (dj_state w)) as [ss s].
    set (w1 := {| dj_state := s; trace := trace w ++ [EvList (call x)] |}).
    specialize (IH) with (w := w1).
    destruct (list_each (map call r) w1) as [rest w2]. cbn [fst snd steps] in *.
    destruct (step x ss res) as [e|res1]; [discriminate|].
    apply IH.
Qed.

Lemma listing_loop_returned_world {A : Type} (call : A -> list_call)
    (step : A -> list Sound -> reslist -> exn + reslist)
    (xs : list A) (res res' : reslist) (w w' : World St) :
  listing_loop call step xs res w = (inr res', w') ->
  w' = snd (list_each (map call xs) w).
Proof.
  unfold listing_loop.
  revert res w; induction xs as [|x r IH]; intros res w.
  - simpl. unfold ret. now intros [= _ ->].
  - cbn [map list_each for_each]. unfold bind at 1 2, list_samples, lift.
    destruct (dj_list (call x) (dj_state w)) as [ss s].
    set (w1 := {| dj_state := s; trace := trace w ++ [EvList (call x)] |}).
    specialize (IH) with (w := w1).
    destruct (list_each (map call r) w1) as [rest w2]. cbn [fst snd] in *.
    destruct (step x ss res) as [e|res1]; [discriminate|].
    apply IH.
Qed.


Lemma steps_groups {A : Type} (strudel complete : bool) (key : A -> string)
    (sel : list Sound -> list Sound) (xs : list A)
    (sampless : list (list Sound)) (res : reslist) :
  steps (fun x ss r => add_samples strudel complete (key x) (sel ss) r)
        xs sampless res
  = add_groups strudel complete
      (combine (map key xs) (map sel sampless)) res.
Proof.
  revert sampless res; induction xs as [|x r IH]; intros [|ss rest] res;
    try reflexivity.
  cbn [steps combine map add_groups fst snd].
  destruct (add_samples _ _ _ _ _); [reflexivity | apply IH].
Qed.

Lemma steps_ext {A : Type}
    (f g : A -> list Sound -> reslist -> exn + reslist)
    (xs : list A) (sampless : list (list Sound)) (res : reslist) :
  (forall x ss r, f x ss r = g x ss r) ->
  steps f xs sampless res = steps g xs sampless res.
Proof.
  intros Hfg. revert sampless res.
  induction xs as [|x r IH]; intros [|ss rest] res; try reflexivity.
  cbn [steps]. rewrite Hfg. destruct (g x ss res); [reflexivity | apply IH].
Qed.

(** The steps of [speech_json], when none raises, add the samples kept for
    the pitch under the sample keys. *)
Lemma speech_steps_groups (req : Request) (words : definition_map)
    (sampless : list (list Sound)) (res res' : reslist) :
  let pitch := args_get_float "pitch" (args req) in
  steps (speech_json_step req) words sampless res = inr res' ->
  add_groups (args_get_bool "strudel" (args req)) false
    (combine (map (fun wn => sample_key (fst wn) pitch) words)
             (map (filter (keeps pitch)) sampless))
    res
  = inr res'.
Proof.
  intros pitch.
  destruct (PyFloat.is_finite pitch) eqn:Hfin.
  - rewrite (steps_ext (speech_json_step req)
               (fun (wn : string * option Z) ss r =>
                  add_samples (args_get_bool "strudel" (args req)) false
                    (sample_key (fst wn) pitch) (filter (keeps pitch) ss) r)).
    + now rewrite (steps_groups _ _
                     (fun wn : string * option Z => sample_key (fst wn) pitch)
                     (filter (keeps pitch))).
    + intros x ss r. unfold speech_json_step. fold pitch.
      now rewrite (select_pitch_finite _ _ _ Hfin).
  - destruct words as [|wn words]; [now destruct sampless|].
    destruct sampless as [|ss sampless]; [exact (fun H => H)|].
    cbn [steps]. unfold speech_json_step. fold pitch.
    destruct (select_pitch_not_finite (fst wn) pitch ss Hfin) as [e ->].
    discriminate.
Qed.

Lemma speech_steps_finite (req : Request) (words : definition_map)
    (sampless : list (list Sound)) (res : reslist) :
  let pitch := args_get_float "pitch" (args req) in
  PyFloat.is_finite pitch = true ->
  steps (speech_json_step req) words sampless res
  = add_groups (args_get_bool "strudel" (args req)) false
      (combine (map (fun wn => sample_key (fst wn) pitch) words)
               (map (filter (keeps pitch)) sampless))
      res.
Proof.
  intros pitch Hfin.
  rewrite (steps_ext (speech_json_step req)
             (fun (wn : string * option Z) ss r =>
                add_samples (args_get_bool "strudel" (args req)) false
                  (sample_key (fst wn) pitch) (filter (keeps pitch) ss) r)).
  - now rewrite (steps_groups _ _
                   (fun wn : string * option Z => sample_key (fst wn) pitch)
                   (filter (keeps pitch))).
  - intros x ss r. unfold speech_json_step. fold pitch.
    now rewrite (select_pitch_finite _ _ _ Hfin).
Qed.

Lemma respond_inr (r : (exn + reslist) * World St) (resp : response)
    (w' : World St) :
  respond r = (inr resp, w') ->
  exists res, r = (inr res, w') /\ resp = Jsonify (reslist_json res).
Proof.
  destruct r as [[e|res] w1]; simpl; [discriminate|].
  intros [= <- <-]. eauto.
Qed.

Lemma respond_inl (r : (exn + reslist) * World St) (e : exn) :
  fst (respond r) = inl e -> fst r = inl e.
Proof.
  destruct r as [[e1|res] w]; simpl; intros H; [|discriminate H].
  now injection H as ->.
Qed.

(** *** The two listing routes *)

Lemma pack_json_fails (req : Request) (d ex : string) (w : World St) :
  parse_definition d = inl ex ->
  pack_json req d w = (inl (BadRequest ex), log [EvParse d] w).
Proof.
  intros H. unfold pack_json, bind at 1. now rewrite (pack_fails _ _ _ _ H).
Qed.

(** When the base URL cannot be built, [pack_json] raises what building it
    raises, after [pack] has run and before the second parse. *)
Lemma pack_json_no_base (req : Request) (d : string) (words : definition_map)
    (e : exn) (w : World St) :
  parse_definition d = inr words ->
  base_url req = inl e ->
  pack_json req d w = (inl e, after_tasks d (pack_tasks req words) w).
Proof.
  intros H Hb. unfold pack_json. unfold bind at 1.
  rewrite (pack_runs _ _ _ _ H). unfold bind at 1, lift. now rewrite Hb.
Qed.

Lemma pack_json_unfold (req : Request) (d : string) (words : definition_map)
    (base : string) (w : World St) :
  parse_definition d = inr words ->
  base_url req = inr base ->
  pack_json req d w
  = respond (listing_loop (pack_json_call req) (pack_json_step req) words
               (empty_listing (args_get_bool "strudel" (args req)) base)
               (pack_json_start req d words w)).
Proof.
  intros H Hb. unfold pack_json. unfold bind at 1.
  rewrite (pack_runs _ _ _ _ H). unfold bind at 1, lift. rewrite Hb.
  unfold bind at 1. rewrite parse_run, H.
  unfold bind at 1, listing_loop, respond, empty_listing, pack_json_start.
  erewrite for_each_ext; [reflexivity|].
  intros res [word number] w1. reflexivity.
Qed.

Lemma speech_json_fails (req : Request) (d ex : string) (w : World St) :
  parse_definition (PyStr.replace " " "_" d) = inl ex ->
  speech_json req d w
  = (inl (BadRequest ex), log [EvParse (PyStr.replace " " "_" d)] w).
Proof.
  intros H. unfold speech_json, bind at 1.
  pose proof (speech_fails req (PyStr.replace " " "_" d) ex w) as Hf.
  rewrite replace_idem in Hf by discriminate. now rewrite (Hf H).
Qed.

Lemma speech_json_no_base (req : Request) (d : string)
    (words : definition_map) (e : exn) (w : World St) :
  let d' := PyStr.replace " " "_" d in
  parse_definition d' = inr words ->
  base_url req = inl e ->
  speech_json req d w = (inl e, after_tasks d' (speech_tasks req words) w).
Proof.
  intros d' H Hb. unfold speech_json. fold d'. unfold bind at 1.
  assert (Hi : PyStr.replace " " "_" d' = d')
    by (apply replace_idem; discriminate).
  pose proof (speech_runs req d' words w) as Hs. cbv zeta in Hs.
  rewrite Hi in Hs. rewrite (Hs H). unfold bind at 1, lift. now rewrite Hb.
Qed.

Lemma speech_json_unfold (req : Request) (d : string)
    (words : definition_map) (base : string) (w : World St) :
  let d' := PyStr.replace " " "_" d in
  parse_definition d' = inr words ->
  base_url req = inr base ->
  speech_json req d w
  = respond (listing_loop (speech_json_call req) (speech_json_step req) words
               (empty_listing (args_get_bool "strudel" (args req)) base)
               (speech_json_start req d' words w)).
Proof.
  intros d' H Hb. unfold speech_json. fold d'. unfold bind at 1.
  assert (Hi : PyStr.replace " " "_" d' = d')
    by (apply replace_idem; discriminate).
  pose proof (speech_runs req d' words w) as Hs. cbv zeta in Hs.
  rewrite Hi in Hs. rewrite (Hs H). unfold bind at 1, lift. rewrite Hb.
  unfold bind at 1. rewrite parse_run, H.
  unfold bind at 1, listing_loop, respond, empty_listing, speech_json_start.
  erewrite for_each_ext; [reflexivity|].
  intros res [word number] w1. unfold bind, list_samples, lift.
  cbn [fst]. unfold speech_json_call, speech_json_step. cbn [fst].
  destruct (dj_list _ _) as [ss s].
  destruct (select_pitch _ _ _) as [e|[ss' key]]; reflexivity.
Qed.

Lemma map_fst_combine {A B : Type} (xs : list A) (ys : list B) :
  length xs = length ys -> map fst (combine xs ys) = xs.
Proof.
  revert ys; induction xs as [|x r IH]; intros [|y ys] H; simpl in *;
    try reflexivity; try discriminate.
  f_equal. apply IH. now injection H.
Qed.

Lemma pack_json_returns (req : Request) (d : string)
    (words : definition_map) (base : string) (w : World St) (res : reslist) :
  parse_definition d = inr words ->
  base_url req = inr base ->
  add_groups (args_get_bool "strudel" (args req))
             (args_get_bool "complete" (args req))
             (pack_json_groups req d words w)
             (empty_listing (args_get_bool "strudel" (args req)) base)
  = inr res ->
  pack_json req d w
  = (inr (Jsonify (reslist_json res)), pack_json_end req d words w).
Proof.
  intros Hparse Hb Hadd. rewrite (pack_json_unfold _ _ _ _ _ Hparse Hb).
  erewrite listing_loop_runs; [reflexivity|].
  unfold pack_json_step.
  rewrite (steps_groups _ _ fst (fun ss => ss)), map_id. exact Hadd.
Qed.

(** A listing [pack_json] returns is what adding the groups to the empty
    listing gives. *)
Lemma pack_json_returned (req : Request) (d : string) (w w' : World St)
    (resp : response) :
  pack_json req d w = (inr resp, w') ->
  exists words base res,
    parse_definition d = inr words
    /\ base_url req = inr base
    /\ add_groups (args_get_bool "strudel" (args req))
                  (args_get_bool "complete" (args req))
                  (pack_json_groups req d words w)
                  (empty_listing (args_get_bool "strudel" (args req)) base)
       = inr res
    /\ resp = Jsonify (reslist_json res)
    /\ w' = pack_json_end req d words w.
Proof.
  intros Hrun. destruct (parse_definition d) as [ex|words] eqn:H.
  { rewrite (pack_json_fails _ _ _ _ H) in Hrun. discriminate. }
  destruct (base_url req) as [e|base] eqn:Hb.
  { rewrite (pack_json_no_base _ _ _ _ _ H Hb) in Hrun. discriminate. }
  rewrite (pack_json_unfold _ _ _ _ _ H Hb) in Hrun.
  apply respond_inr in Hrun. destruct Hrun as [res [Hloop ->]].
  exists words, base, res. repeat split.
  - apply listing_loop_returned in Hloop. unfold pack_json_step in Hloop.
    rewrite (steps_groups _ _ fst (fun ss => ss)), map_id in Hloop.
    exact Hloop.
  - now apply listing_loop_returned_world in Hloop.
Qed.

Lemma speech_json_returns (req : Request) (d : string)
    (words : definition_map) (base : string) (w : World St) (res : reslist) :
  let d' := PyStr.replace " " "_" d in
  parse_definition d' = inr words ->
  base_url req = inr base ->
  PyFloat.is_finite (args_get_float "pitch" (args req)) = true ->
  add_groups (args_get_bool "strudel" (args req)) false
             (speech_json_groups req d' words w)
             (empty_listing (args_get_bool "strudel" (args req)) base)
  = inr res ->
  speech_json req d w
  = (inr (Jsonify (reslist_json res)), speech_json_end req d' words w).
Proof.
  intros d' Hparse Hb Hfin Hadd.
  pose proof (speech_json_unfold req d words base w) as Hu. cbv zeta in Hu.
  fold d' in Hu. rewrite (Hu Hparse Hb).
  erewrite listing_loop_runs; [reflexivity|].
  rewrite (speech_steps_finite _ _ _ _ Hfin). exact Hadd.
Qed.

(** A listing [speech_json] returns is what adding the groups to the empty
    listing gives. *)
Lemma speech_json_returned (req : Request) (d : string) (w w' : World St)
    (resp : response) :
  let d' := PyStr.replace " " "_" d in
  speech_json req d w = (inr resp, w') ->
  exists words base res,
    parse_definition d' = inr words
    /\ base_url req = inr base
    /\ add_groups (args_get_bool "strudel" (args req)) false
                  (speech_json_groups req d' words w)
                  (empty_listing (args_get_bool "strudel" (args req)) base)
       = inr res
    /\ resp = Jsonify (reslist_json res)
    /\ w' = speech_json_end req d' words w.
Proof.
  intros d' Hrun. destruct (parse_definition d') as [ex|words] eqn:H.
  { unfold d' in H. rewrite (speech_json_fails _ _ _ _ H) in Hrun.
    discriminate. }
  destruct (base_url req) as [e|base] eqn:Hb.
  { pose proof (speech_json_no_base req d words e w) as Hn. cbv zeta in Hn.
    rewrite (Hn H Hb) in Hrun. discriminate. }
  pose proof (speech_json_unfold req d words base w) as Hu. cbv zeta in Hu.
  fold d' in Hu. rewrite (Hu H Hb) in Hrun.
  apply respond_inr in Hrun. destruct Hrun as [res [Hloop ->]].
  exists words, base, res. repeat split.
  - apply listing_loop_returned in Hloop.
    exact (speech_steps_groups _ _ _ _ _ Hloop).
  - now apply listing_loop_returned_world in Hloop.
Qed.

Lemma pack_json_listed_length (req : Request) (d : string)
    (words : definition_map) (w : World St) :
  length (pack_json_listed req d words w) = length words.
Proof.
  unfold pack_json_listed. now rewrite list_each_length, length_map.
Qed.

Lemma speech_json_listed_length (req : Request) (d : string)
    (words : definition_map) (w : World St) :
  length (speech_json_listed req d words w) = length words.
Proof.
  unfold speech_json_listed. now rewrite list_each_length, length_map.
Qed.

Lemma pack_json_groups_keys (req : Request) (d : string)
    (words : definition_map) (w : World St) :
  map fst (pack_json_groups req d words w) = map fst words.
Proof.
  unfold pack_json_groups. apply map_fst_combine.
  now rewrite length_map, pack_json_listed_length.
Qed.

Lemma speech_json_groups_keys (req : Request) (d : string)
    (words : definition_map) (w : World St) :
  map fst (speech_json_groups req d words w)
  = map (fun wn => sample_key (fst wn) (args_get_float "pitch" (args req)))
        words.
Proof.
  unfold speech_json_groups. apply map_fst_combine.
  now rewrite !length_map, speech_json_listed_length.
Qed.

Lemma sample_key_inj (pitch : spec_float) (a b : string) :
  sample_key a pitch = sample_key b pitch -> a = b.
Proof.
  unfold sample_key. destruct (PyFloat.ne_zero pitch); [|auto].
  apply append_inj_l.
Qed.

Lemma NoDup_map_inj {A B : Type} (f : A -> B) (l : list A) :
  (forall a b, f a = f b -> a = b) -> NoDup l -> NoDup (map f l).
Proof.
  intros Hinj. induction 1 as [|x l Hx Hnd IH]; simpl; constructor; auto.
  rewrite in_map_iff. intros [y [Hy Hin]]. apply Hinj in Hy. now subst.
Qed.

Lemma speech_json_groups_nodup (req : Request) (d : string)
    (words : definition_map) (w : World St) :
  NoDup (map fst words) ->
  NoDup (map fst (speech_json_groups req d words w)).
Proof.
  intros Hnd. rewrite speech_json_groups_keys.
  rewrite <- (map_map fst (fun word => sample_key word _)).
  apply NoDup_map_inj; [apply sample_key_inj | exact Hnd].
Qed.

Lemma pack_json_flat (req : Request) (d : string) (words : definition_map)
    (base : string) (w : World St) :
  parse_definition d = inr words ->
  base_url req = inr base ->
  args_get_bool "strudel" (args req) = false ->
  pack_json req d w
  = (inr (Jsonify (JArr (flat_listing (args_get_bool "complete" (args req))
                                      (pack_json_groups req d words w)))),
     pack_json_end req d words w).
Proof.
  intros Hparse Hb Hs.
  apply (pack_json_returns req d words base w (ResList _) Hparse Hb).
  rewrite Hs. apply add_groups_flat.
Qed.

Lemma pack_json_flat_returned (req : Request) (d : string) (w w' : World St)
    (resp : response) :
  args_get_bool "strudel" (args req) = false ->
  pack_json req d w = (inr resp, w') ->
  exists words base,
    parse_definition d = inr words
    /\ base_url req = inr base
    /\ resp = Jsonify (JArr (flat_listing
                               (args_get_bool "complete" (args req))
                               (pack_json_groups req d words w))).
Proof.
  intros Hs Hrun.
  destruct (pack_json_returned _ _ _ _ _ Hrun)
    as [words [base [res [Hparse [Hb [Hadd [-> _]]]]]]].
  exists words, base. repeat split; auto.
  rewrite Hs in Hadd. cbn [empty_listing] in Hadd.
  rewrite add_groups_flat in Hadd. now injection Hadd as <-.
Qed.

Lemma speech_json_flat (req : Request) (d : string) (words : definition_map)
    (base : string) (w : World St) :
  let d' := PyStr.replace " " "_" d in
  parse_definition d' = inr words ->
  base_url req = inr base ->
  PyFloat.is_finite (args_get_float "pitch" (args req)) = true ->
  args_get_bool "strudel" (args req) = false ->
  speech_json req d w
  = (inr (Jsonify (JArr (flat_listing false
                                      (speech_json_groups req d' words w)))),
     speech_json_end req d' words w).
Proof.
  intros d' Hparse Hb Hfin Hs.
  apply (speech_json_returns req d words base w (ResList _) Hparse Hb Hfin).
  rewrite Hs. apply add_groups_flat.
Qed.

Lemma speech_json_flat_returned (req : Request) (d : string)
    (w w' : World St) (resp : response) :
  let d' := PyStr.replace " " "_" d in
  args_get_bool "strudel" (args req) = false ->
  speech_json req d w = (inr resp, w') ->
  exists words base,
    parse_definition d' = inr words
    /\ base_url req = inr base
    /\ resp = Jsonify (JArr (flat_listing false
                               (speech_json_groups req d' words w))).
Proof.
  intros d' Hs Hrun.
  destruct (speech_json_returned _ _ _ _ _ Hrun)
    as [words [base [res [Hparse [Hb [Hadd [-> _]]]]]]].
  exists words, base. repeat split; auto.
  fold d' in Hadd. rewrite Hs in Hadd. cbn [empty_listing] in Hadd.
  rewrite add_groups_flat in Hadd. now injection Hadd as <-.
Qed.

Lemma base_fresh (base key : string) :
  key <> "_base" -> Dict.mem key [("_base", JStr base)] = false.
Proof.
  intros Hne. unfold Dict.mem. cbn [existsb fst]. rewrite orb_false_r.
  apply String.eqb_neq. congruence.
Qed.

Lemma add_groups_from_base (complete : bool) (base : string)
    (groups : list (string * list Sound)) :
  NoDup (map fst groups) -> no_base_clash groups ->
  add_groups true complete groups (ResDict [("_base", JStr base)])
  = inr (ResDict (strudel_listing base groups)).
Proof.
  intros Hnd Hclash. rewrite add_groups_strudel; [reflexivity|exact Hnd|].
  intros g Hg Hne. apply base_fresh. now apply Hclash.
Qed.

(** The strudel listing is assembled only when no group with samples is
    keyed [_base]. *)
Lemma add_groups_no_clash (complete : bool) (base : string)
    (groups : list (string * list Sound)) (res : reslist) :
  add_groups true complete groups (ResDict [("_base", JStr base)]) = inr res ->
  no_base_clash groups.
Proof.
  intros Hadd g Hin Hne Hk.
  destruct (add_groups_clash complete base groups
              (ResDict [("_base", JStr base)])) as [e He].
  - eexists. split; reflexivity.
  - intros Hnc. exact (Hnc g Hin Hne Hk).
  - congruence.
Qed.

Lemma pack_json_strudel (req : Request) (d : string) (words : definition_map)
    (base : string) (w : World St) :
  parse_definition d = inr words ->
  base_url req = inr base ->
  args_get_bool "strudel" (args req) = true ->
  NoDup (map fst words) ->
  no_base_clash (pack_json_groups req d words w) ->
  pack_json req d w
  = (inr (Jsonify (JObj (strudel_listing base
                                         (pack_json_groups req d words w)))),
     pack_json_end req d words w).
Proof.
  intros Hparse Hb Hs Hnd Hclash.
  apply (pack_json_returns req d words base w (ResDict _) Hparse Hb).
  rewrite Hs. apply add_groups_from_base; [|exact Hclash].
  now rewrite pack_json_groups_keys.
Qed.

Lemma pack_json_strudel_returned (req : Request) (d : string)
    (w w' : World St) (resp : response) :
  args_get_bool "strudel" (args req) = true ->
  pack_json req d w = (inr resp, w') ->
  exists words base,
    parse_definition d = inr words
    /\ base_url req = inr base
    /\ no_base_clash (pack_json_groups req d words w)
    /\ (NoDup (map fst words) ->
        resp = Jsonify (JObj (strudel_listing
                                base (pack_json_groups req d words w)))).
Proof.
  intros Hs Hrun.
  destruct (pack_json_returned _ _ _ _ _ Hrun)
    as [words [base [res [Hparse [Hb [Hadd [-> _]]]]]]].
  exists words, base. rewrite Hs in Hadd. cbn [empty_listing] in Hadd.
  pose proof (add_groups_no_clash _ _ _ _ Hadd) as Hclash.
  repeat split; auto. intros Hnd.
  rewrite add_groups_from_base in Hadd; [now injection Hadd as <-| |exact Hclash].
  now rewrite pack_json_groups_keys.
Qed.

Lemma speech_json_strudel (req : Request) (d : string)
    (words : definition_map) (base : string) (w : World St) :
  let d' := PyStr.replace " " "_" d in
  parse_definition d' = inr words ->
  base_url req = inr base ->
  PyFloat.is_finite (args_get_float "pitch" (args req)) = true ->
  args_get_bool "strudel" (args req) = true ->
  NoDup (map fst words) ->
  no_base_clash (speech_json_groups req d' words w) ->
  speech_json req d w
  = (inr (Jsonify (JObj (strudel_listing base
                                         (speech_json_groups req d' words w)))),
     speech_json_end req d' words w).
Proof.
  intros d' Hparse Hb Hfin Hs Hnd Hclash.
  apply (speech_json_returns req d words base w (ResDict _) Hparse Hb Hfin).
  rewrite Hs. apply add_groups_from_base; [|exact Hclash].
  now apply speech_json_groups_nodup.
Qed.

Lemma speech_json_strudel_returned (req : Request) (d : string)
    (w w' : World St) (resp : response) :
  let d' := PyStr.replace " " "_" d in
  args_get_bool "strudel" (args req) = true ->
  speech_json req d w = (inr resp, w') ->
  exists words base,
    parse_definition d' = inr words
    /\ base_url req = inr base
    /\ no_base_clash (speech_json_groups req d' words w)
    /\ (NoDup (map fst words) ->
        resp = Jsonify (JObj (strudel_listing
                                base (speech_json_groups req d' words w)))).
Proof.
  intros d' Hs Hrun.
  destruct (speech_json_returned _ _ _ _ _ Hrun)
    as [words [base [res [Hparse [Hb [Hadd [-> _]]]]]]].
  exists words, base. fold d' in Hadd. rewrite Hs in Hadd.
  cbn [empty_listing] in Hadd.
  pose proof (add_groups_no_clash _ _ _ _ Hadd) as Hclash.
  repeat split; auto. intros Hnd.
  rewrite add_groups_from_base in Hadd; [now injection Hadd as <-| |exact Hclash].
  now apply speech_json_groups_nodup.
Qed.

(** *** What the parser is handed *)

Lemma for_each_keeps {A B X : Type} (proj : list event -> X) (xs : list A)
    (body : B -> A -> M St B) (acc : B) (w : World St) :
  (forall b x w', proj (trace (snd (body b x w'))) = proj (trace w')) ->
  proj (trace (snd (for_each xs body acc w))) = proj (trace w).
Proof.
  intros Hbody. revert acc w; induction xs as [|x r IH]; intros acc w.
  - reflexivity.
  - cbn [for_each]. unfold bind. specialize (Hbody acc x w).
    destruct (body acc x w) as [[e|b] w1]; cbn [snd] in *.
    + exact Hbody.
    + now rewrite IH.
Qed.

Lemma list_samples_parsed (call : list_call) (w : World St) :
  parsed (trace (snd (list_samples call w))) = parsed (trace w).
Proof.
  unfold list_samples. destruct (dj_list call (dj_state w)) as [ss s].
  cbn [snd trace]. rewrite parsed_app. simpl. apply app_nil_r.
Qed.

Lemma listing_loop_parsed {A : Type} (call : A -> list_call)
    (step : A -> list Sound -> reslist -> exn + reslist)
    (xs : list A) (res : reslist) (w : World St) :
  parsed (trace (snd (listing_loop call step xs res w))) = parsed (trace w).
Proof.
  unfold listing_loop. apply (for_each_keeps parsed). intros b x w'.
  unfold bind, lift. pose proof (list_samples_parsed (call x) w') as H.
  destruct (list_samples (call x) w') as [[e|ss] w1]; exact H.
Qed.

Lemma zip_entries_runs (strip : string)
    (call : string -> option Z -> list_call) (words : definition_map)
    (w : World St) :
  exists archive w',
    zip_entries strip call words w = (inr archive, w')
    /\ parsed (trace w') = parsed (trace w).
Proof.
  unfold zip_entries. generalize (@nil (string * string)) as acc.
  revert w; induction words as [|[word number] r IH]; intros w acc.
  - exists acc, w. now split.
  - cbn [for_each]. unfold bind at 1 2, list_samples, ret.
    destruct (dj_list (call word number) (dj_state w)) as [ss s].
    destruct (IH {| dj_state := s;
                    trace := trace w ++ [EvList (call word number)] |}
                 (acc ++ map (fun sample =>
                                (file sample,
                                 PyStr.drop (String.length strip)
                                            (file sample))) ss)%list)
      as [archive [w' [Hrun Hp]]].
    exists archive, w'. split; [exact Hrun|].
    rewrite Hp. cbn [trace]. rewrite parsed_app. simpl. apply app_nil_r.
Qed.

Lemma pack_zip_fails (req : Request) (d ex : string) (w : World St) :
  parse_definition d = inl ex ->
  pack_zip req d w = (inl (BadRequest ex), log [EvParse d] w).
Proof. intros H. unfold pack_zip, bind. now rewrite parse_run, H. Qed.

Lemma speech_zip_fails (req : Request) (d ex : string) (w : World St) :
  parse_definition (PyStr.replace " " "_" d) = inl ex ->
  speech_zip req d w
  = (inl (BadRequest ex), log [EvParse (PyStr.replace " " "_" d)] w).
Proof. intros H. unfold speech_zip, bind. now rewrite parse_run, H. Qed.

Lemma parsed_log (d : string) (w : World St) :
  parsed (trace (log [EvParse d] w)) = (parsed (trace w) ++ [d])%list.
Proof. unfold log. cbn [trace]. now rewrite parsed_app. Qed.

Lemma parsed_after_tasks (d : string) (tasks : list coroutine)
    (w : World St) :
  parsed (trace (after_tasks d tasks w)) = (parsed (trace w) ++ [d])%list.
Proof.
  unfold after_tasks. cbn [trace]. rewrite parsed_app. simpl.
  now rewrite parsed_map_dispatch.
Qed.

Lemma pack_parsed (req : Request) (d : string) (w : World St) :
  parsed (trace (snd (pack req d w))) = (parsed (trace w) ++ [d])%list.
Proof.
  destruct (parse_definition d) as [ex|words] eqn:H.
  - rewrite (pack_fails _ _ _ _ H). apply parsed_log.
  - rewrite (pack_runs _ _ _ _ H). apply parsed_after_tasks.
Qed.

Lemma speech_parsed (req : Request) (d : string) (w : World St) :
  parsed (trace (snd (speech req d w)))
  = (parsed (trace w) ++ [PyStr.replace " " "_" d])%list.
Proof.
  destruct (parse_definition (PyStr.replace " " "_" d)) as [ex|words] eqn:H.
  - rewrite (speech_fails _ _ _ _ H). apply parsed_log.
  - pose proof (speech_runs req d words w) as Hr. cbv zeta in Hr.
    rewrite (Hr H). apply parsed_after_tasks.
Qed.

Lemma zip_parsed (strip : string) (call : string -> option Z -> list_call)
    (name : definition_map -> string) (d : string) (w : World St) :
  parsed (trace (snd (bind (parse d)
                        (fun words =>
                           bind (zip_entries strip call words)
                                (fun zipfile =>
                                   ret (SendFile (name words) zipfile)))
                        w)))
  = (parsed (trace w) ++ [d])%list.
Proof.
  unfold bind at 1. rewrite parse_run.
  destruct (parse_definition d) as [ex|words]; cbn [snd].
  - apply parsed_log.
  - unfold bind.
    destruct (zip_entries_runs strip call words (log [EvParse d] w))
      as [archive [w' [Hrun Hp]]].
    rewrite Hrun. cbn [snd ret]. rewrite Hp. apply parsed_log.
Qed.

Lemma respond_parsed (r : (exn + reslist) * World St) :
  parsed (trace (snd (respond r))) = parsed (trace (snd r)).
Proof. now destruct r as [[e|res] w]. Qed.

(** [pack_json] parses a second time when the first parse succeeds and the
    base URL has been built. *)
Lemma pack_json_parsed (req : Request) (d : string) (w : World St) :
  parsed (trace (snd (pack_json req d w)))
  = (parsed (trace w)
     ++ d :: match parse_definition d, base_url req with
             | inr _, inr _ => [d]
             | _, _ => []
             end)%list.
Proof.
  destruct (parse_definition d) as [ex|words] eqn:H.
  - rewrite (pack_json_fails _ _ _ _ H). apply parsed_log.
  - destruct (base_url req) as [e|base] eqn:Hb.
    + rewrite (pack_json_no_base _ _ _ _ _ H Hb). apply parsed_after_tasks.
    + rewrite (pack_json_unfold _ _ _ _ _ H Hb), respond_parsed,
        listing_loop_parsed.
      unfold pack_json_start. rewrite parsed_log, parsed_after_tasks.
      now rewrite <- app_assoc.
Qed.

Lemma speech_json_parsed (req : Request) (d : string) (w : World St) :
  let d' := PyStr.replace " " "_" d in
  parsed (trace (snd (speech_json req d w)))
  = (parsed (trace w)
     ++ d' :: match parse_definition d', base_url req with
              | inr _, inr _ => [d']
              | _, _ => []
              end)%list.
Proof.
  intros d'. destruct (parse_definition d') as [ex|words] eqn:H.
  - unfold d' in H. rewrite (speech_json_fails _ _ _ _ H). apply parsed_log.
  - destruct (base_url req) as [e|base] eqn:Hb.
    + pose proof (speech_json_no_base req d words e w) as Hn.
      cbv zeta in Hn. rewrite (Hn H Hb). apply parsed_after_tasks.
    + pose proof (speech_json_unfold req d words base w) as Hu.
      cbv zeta in Hu. fold d' in Hu.
      rewrite (Hu H Hb), respond_parsed, listing_loop_parsed.
      unfold speech_json_start. rewrite parsed_log, parsed_after_tasks.
      now rewrite <- app_assoc.
Qed.

(** *** The base URL in the listing *)

Lemma holds_base_start (base : string) :
  holds_base base (ResDict [("_base", JStr base)]).
Proof. exists [("_base", JStr base)]. split; reflexivity. Qed.

Lemma add_groups_holds_base (complete : bool) (base : string)
    (groups : list (string * list Sound)) (res res' : reslist) :
  holds_base base res ->
  add_groups true complete groups res = inr res' ->
  holds_base base res'.
Proof.
  revert res; induction groups as [|[key ss] r IH];
    intros res [dct [-> Hget]].
  - simpl. intros [= <-]. now exists dct.
  - cbn [add_groups fst snd].
    destruct (add_samples true complete key ss (ResDict dct))
      as [e|res1] eqn:Hadd; [discriminate|].
    apply IH. exact (add_samples_keeps _ _ _ _ _ _ _ Hget Hadd).
Qed.

Lemma pack_json_holds_base (req : Request) (d : string) (w w' : World St)
    (resp : response) :
  args_get_bool "strudel" (args req) = true ->
  pack_json req d w = (inr resp, w') ->
  exists base dct,
    base_url req = inr base
    /\ resp = Jsonify (JObj dct)
    /\ Dict.get "_base" dct = Some (JStr base).
Proof.
  intros Hs Hrun.
  destruct (pack_json_returned _ _ _ _ _ Hrun)
    as [words [base [res [Hparse [Hb [Hadd [-> _]]]]]]].
  rewrite Hs in Hadd. cbn [empty_listing] in Hadd.
  destruct (add_groups_holds_base _ base _ _ _ (holds_base_start base) Hadd)
    as [dct [-> Hget]].
  now exists base, dct.
Qed.

Lemma speech_json_holds_base (req : Request) (d : string) (w w' : World St)
    (resp : response) :
  args_get_bool "strudel" (args req) = true ->
  speech_json req d w = (inr resp, w') ->
  exists base dct,
    base_url req = inr base
    /\ resp = Jsonify (JObj dct)
    /\ Dict.get "_base" dct = Some (JStr base).
Proof.
  intros Hs Hrun.
  destruct (speech_json_returned _ _ _ _ _ Hrun)
    as [words [base [res [Hparse [Hb [Hadd [-> _]]]]]]].
  rewrite Hs in Hadd. cbn [empty_listing] in Hadd.
  destruct (add_groups_holds_base _ base _ _ _ (holds_base_start base) Hadd)
    as [dct [-> Hget]].
  now exists base, dct.
Qed.

(** With [strudel], a word [_base] that has samples makes [pack_json]
    raise. *)
Lemma pack_json_raises_on_base_word (req : Request) (d : string)
    (words : definition_map) (w : World St) :
  parse_definition d = inr words ->
  args_get_bool "strudel" (args req) = true ->
  ~ no_base_clash (pack_json_groups req d words w) ->
  exists e, fst (pack_json req d w) = inl e.
Proof.
  intros Hparse Hs Hclash.
  destruct (pack_json req d w) as [[e|resp] w'] eqn:Hrun; [now exists e|].
  exfalso.
  destruct (pack_json_strudel_returned _ _ _ _ _ Hs Hrun)
    as [words' [base [Hparse' [_ [Hnc _]]]]].
  rewrite Hparse in Hparse'. injection Hparse' as <-. now apply Hclash.
Qed.

Lemma speech_json_raises_on_base_clash (req : Request) (d : string)
    (words : definition_map) (w : World St) :
  let d' := PyStr.replace " " "_" d in
  parse_definition d' = inr words ->
  args_get_bool "strudel" (args req) = true ->
  ~ no_base_clash (speech_json_groups req d' words w) ->
  exists e, fst (speech_json req d w) = inl e.
Proof.
  intros d' Hparse Hs Hclash.
  destruct (speech_json req d w) as [[e|resp] w'] eqn:Hrun; [now exists e|].
  exfalso.
  destruct (speech_json_strudel_returned _ _ _ _ _ Hs Hrun)
    as [words' [base [Hparse' [_ [Hnc _]]]]].
  fold d' in Hparse'. rewrite Hparse in Hparse'. injection Hparse' as <-.
  now apply Hclash.
Qed.


End Runs.

(** * The claims *)

Section Claims.

Context {RT : PyRuntime} {St : Type} {DJ : Dj St}.

(** C4. Without [strudel], a listing [pack_json] returns is a list that
    holds, word after word in the order of the definition, one record per
    sample that [dj.list] gave for the word; and [pack_json] returns it
    whenever the definition parses and the base URL can be built from the
    request URL.  The record of the [i]-th sample of a word is
    [{url: file, type: "audio", bank: word, n: i}], so [n] starts at 0 for
    every word and grows by one; [licensename], [original_url] and [author]
    follow exactly when [complete] is set. *)
Theorem pack_json_flat_records (req : Request) (d : string) (w : World St) :
  args_get_bool "strudel" (args req) = false ->
  let complete := args_get_bool "complete" (args req) in
  (forall (resp : response) (w' : World St),
     pack_json req d w = (inr resp, w') ->
     exists words,
       parse_definition d = inr words
       /\ resp
          = Jsonify (JArr (flat_map
                             (fun g => records complete (fst g) 0 (snd g))
                             (combine (map fst words)
                                      (pack_json_listed req d words w)))))
  /\ (forall (words : definition_map) (base : string),
        parse_definition d = inr words ->
        base_url req = inr base ->
        fst (pack_json req d w)
        = inr (Jsonify (JArr (flat_map
                                (fun g => records complete (fst g) 0 (snd g))
                                (combine (map fst words)
                                         (pack_json_listed req d words w))))))
  /\ forall (word : string) (samples : list Sound),
       length (records complete word 0 samples) = length samples
       /\ forall (i : nat) (s : Sound),
            nth_error samples i = Some s ->
            nth_error (records complete word 0 samples) i
            = Some (JObj ([("url", JStr (file s));
                           ("type", JStr "audio");
                           ("bank", JStr word);
                           ("n", JInt (Z.of_nat i))]
                          ++ (if complete
                              then [("licensename", JStr (licensename s));
                                    ("original_url", JStr (url s));
                                    ("author", JStr (username s))]
                              else []))%list).
Proof.
  intros Hs complete. split; [|split].
  - intros resp w' Hrun.
    destruct (pack_json_flat_returned _ _ _ _ _ Hs Hrun)
      as [words [base [Hparse [_ ->]]]].
    now exists words.
  - intros words base Hparse Hb.
    now rewrite (pack_json_flat _ _ _ _ _ Hparse Hb Hs).
  - intros word samples. split; [apply records_length|].
    intros i s Hi. now rewrite (records_nth _ _ _ _ _ _ Hi).
Qed.




(** C2. Every record of a flat listing [speech_json] returns carries the
    sample key of its word as its bank.  The key is the word itself when
    the pitch is zero; otherwise it is the word, [_p] and the pitch as
    [str] prints it: the integer without a sign or decimal forced on it when
    the pitch is whole, the float otherwise.  The suffix looked for in file
    names is [_p], the sign, the whole part, a point and one digit.  The
    listing is returned when the definition parses, the base URL can be
    built and the pitch is finite. *)
Theorem speech_json_sample_key (req : Request) (d : string) (w : World St) :
  let d' := PyStr.replace " " "_" d in
  let pitch := args_get_float "pitch" (args req) in
  args_get_bool "strudel" (args req) = false ->
  (forall (resp : response) (w' : World St),
     speech_json req d w = (inr resp, w') ->
     exists words items,
       parse_definition d' = inr words
       /\ let groups := speech_json_groups req d' words w in
          resp = Jsonify (JArr items)
          /\ map (field "bank") items
             = flat_map (fun g => repeat (Some (JStr (fst g)))
                                         (length (snd g)))
                        groups
          /\ map fst groups
             = map (fun wn => sample_key (fst wn) pitch) words)
  /\ (forall (words : definition_map) (base : string),
        parse_definition d' = inr words ->
        base_url req = inr base ->
        PyFloat.is_finite pitch = true ->
        let groups := speech_json_groups req d' words w in
        exists items,
          fst (speech_json req d w) = inr (Jsonify (JArr items))
          /\ map (field "bank") items
             = flat_map (fun g => repeat (Some (JStr (fst g)))
                                         (length (snd g)))
                        groups
          /\ map fst groups
             = map (fun wn => sample_key (fst wn) pitch) words)
  /\ (PyFloat.is_finite pitch = true ->
      forall word : string,
        sample_key word pitch
        = if PyFloat.ne_zero pitch
          then word ++ "_p"
               ++ (if PyFloat.eq_int pitch (trunc pitch)
                   then PyStr.of_int (trunc pitch)
                   else float_str pitch)
          else word)
  /\ (PyFloat.is_finite pitch = true ->
      exists (sign : string) (whole digit : Z),
        pitch_suffix pitch
        = "_p" ++ sign ++ PyStr.of_int whole ++ "." ++ PyStr.of_int digit
        /\ (sign = "+" \/ sign = "-")
        /\ 0 <= whole /\ 0 <= digit < 10
        /\ String.length (PyStr.of_int digit) = 1%nat)
  /\ sample_key "fox" (S754_finite false 1 0) = "fox_p1"
  /\ pitch_suffix (S754_finite false 1 0) = "_p+1.0"
  /\ (float_str (S754_finite false 3 (-1)) = "1.5" ->
      sample_key "fox" (S754_finite false 3 (-1)) = "fox_p1.5")
  /\ pitch_suffix (S754_finite false 3 (-1)) = "_p+1.5".
Proof.
  intros d' pitch Hs. split; [|split; [|split; [|split]]].
  - intros resp w' Hrun.
    destruct (speech_json_flat_returned _ _ _ _ _ Hs Hrun)
      as [words [base [Hparse [Hb ->]]]].
    exists words. eexists. split; [exact Hparse|]. cbv zeta.
    split; [reflexivity|]. split; [apply flat_listing_banks|].
    apply speech_json_groups_keys.
  - intros words base Hparse Hb Hfin groups. eexists.
    rewrite (speech_json_flat _ _ _ _ _ Hparse Hb Hfin Hs). cbn [fst].
    split; [reflexivity|]. split; [apply flat_listing_banks|].
    apply speech_json_groups_keys.
  - intros Hfin word. unfold sample_key. now rewrite (eq_int_trunc _ Hfin).
  - intros Hfin.
    destruct (format_plus_1f_shape pitch Hfin)
      as [sign [whole [digit [E [Hsign [Hw [Hd Hl]]]]]]].
    exists sign, whole, digit. unfold pitch_suffix. rewrite E. auto.
  - repeat split. unfold sample_key. cbn. intros ->. reflexivity.
Qed.

(** C3. When the definition parses, [pack] and [speech] answer with a
    status that is ["ok"] exactly when one of the gathered results is
    [True] and ["empty"] exactly when none is. *)
Theorem status_ok_iff_a_task_succeeded (req : Request) (d : string)
    (words : definition_map) (w : World St) :
  (parse_definition d = inr words ->
   let results := fst (run_tasks (pack_tasks req words) (dj_state w)) in
   exists status,
     fst (pack req d w)
     = inr (Jsonify (JObj [("status", JStr status);
                           ("definition", JStr (clean_definition words))]))
     /\ (status = "ok" <-> In true results)
     /\ (status = "empty" <-> ~ In true results))
  /\ (parse_definition (PyStr.replace " " "_" d) = inr words ->
      let results := fst (run_tasks (speech_tasks req words) (dj_state w)) in
      exists status,
        fst (speech req d w)
        = inr (Jsonify (JObj [("status", JStr status);
                              ("definition", JStr (clean_definition words))]))
        /\ (status = "ok" <-> In true results)
        /\ (status = "empty" <-> ~ In true results)).
Proof.
  split.
  - intros Hparse results. exists (global_status results).
    rewrite (pack_runs _ _ _ _ Hparse). split; [reflexivity|].
    destruct (global_status_cases results) as [[-> Hin]|[-> Hin]];
      repeat split; auto; try discriminate; tauto.
  - intros Hparse results. exists (global_status results).
    pose proof (speech_runs req d words w) as Hr. cbv zeta in Hr.
    rewrite (Hr Hparse). split; [reflexivity|].
    destruct (global_status_cases results) as [[-> Hin]|[-> Hin]];
      repeat split; auto; try discriminate; tauto.
Qed.

(** C8. When the definition parses, [pack] dispatches one fetch per entry,
    in order; the fetch of an entry whose count is [None] asks for 1
    sample, the fetch of an entry with a count asks for that count. *)
Theorem pack_defaults_count_to_one (req : Request) (d : string)
    (words : definition_map) (w : World St) :
  parse_definition d = inr words ->
  dispatched (trace (snd (pack req d w)))
  = (dispatched (trace w) ++ pack_tasks req words)%list
  /\ (forall (i : nat) (word : string),
        nth_error words i = Some (word, None) ->
        nth_error (pack_tasks req words) i
        = Some (fetch_one word 1 (licenses_arg req)))
  /\ (forall (i : nat) (word : string) (n : Z),
        nth_error words i = Some (word, Some n) ->
        nth_error (pack_tasks req words) i
        = Some (fetch_one word n (licenses_arg req))).
Proof.
  intros Hparse. repeat split.
  - rewrite (pack_runs _ _ _ _ Hparse). unfold after_tasks. cbn [snd trace].
    rewrite dispatched_app. simpl. now rewrite dispatched_map.
  - intros i word Hi. unfold pack_tasks.
    now rewrite nth_error_map, Hi.
  - intros i word n Hi. unfold pack_tasks.
    now rewrite nth_error_map, Hi.
Qed.

(** C9. The three speech routes hand the parser the definition with every
    space replaced by an underscore, and nothing else; the three sample
    routes hand it the definition as received.  ([pack_json] and
    [speech_json] parse a second time when the first parse succeeds and the
    base URL has been built; they hand the parser the same text again.) *)
Theorem speech_routes_replace_spaces (req : Request) (d : string)
    (w : World St) :
  let d' := PyStr.replace " " "_" d in
  let again (definition : string) :=
    match parse_definition definition, base_url req with
    | inr _, inr _ => [definition]
    | _, _ => []
    end in
  parsed (trace (snd (speech req d w))) = (parsed (trace w) ++ [d'])%list
  /\ parsed (trace (snd (speech_json req d w)))
     = (parsed (trace w) ++ d' :: again d')%list
  /\ parsed (trace (snd (speech_zip req d w)))
     = (parsed (trace w) ++ [d'])%list
  /\ parsed (trace (snd (pack req d w))) = (parsed (trace w) ++ [d])%list
  /\ parsed (trace (snd (pack_json req d w)))
     = (parsed (trace w) ++ d :: again d)%list
  /\ parsed (trace (snd (pack_zip req d w)))
     = (parsed (trace w) ++ [d])%list
  /\ String.length d' = String.length d
  /\ (forall n : nat,
        String.get n d'
        = option_map (fun c => if Ascii.eqb c " " then "_"%char else c)
                     (String.get n d)).
Proof.
  intros d' again. repeat split.
  - apply speech_parsed.
  - apply speech_json_parsed.
  - unfold speech_zip. apply zip_parsed.
  - apply pack_parsed.
  - apply pack_json_parsed.
  - unfold pack_zip. apply zip_parsed.
  - apply replace_length.
  - intros n. apply replace_get.
Qed.

(** C10, amended.  The base URL, when one is built, is ["https://"], the
    host name, [":"] and the port when the URL has a port other than 0, the
    script name and ["/"], whatever the scheme of the request; with
    [strudel] it is what a listing [pack_json] or [speech_json] returns
    holds under [_base].  None is built when [urlparse] or reading the port
    raises or when the URL has no host name, which raises [TypeError]: the
    two routes then raise that exception once the definition has parsed. *)
Theorem base_url_is_https (req : Request) :
  (forall base : string,
     base_url req = inr base ->
     exists url hostname port,
       urlparse_base_url req = inr url
       /\ url_hostname url = Some hostname
       /\ url_port url = inr port
       /\ base = "https://" ++ hostname
                 ++ match port with
                    | Some p => if p =? 0 then "" else ":" ++ PyStr.of_int p
                    | None => ""
                    end
                 ++ match environ_script_name req with
                    | Some s => s
                    | None => ""
                    end
                 ++ "/")
  /\ (forall scheme : string, base_url (with_scheme scheme req) = base_url req)
  /\ (forall (d : string) (w w' : World St) (resp : response),
        args_get_bool "strudel" (args req) = true ->
        pack_json req d w = (inr resp, w')
        \/ speech_json req d w = (inr resp, w') ->
        exists base dct,
          base_url req = inr base
          /\ resp = Jsonify (JObj dct)
          /\ Dict.get "_base" dct = Some (JStr base))
  /\ (forall url : Url,
        urlparse_base_url req = inr url -> url_hostname url = None ->
        base_url req = inl (TypeError concat_none_error))
  /\ (forall (e : exn) (d : string) (words : definition_map) (w : World St),
        base_url req = inl e ->
        (parse_definition d = inr words -> fst (pack_json req d w) = inl e)
        /\ (parse_definition (PyStr.replace " " "_" d) = inr words ->
            fst (speech_json req d w) = inl e)).
Proof.
  split; [|split; [|split; [|split]]].
  - apply base_url_text.
  - intros scheme. apply base_url_with_scheme.
  - intros d w w' resp Hs [Hrun|Hrun].
    + exact (pack_json_holds_base _ _ _ _ _ Hs Hrun).
    + exact (speech_json_holds_base _ _ _ _ _ Hs Hrun).
  - apply base_url_no_hostname.
  - intros e d words w Hb. split; intros Hparse.
    + now rewrite (pack_json_no_base _ _ _ _ _ Hparse Hb).
    + pose proof (speech_json_no_base req d words e w) as Hn.
      cbv zeta in Hn. now rewrite (Hn Hparse Hb).
Qed.

End Claims.

(** * Further properties of the routes *)

Section Further.

Context {RT : PyRuntime} {St : Type} {DJ : Dj St}.

(** ** The zip routes *)


Lemma zip_loop_runs (strip : string)
    (call : string -> option Z -> list_call) (words : definition_map)
    (acc : list (string * string)) (w : World St) :
  let calls := map (fun wn => call (fst wn) (snd wn)) words in
  for_each words
    (fun zipfile (wn : string * option Z) =>
       let (word, number) := wn in
       bind (list_samples (call word number))
            (fun samples =>
               ret (zipfile
                    ++ map (fun sample =>
                              (file sample,
                               PyStr.drop (String.length strip)
                                          (file sample)))
                           samples)%list))
    acc w
  = (inr (acc ++ archive_entries strip (fst (list_each calls w)))%list,
     snd (list_each calls w)).
Proof.
  cbv zeta. revert acc w; induction words as [|[word number] r IH];
    intros acc w.
  - simpl. unfold ret. now rewrite app_nil_r.
  - cbn [for_each map list_each fst snd].
    unfold bind at 1 2, list_samples, ret.
    destruct (dj_list (call word number) (dj_state w)) as [ss s].
    rewrite IH.
    destruct (list_each _ _) as [rest w']. cbn [fst snd].
    unfold archive_entries. cbn [flat_map]. now rewrite <- app_assoc.
Qed.

Lemma zip_entries_closed (strip : string)
    (call : string -> option Z -> list_call) (words : definition_map)
    (w : World St) :
  let calls := map (fun wn => call (fst wn) (snd wn)) words in
  zip_entries strip call words w
  = (inr (archive_entries strip (fst (list_each calls w))),
     snd (list_each calls w)).
Proof. exact (zip_loop_runs strip call words [] w). Qed.


Lemma drop_append (dir rest : string) :
  PyStr.drop (String.length dir) (dir ++ rest) = rest.
Proof. induction dir; simpl; auto. Qed.

Lemma drop_suffix (n : nat) (s : string) :
  exists dir, s = dir ++ PyStr.drop n s
              /\ String.length dir = Nat.min n (String.length s).
Proof.
  revert s; induction n as [|n IH]; intros s.
  - exists "". now split.
  - destruct s as [|c s].
    + exists "". now split.
    + destruct (IH s) as [dir [E L]]. exists (String c dir). simpl.
      split; [now rewrite <- E | now rewrite L].
Qed.

Lemma pack_zip_runs (req : Request) (d : string)
    (words : definition_map) (w : World St) :
  parse_definition d = inr words ->
  pack_zip req d w
  = (inr (SendFile (tempdir req ++ "/" ++ clean_definition words ++ ".zip")
                   (archive_entries "samples/"
                      (fst (list_each (map pack_zip_call words)
                                      (log [EvParse d] w))))),
     snd (list_each (map pack_zip_call words) (log [EvParse d] w))).
Proof.
  intros Hparse. unfold pack_zip. unfold bind at 1.
  rewrite parse_run, Hparse. unfold bind at 1.
  rewrite zip_entries_closed. reflexivity.
Qed.

Lemma speech_zip_runs (req : Request) (d : string)
    (words : definition_map) (w : World St) :
  let d' := PyStr.replace " " "_" d in
  parse_definition d' = inr words ->
  speech_zip req d w
  = (inr (SendFile (tempdir req ++ "/" ++ d' ++ ".zip")
                   (archive_entries "speech_samples/"
                      (fst (list_each (map speech_zip_call words)
                                      (log [EvParse d'] w))))),
     snd (list_each (map speech_zip_call words) (log [EvParse d'] w))).
Proof.
  intros d' Hparse. unfold speech_zip. fold d'. unfold bind at 1.
  rewrite parse_run, Hparse. unfold bind at 1.
  rewrite zip_entries_closed. reflexivity.
Qed.



Lemma archive_entries_in (strip f a : string) (sampless : list (list Sound)) :
  In (f, a) (archive_entries strip sampless) ->
  a = PyStr.drop (String.length strip) f.
Proof.
  unfold archive_entries. rewrite in_flat_map.
  intros [ss [_ Hin]]. apply in_map_iff in Hin.
  destruct Hin as [s [[= <- <-] _]]. reflexivity.
Qed.

(** X3. The archive name [pack_zip] passes to [zipfile.write] for a sample
    is its file path without the first 8 characters, the one [speech_zip]
    passes its file path without the first 15: for a path under [samples/]
    (resp. [speech_samples/]) the path relative to that directory is
    passed; any other path loses as many characters all the same, and for a
    path no longer than that the empty name is passed.  (This is the
    argument of [zipfile.write], not the name [ZipFile] stores: that it
    derives from the argument.) *)
Theorem zip_archive_names (req : Request) (d : string) (w w' : World St)
    (tmpfile : string) (archive : list (string * string)) (f a : string) :
  (pack_zip req d w = (inr (SendFile tmpfile archive), w') ->
   In (f, a) archive ->
   (forall rest, f = "samples/" ++ rest -> a = rest)
   /\ (exists dir, f = dir ++ a
                   /\ String.length dir = Nat.min 8 (String.length f)))
  /\ (speech_zip req d w = (inr (SendFile tmpfile archive), w') ->
      In (f, a) archive ->
      (forall rest, f = "speech_samples/" ++ rest -> a = rest)
      /\ (exists dir, f = dir ++ a
                      /\ String.length dir = Nat.min 15 (String.length f))).
Proof.
  split.
  - intros Hrun Hin.
    destruct (parse_definition d) as [ex|words] eqn:Hparse.
    + rewrite (pack_zip_fails _ _ _ _ Hparse) in Hrun. discriminate.
    + rewrite (pack_zip_runs req d words w Hparse) in Hrun.
      injection Hrun as _ <- _. apply archive_entries_in in Hin. subst a.
      split.
      * intros rest ->. exact (drop_append "samples/" rest).
      * exact (drop_suffix 8 f).
  - intros Hrun Hin.
    destruct (parse_definition (PyStr.replace " " "_" d))
      as [ex|words] eqn:Hparse.
    + rewrite (speech_zip_fails _ _ _ _ Hparse) in Hrun. discriminate.
    + rewrite (speech_zip_runs req d words w Hparse) in Hrun.
      injection Hrun as _ <- _. apply archive_entries_in in Hin. subst a.
      split.
      * intros rest ->. exact (drop_append "speech_samples/" rest).
      * exact (drop_suffix 15 f).
Qed.

(** ** What the routes dispatch *)

Lemma dispatched_map_list (calls : list list_call) :
  dispatched (map EvList calls) = [].
Proof. induction calls; simpl; auto. Qed.


Lemma listing_loop_dispatched {A : Type} (call : A -> list_call)
    (step : A -> list Sound -> reslist -> exn + reslist)
    (xs : list A) (res : reslist) (w : World St) :
  dispatched (trace (snd (listing_loop call step xs res w)))
  = dispatched (trace w).
Proof.
  unfold listing_loop. apply (for_each_keeps dispatched). intros b x w'.
  unfold bind, lift, list_samples.
  destruct (dj_list (call x) (dj_state w')) as [ss s]. cbn [snd trace].
  rewrite dispatched_app. simpl. apply app_nil_r.
Qed.

Lemma respond_trace (r : (exn + reslist) * World St) :
  trace (snd (respond r)) = trace (snd r).
Proof. now destruct r as [[e|res] w]. Qed.

Lemma dispatched_log_parse (d : string) (w : World St) :
  dispatched (trace (log [EvParse d] w)) = dispatched (trace w).
Proof.
  unfold log. cbn [trace]. rewrite dispatched_app. simpl. apply app_nil_r.
Qed.

Lemma pack_json_dispatched (req : Request) (d : string) (w : World St) :
  dispatched (trace (snd (pack_json req d w)))
  = dispatched (trace (snd (pack req d w))).
Proof.
  destruct (parse_definition d) as [ex|words] eqn:H.
  - now rewrite (pack_json_fails _ _ _ _ H), (pack_fails _ _ _ _ H).
  - destruct (base_url req) as [e|base] eqn:Hb.
    + now rewrite (pack_json_no_base _ _ _ _ _ H Hb), (pack_runs _ _ _ _ H).
    + rewrite (pack_json_unfold _ _ _ _ _ H Hb), respond_trace,
        listing_loop_dispatched.
      unfold pack_json_start. rewrite dispatched_log_parse.
      now rewrite (pack_runs _ _ _ _ H).
Qed.

Lemma speech_json_dispatched (req : Request) (d : string) (w : World St) :
  dispatched (trace (snd (speech_json req d w)))
  = dispatched (trace (snd (speech req d w))).
Proof.
  destruct (parse_definition (PyStr.replace " " "_" d)) as [ex|words] eqn:H.
  - now rewrite (speech_json_fails _ _ _ _ H), (speech_fails _ _ _ _ H).
  - pose proof (speech_runs req d words w) as Hr. cbv zeta in Hr.
    destruct (base_url req) as [e|base] eqn:Hb.
    + pose proof (speech_json_no_base req d words e w) as Hn.
      cbv zeta in Hn. now rewrite (Hn H Hb), (Hr H).
    + pose proof (speech_json_unfold req d words base w) as Hu.
      cbv zeta in Hu.
      rewrite (Hu H Hb), respond_trace, listing_loop_dispatched.
      unfold speech_json_start. rewrite dispatched_log_parse.
      now rewrite (Hr H).
Qed.

(** X4. Whatever the request, [pack_json] dispatches exactly the fetches
    [pack] dispatches and [speech_json] exactly the syntheses [speech]
    dispatches: listing adds no task, also when the route ends up raising;
    and when the definition parses these are the tasks of [pack] and
    [speech], one per entry of the definition. *)
Theorem json_routes_dispatch_once (req : Request) (d : string)
    (w : World St) :
  dispatched (trace (snd (pack_json req d w)))
  = dispatched (trace (snd (pack req d w)))
  /\ dispatched (trace (snd (speech_json req d w)))
     = dispatched (trace (snd (speech req d w)))
  /\ (forall words,
        parse_definition d = inr words ->
        dispatched (trace (snd (pack_json req d w)))
        = (dispatched (trace w) ++ pack_tasks req words)%list)
  /\ (forall words,
        parse_definition (PyStr.replace " " "_" d) = inr words ->
        dispatched (trace (snd (speech_json req d w)))
        = (dispatched (trace w) ++ speech_tasks req words)%list).
Proof.
  split; [apply pack_json_dispatched|].
  split; [apply speech_json_dispatched|]. split.
  - intros words H. rewrite pack_json_dispatched, (pack_runs _ _ _ _ H).
    unfold after_tasks. cbn [snd trace]. rewrite dispatched_app. simpl.
    now rewrite dispatched_map.
  - intros words H. pose proof (speech_runs req d words w) as Hr.
    cbv zeta in Hr. rewrite speech_json_dispatched, (Hr H).
    unfold after_tasks. cbn [snd trace]. rewrite dispatched_app. simpl.
    now rewrite dispatched_map.
Qed.

(** X5. The zip routes dispatch nothing, whatever the request: they never
    fetch or synthesise, and serve what [dj.list] gives. *)
Theorem zip_routes_dispatch_nothing (req : Request) (d : string)
    (w : World St) :
  dispatched (trace (snd (pack_zip req d w))) = dispatched (trace w)
  /\ dispatched (trace (snd (speech_zip req d w))) = dispatched (trace w).
Proof.
  split.
  - destruct (parse_definition d) as [ex|words] eqn:H.
    + rewrite (pack_zip_fails _ _ _ _ H). apply dispatched_log_parse.
    + rewrite (pack_zip_runs _ _ _ _ H). cbn [snd].
      rewrite list_each_trace, dispatched_app, dispatched_map_list,
        app_nil_r.
      apply dispatched_log_parse.
  - destruct (parse_definition (PyStr.replace " " "_" d))
      as [ex|words] eqn:H.
    + rewrite (speech_zip_fails _ _ _ _ H). apply dispatched_log_parse.
    + pose proof (speech_zip_runs req d words w) as Hr. cbv zeta in Hr.
      rewrite (Hr H). cbn [snd].
      rewrite list_each_trace, dispatched_app, dispatched_map_list,
        app_nil_r.
      apply dispatched_log_parse.
Qed.

(** ** Where the listings raise *)

Lemma select_pitch_int_error (word : string) (pitch : spec_float)
    (samples : list Sound) :
  PyFloat.is_finite pitch = false ->
  exists e, select_pitch word pitch samples = inl e /\ int_error e.
Proof.
  unfold select_pitch, int_error.
  destruct pitch as [s|s| |s m e]; simpl; try discriminate; intros _.
  - eexists; split; [reflexivity | now right].
  - eexists; split; [reflexivity | now left].
Qed.

(** X6. A pitch that is a NaN or an infinity makes [speech_json] raise as
    soon as the definition has a word.  When the base URL cannot be built,
    it raises what building it raises; otherwise it raises at the first
    word, where [int(pitch)] raises [ValueError] or [OverflowError], which
    is not the [BadRequest] of a malformed definition.  By then the
    synthesis of every word has been dispatched. *)
Theorem speech_json_pitch_not_finite (req : Request) (d : string)
    (wn : string * option Z) (words : definition_map) (w : World St) :
  parse_definition (PyStr.replace " " "_" d) = inr (wn :: words) ->
  PyFloat.is_finite (args_get_float "pitch" (args req)) = false ->
  (forall e : exn,
     base_url req = inl e -> fst (speech_json req d w) = inl e)
  /\ (forall base : string,
        base_url req = inr base ->
        exists e, fst (speech_json req d w) = inl e /\ int_error e)
  /\ dispatched (trace (snd (speech_json req d w)))
     = (dispatched (trace w) ++ speech_tasks req (wn :: words))%list.
Proof.
  intros H Hfin. split; [|split].
  - intros e Hb.
    pose proof (speech_json_no_base req d (wn :: words) e w) as Hn.
    cbv zeta in Hn. now rewrite (Hn H Hb).
  - intros base Hb.
    pose proof (speech_json_unfold req d (wn :: words) base w) as Hu.
    cbv zeta in Hu. rewrite (Hu H Hb).
    unfold listing_loop. cbn [for_each].
    unfold bind at 1 2, list_samples, lift.
    destruct (dj_list _ _) as [ss s]. unfold speech_json_step.
    destruct (select_pitch_int_error (fst wn) _ ss Hfin) as [e [-> He]].
    exists e. now split.
  - pose proof (speech_runs req d (wn :: words) w) as Hr. cbv zeta in Hr.
    rewrite speech_json_dispatched, (Hr H).
    unfold after_tasks. cbn [snd trace]. rewrite dispatched_app. simpl.
    now rewrite dispatched_map.
Qed.

Lemma dict_mem_get (k : string) (d : Dict.t) :
  Dict.mem k d = true -> exists v, Dict.get k d = Some v.
Proof.
  induction d as [|[k' v'] d IH]; simpl; [discriminate|].
  destruct (String.eqb k' k); simpl; eauto.
Qed.

Lemma dict_get_in (k : string) (d : Dict.t) (v : json) :
  Dict.get k d = Some v -> In (k, v) d.
Proof.
  induction d as [|[k' v'] d IH]; simpl; [discriminate|].
  destruct (String.eqb k' k) eqn:E.
  - apply String.eqb_eq in E. intros [= ->]. left. now subst.
  - auto.
Qed.

Lemma dict_update_in (key : string) (x : json) (d : Dict.t) (k : string)
    (v : json) :
  In (k, v) (Dict.update key x d) -> v = x \/ In (k, v) d.
Proof.
  induction d as [|[k' v'] d IH]; simpl; [tauto|].
  destruct (String.eqb k' key).
  - intros [[= <- <-]|Hin]; auto.
  - intros [Heq|Hin]; [auto|]. destruct (IH Hin); auto.
Qed.

Lemma dict_set_in (key : string) (x : json) (d : Dict.t) (k : string)
    (v : json) :
  In (k, v) (Dict.set key x d) -> v = x \/ In (k, v) d.
Proof.
  unfold Dict.set. destruct (Dict.mem key d).
  - apply dict_update_in.
  - intros Hin. apply in_app_or in Hin. destruct Hin as [Hin|[[= <- <-]|[]]];
      auto.
Qed.

Lemma str_or_list_set (key : string) (l : list json) (d : Dict.t) :
  str_or_list (ResDict d) -> str_or_list (ResDict (Dict.set key (JArr l) d)).
Proof.
  intros Hd k v Hin. destruct (dict_set_in _ _ _ _ _ Hin) as [->|Hin'].
  - right. now exists l.
  - exact (Hd k v Hin').
Qed.

(** In a listing whose values are strings and lists, appending can only
    fail on a string. *)
Lemma add_sound_error (complete : bool) (key : string) (d : Dict.t) (n : Z)
    (s : Sound) (e : exn) :
  str_or_list (ResDict d) ->
  add_sound true complete key (ResDict d, n) s = inl e -> e = append_error.
Proof.
  intros Hd. cbn [add_sound]. destruct (Dict.mem key d) eqn:Hmem.
  - destruct (dict_mem_get _ _ Hmem) as [v Hget]. rewrite Hget.
    destruct (Hd key v (dict_get_in _ _ _ Hget)) as [[t ->]|[l ->]].
    + now intros [= <-].
    + discriminate.
  - rewrite (dict_set_fresh _ _ _ Hmem), (dict_get_app_fresh _ _ _ Hmem).
    discriminate.
Qed.

Lemma add_sound_dict (complete : bool) (key : string) (d : Dict.t) (n : Z)
    (s : Sound) (acc : reslist * Z) :
  str_or_list (ResDict d) ->
  add_sound true complete key (ResDict d, n) s = inr acc ->
  exists d', acc = (ResDict d', n) /\ str_or_list (ResDict d').
Proof.
  intros Hd. cbn [add_sound].
  set (d1 := if Dict.mem key d then d else Dict.set key (JArr []) d).
  assert (Hd1 : str_or_list (ResDict d1)).
  { unfold d1. destruct (Dict.mem key d); [exact Hd|].
    now apply str_or_list_set. }
  destruct (Dict.get key d1) as [[| |l|]|]; try discriminate.
  intros [= <-]. eexists. split; [reflexivity|]. now apply str_or_list_set.
Qed.

Lemma add_samples_error (complete : bool) (key : string)
    (samples : list Sound) (d : Dict.t) (e : exn) :
  str_or_list (ResDict d) ->
  add_samples true complete key samples (ResDict d) = inl e ->
  e = append_error.
Proof.
  unfold add_samples. generalize 0 as n.
  revert d; induction samples as [|s r IH]; intros d n Hd; [discriminate|].
  cbn [for_each_e].
  destruct (add_sound true complete key (ResDict d, n) s)
    as [e1|acc] eqn:Hs.
  - intros [= <-]. exact (add_sound_error _ _ _ _ _ _ Hd Hs).
  - destruct (add_sound_dict _ _ _ _ _ _ Hd Hs) as [d' [-> Hd']].
    now apply IH.
Qed.

Lemma add_samples_dict (complete : bool) (key : string)
    (samples : list Sound) (d : Dict.t) (res : reslist) :
  str_or_list (ResDict d) ->
  add_samples true complete key samples (ResDict d) = inr res ->
  exists d', res = ResDict d' /\ str_or_list (ResDict d').
Proof.
  unfold add_samples. generalize 0 as n.
  revert d; induction samples as [|s r IH]; intros d n Hd.
  - simpl. intros [= <-]. eauto.
  - cbn [for_each_e].
    destruct (add_sound true complete key (ResDict d, n) s)
      as [e1|acc] eqn:Hs; [discriminate|].
    destruct (add_sound_dict _ _ _ _ _ _ Hd Hs) as [d' [-> Hd']].
    now apply IH.
Qed.

Lemma str_or_list_start (base : string) :
  str_or_list (ResDict [("_base", JStr base)]).
Proof. intros k v [[= <- <-]|[]]. left. now exists base. Qed.

Lemma listing_loop_raises {A : Type} (P : reslist -> Prop)
    (Q : exn -> Prop) (call : A -> list_call)
    (step : A -> list Sound -> reslist -> exn + reslist)
    (xs : list A) (res : reslist) (e : exn) (w w' : World St) :
  (forall x ss r r', P r -> step x ss r = inr r' -> P r') ->
  (forall x ss r e', P r -> step x ss r = inl e' -> Q e') ->
  P res ->
  listing_loop call step xs res w = (inl e, w') ->
  Q e.
Proof.
  intros Hkeep Hraise. unfold listing_loop.
  revert res w; induction xs as [|x r IH]; intros res w HP.
  - simpl. unfold ret. discriminate.
  - cbn [for_each]. unfold bind at 1 2, list_samples, lift.
    destruct (dj_list (call x) (dj_state w)) as [ss s].
    destruct (step x ss res) as [e1|res1] eqn:Hs.
    + intros [= <- _]. eapply Hraise; eauto.
    + apply IH. eapply Hkeep; eauto.
Qed.

Lemma pack_json_strudel_error (req : Request) (d : string) (e : exn)
    (words : definition_map) (base : string) (w : World St) :
  parse_definition d = inr words ->
  base_url req = inr base ->
  args_get_bool "strudel" (args req) = true ->
  fst (pack_json req d w) = inl e -> e = append_error.
Proof.
  intros Hparse Hb Hs Hrun.
  rewrite (pack_json_unfold _ _ _ _ _ Hparse Hb) in Hrun.
  apply respond_inl in Hrun.
  destruct (listing_loop _ _ _ _ _) as [r w'] eqn:Hloop. cbn [fst] in Hrun.
  subst r.
  eapply (listing_loop_raises
            (fun r => exists dct, r = ResDict dct /\ str_or_list (ResDict dct))
            (fun e' => e' = append_error)); [| | |exact Hloop].
  - intros x ss r r' [dct [-> Hd]] Hstep. unfold pack_json_step in Hstep.
    rewrite Hs in Hstep. exact (add_samples_dict _ _ _ _ _ Hd Hstep).
  - intros x ss r e' [dct [-> Hd]] Hstep. unfold pack_json_step in Hstep.
    rewrite Hs in Hstep. exact (add_samples_error _ _ _ _ _ Hd Hstep).
  - rewrite Hs. eexists. split; [reflexivity | apply str_or_list_start].
Qed.

Lemma speech_json_strudel_error (req : Request) (d : string) (e : exn)
    (words : definition_map) (base : string) (w : World St) :
  parse_definition (PyStr.replace " " "_" d) = inr words ->
  base_url req = inr base ->
  PyFloat.is_finite (args_get_float "pitch" (args req)) = true ->
  args_get_bool "strudel" (args req) = true ->
  fst (speech_json req d w) = inl e -> e = append_error.
Proof.
  intros Hparse Hb Hfin Hs Hrun.
  pose proof (speech_json_unfold req d words base w) as Hu. cbv zeta in Hu.
  rewrite (Hu Hparse Hb) in Hrun. apply respond_inl in Hrun.
  destruct (listing_loop _ _ _ _ _) as [r w'] eqn:Hloop. cbn [fst] in Hrun.
  subst r.
  eapply (listing_loop_raises
            (fun r => exists dct, r = ResDict dct /\ str_or_list (ResDict dct))
            (fun e' => e' = append_error)); [| | |exact Hloop].
  - intros x ss r r' [dct [-> Hd]] Hstep. unfold speech_json_step in Hstep.
    rewrite (select_pitch_finite _ _ _ Hfin), Hs in Hstep.
    exact (add_samples_dict _ _ _ _ _ Hd Hstep).
  - intros x ss r e' [dct [-> Hd]] Hstep. unfold speech_json_step in Hstep.
    rewrite (select_pitch_finite _ _ _ Hfin), Hs in Hstep.
    exact (add_samples_error _ _ _ _ _ Hd Hstep).
  - rewrite Hs. eexists. split; [reflexivity | apply str_or_list_start].
Qed.

Lemma sample_key_not_base (word : string) (pitch : spec_float) :
  PyFloat.ne_zero pitch = true -> sample_key word pitch <> "_base".
Proof.
  intros Hnz Heq. unfold sample_key in Heq. rewrite Hnz in Heq.
  assert (Hocc : occurs_in "_p" "_base").
  { eexists word, _. rewrite <- Heq. reflexivity. }
  apply contains_iff in Hocc. discriminate.
Qed.

(** X7. With [strudel], once the definition parses to distinct words and
    the base URL has been built, [pack_json] returns a listing exactly when
    no word that has samples is [_base]; when one is, it raises the
    [AttributeError] of appending to the base URL, a string.  When the base
    URL cannot be built it raises what building it raises. *)
Theorem pack_json_strudel_returns_iff (req : Request) (d : string)
    (words : definition_map) (w : World St) :
  parse_definition d = inr words ->
  args_get_bool "strudel" (args req) = true ->
  NoDup (map fst words) ->
  let groups := pack_json_groups req d words w in
  (forall base : string,
     base_url req = inr base ->
     ((exists resp, fst (pack_json req d w) = inr resp)
      <-> no_base_clash groups)
     /\ (~ no_base_clash groups ->
         fst (pack_json req d w) = inl append_error))
  /\ (forall e : exn,
        base_url req = inl e -> fst (pack_json req d w) = inl e).
Proof.
  intros Hparse Hs Hnd groups. split.
  - intros base Hb.
    assert (Hraise : ~ no_base_clash groups ->
                     fst (pack_json req d w) = inl append_error).
    { intros Hclash.
      destruct (pack_json_raises_on_base_word req d words w Hparse Hs Hclash)
        as [e He].
      rewrite He. f_equal.
      exact (pack_json_strudel_error _ _ _ _ _ _ Hparse Hb Hs He). }
    split; [split|exact Hraise].
    + intros [resp Hresp] g Hin Hne Hk.
      assert (Hclash : ~ no_base_clash groups)
        by (intros Hnc; exact (Hnc g Hin Hne Hk)).
      rewrite (Hraise Hclash) in Hresp. discriminate.
    + intros Hnc. eexists.
      now rewrite (pack_json_strudel _ _ _ _ _ Hparse Hb Hs Hnd Hnc).
  - intros e Hb. now rewrite (pack_json_no_base _ _ _ _ _ Hparse Hb).
Qed.

(** X8. With [strudel] and a finite pitch, once the definition parses to
    distinct words and the base URL has been built, [speech_json] returns a
    listing exactly when no sample key that has samples is [_base], and
    raises the same [AttributeError] otherwise.  At a pitch other than zero
    every key ends in [_p...], so none is [_base] and the route returns.
    When the base URL cannot be built it raises what building it raises. *)
Theorem speech_json_strudel_returns_iff (req : Request) (d : string)
    (words : definition_map) (w : World St) :
  let d' := PyStr.replace " " "_" d in
  let pitch := args_get_float "pitch" (args req) in
  parse_definition d' = inr words ->
  PyFloat.is_finite pitch = true ->
  args_get_bool "strudel" (args req) = true ->
  NoDup (map fst words) ->
  let groups := speech_json_groups req d' words w in
  (forall base : string,
     base_url req = inr base ->
     ((exists resp, fst (speech_json req d w) = inr resp)
      <-> no_base_clash groups)
     /\ (~ no_base_clash groups ->
         fst (speech_json req d w) = inl append_error)
     /\ (PyFloat.ne_zero pitch = true ->
         fst (speech_json req d w)
         = inr (Jsonify (JObj (strudel_listing base groups)))))
  /\ (forall e : exn,
        base_url req = inl e -> fst (speech_json req d w) = inl e).
Proof.
  intros d' pitch Hparse Hfin Hs Hnd groups. split.
  - intros base Hb.
    assert (Hraise : ~ no_base_clash groups ->
                     fst (speech_json req d w) = inl append_error).
    { intros Hclash.
      destruct (speech_json_raises_on_base_clash req d words w Hparse Hs
                  Hclash) as [e He].
      rewrite He. f_equal.
      exact (speech_json_strudel_error _ _ _ _ _ _ Hparse Hb Hfin Hs He). }
    split; [split|split; [exact Hraise|]].
    + intros [resp Hresp] g Hin Hne Hk.
      assert (Hclash : ~ no_base_clash groups)
        by (intros Hnc; exact (Hnc g Hin Hne Hk)).
      rewrite (Hraise Hclash) in Hresp. discriminate.
    + intros Hnc. eexists.
      now rewrite (speech_json_strudel _ _ _ _ _ Hparse Hb Hfin Hs Hnd Hnc).
    + intros Hnz.
      rewrite (speech_json_strudel _ _ _ _ _ Hparse Hb Hfin Hs Hnd);
        [reflexivity|].
      intros g Hin _. unfold groups, speech_json_groups in Hin.
      destruct g as [key ss]. apply in_combine_l in Hin.
      apply in_map_iff in Hin. destruct Hin as [wn [<- _]].
      now apply sample_key_not_base.
  - intros e Hb.
    pose proof (speech_json_no_base req d words e w) as Hn. cbv zeta in Hn.
    now rewrite (Hn Hparse Hb).
Qed.

(** ** What the routes read of the request *)

Lemma bind_ext {A B : Type} (m m' : M St A) (k k' : A -> M St B)
    (w : World St) :
  m w = m' w -> (forall a w1, k a w1 = k' a w1) -> bind m k w = bind m' k' w.
Proof.
  intros Hm Hk. unfold bind. rewrite <- Hm.
  destruct (m w) as [[e|a] w1]; [reflexivity | apply Hk].
Qed.

(** X9. The sample routes read little of the request: [pack] only the
    [licenses] argument; [pack_json] also whether [complete] and [strudel]
    are set and, with or without [strudel], the base URL it builds from the
    request URL and the script name (the text, or the exception building it
    raises); [pack_zip] only the temporary directory.  Two requests that
    agree on these get the same answer and leave the same world. *)
Theorem sample_routes_read (req req' : Request) (d : string) (w : World St) :
  (args_get "licenses" (args req) = args_get "licenses" (args req') ->
   pack req d w = pack req' d w
   /\ (args_get_bool "complete" (args req)
       = args_get_bool "complete" (args req') ->
       args_get_bool "strudel" (args req)
       = args_get_bool "strudel" (args req') ->
       base_url req = base_url req' ->
       pack_json req d w = pack_json req' d w))
  /\ (tempdir req = tempdir req' -> pack_zip req d w = pack_zip req' d w).
Proof.
  split.
  - intros Hl.
    assert (Hpack : forall w0, pack req d w0 = pack req' d w0).
    { intros w0. unfold pack, licenses_arg. now rewrite Hl. }
    split; [apply Hpack|]. intros Hc Hs Hb.
    unfold pack_json, licenses_arg. rewrite <- Hc, <- Hs, <- Hl, <- Hb.
    apply bind_ext; [apply Hpack|]. reflexivity.
  - intros Ht. unfold pack_zip. now rewrite Ht.
Qed.

(** X10. The speech routes likewise: [speech] reads the gender, the
    language and the pitch; [speech_json] also whether [strudel] is set
    and, with or without [strudel], the base URL it builds (the text, or
    the exception building it raises); [speech_zip] only the temporary
    directory.  None of them reads [licenses] or [complete]. *)
Theorem speech_routes_read (req req' : Request) (d : string)
    (w : World St) :
  (args_get_default "gender" "f" (args req)
   = args_get_default "gender" "f" (args req') ->
   args_get_default "language" "en-GB" (args req)
   = args_get_default "language" "en-GB" (args req') ->
   args_get_float "pitch" (args req) = args_get_float "pitch" (args req') ->
   speech req d w = speech req' d w
   /\ (args_get_bool "strudel" (args req)
       = args_get_bool "strudel" (args req') ->
       base_url req = base_url req' ->
       speech_json req d w = speech_json req' d w))
  /\ (tempdir req = tempdir req' -> speech_zip req d w = speech_zip req' d w).
Proof.
  split.
  - intros Hg Hl Hp.
    assert (Hspeech : forall d0 w0, speech req d0 w0 = speech req' d0 w0).
    { intros d0 w0. unfold speech. now rewrite Hg, Hl, Hp. }
    split; [apply Hspeech|]. intros Hs Hb.
    unfold speech_json. rewrite <- Hs, <- Hg, <- Hl, <- Hp, <- Hb.
    apply bind_ext; [apply Hspeech|]. reflexivity.
  - intros Ht. unfold speech_zip. now rewrite Ht.
Qed.

(** ** Pitched and neutral readings *)

Lemma occurs_in_prefix (a b s : string) :
  occurs_in (a ++ b) s -> occurs_in a s.
Proof.
  intros [x [y E]]. exists x, (b ++ y). now rewrite E, append_assoc.
Qed.

Lemma format_plus_1f_sign (x : spec_float) :
  exists rest, PyFloat.format_plus_1f x = "+" ++ rest
               \/ PyFloat.format_plus_1f x = "-" ++ rest.
Proof.
  destruct x as [s|s| |s m e]; cbn [PyFloat.format_plus_1f].
  - exists "0.0". destruct s; [now right | now left].
  - exists "inf". destruct s; [now right | now left].
  - exists "nan". now left.
  - eexists. destruct s; [right | left]; reflexivity.
Qed.

(** X11. A sample [speech_json] keeps for a pitch other than zero is never
    one it keeps for pitch zero: the suffix looked for starts with [_p+] or
    [_p-], which the neutral listing excludes.  So the neutral listing and
    a pitched listing of the same cache share no sample. *)
Theorem pitched_and_neutral_disjoint (word word0 key key0 : string)
    (pitch zero : spec_float) (samples samples0 kept kept0 : list Sound) :
  PyFloat.ne_zero pitch = true ->
  PyFloat.ne_zero zero = false ->
  select_pitch word pitch samples = inr (kept, key) ->
  select_pitch word0 zero samples0 = inr (kept0, key0) ->
  forall s, In s kept -> ~ In s kept0.
Proof.
  unfold select_pitch. intros -> -> Hp Hz s Hin Hin0.
  destruct (PyFloat.to_int pitch) as [e|i]; [discriminate|].
  injection Hp as <- _. injection Hz as <- _.
  apply filter_In in Hin. destruct Hin as [_ Hin].
  apply filter_In in Hin0. destruct Hin0 as [_ Hin0].
  apply andb_true_iff in Hin0. destruct Hin0 as [Hplus Hminus].
  apply negb_true_iff, contains_false_iff in Hplus.
  apply negb_true_iff, contains_false_iff in Hminus.
  apply contains_iff in Hin.
  destruct (format_plus_1f_sign pitch) as [rest [E|E]]; rewrite E in Hin.
  - apply Hplus. apply (occurs_in_prefix "_p+" rest). exact Hin.
  - apply Hminus. apply (occurs_in_prefix "_p-" rest). exact Hin.
Qed.

(** X12. Without [strudel], a listing [speech_json] returns is a list that
    holds, key after key in the order of the definition, one record
    [{url: file, type: "audio", bank: key, n: i}] per sample kept for the
    pitch, [n] counted from 0 for every key; and [speech_json] returns it
    whenever the definition parses, the base URL can be built and the pitch
    is finite.  The records never carry [licensename], [original_url] or
    [author], whatever the request. *)
Theorem speech_json_flat_records (req : Request) (d : string)
    (w : World St) :
  let d' := PyStr.replace " " "_" d in
  args_get_bool "strudel" (args req) = false ->
  (forall (resp : response) (w' : World St),
     speech_json req d w = (inr resp, w') ->
     exists words,
       parse_definition d' = inr words
       /\ resp
          = Jsonify (JArr (flat_map
                             (fun g => records false (fst g) 0 (snd g))
                             (speech_json_groups req d' words w))))
  /\ (forall (words : definition_map) (base : string),
        parse_definition d' = inr words ->
        base_url req = inr base ->
        PyFloat.is_finite (args_get_float "pitch" (args req)) = true ->
        fst (speech_json req d w)
        = inr (Jsonify (JArr (flat_map
                                (fun g => records false (fst g) 0 (snd g))
                                (speech_json_groups req d' words w)))))
  /\ forall (key : string) (samples : list Sound),
       length (records false key 0 samples) = length samples
       /\ forall (i : nat) (s : Sound),
            nth_error samples i = Some s ->
            nth_error (records false key 0 samples) i
            = Some (JObj [("url", JStr (file s));
                          ("type", JStr "audio");
                          ("bank", JStr key);
                          ("n", JInt (Z.of_nat i))]).
Proof.
  intros d' Hs. split; [|split].
  - intros resp w' Hrun.
    destruct (speech_json_flat_returned _ _ _ _ _ Hs Hrun)
      as [words [base [Hparse [_ ->]]]].
    now exists words.
  - intros words base Hparse Hb Hfin.
    now rewrite (speech_json_flat _ _ _ _ _ Hparse Hb Hfin Hs).
  - intros key samples. split; [apply records_length|].
    intros i s Hi. now rewrite (records_nth _ _ _ _ _ _ Hi).
Qed.

(** ** Spaces in the definition *)

Lemma replace_leaves_none (s : string) :
  PyStr.contains " " (PyStr.replace " " "_" s) = false.
Proof.
  induction s as [|c s IH]; [reflexivity|].
  cbn [PyStr.replace PyStr.contains String.prefix]. rewrite IH, orb_false_r.
  destruct (Ascii.eqb c " ") eqn:E.
  - reflexivity.
  - destruct (ascii_dec " " c) as [<-|Hne]; [|reflexivity].
    now rewrite Ascii.eqb_refl in E.
Qed.

Lemma replace_nothing (s : string) :
  PyStr.contains " " s = false -> PyStr.replace " " "_" s = s.
Proof.
  induction s as [|c s IH]; [reflexivity|].
  cbn [PyStr.replace PyStr.contains String.prefix].
  intros H. apply orb_false_iff in H. destruct H as [Hc Hs].
  rewrite (IH Hs). destruct (Ascii.eqb c " ") eqn:E; [|reflexivity].
  apply Ascii.eqb_eq in E. subst c. destruct s; discriminate.
Qed.

(** X13. No definition the speech routes hand to the parser holds a space,
    and a definition without spaces reaches the parser unchanged, as on the
    sample routes. *)
Theorem speech_routes_parse_no_space (req : Request) (d : string)
    (w : World St) (p : string) :
  (In p (parsed (trace (snd (speech req d w))))
   \/ In p (parsed (trace (snd (speech_json req d w))))
   \/ In p (parsed (trace (snd (speech_zip req d w)))) ->
   In p (parsed (trace w)) \/ ~ occurs_in " " p)
  /\ (~ occurs_in " " d -> PyStr.replace " " "_" d = d).
Proof.
  split.
  - assert (Hnew : forall l,
              In p (parsed (trace w) ++ l)%list ->
              (forall q, In q l -> q = PyStr.replace " " "_" d) ->
              In p (parsed (trace w)) \/ ~ occurs_in " " p).
    { intros l Hin Hl. apply in_app_or in Hin. destruct Hin as [Hin|Hin].
      - now left.
      - right. rewrite (Hl p Hin). apply contains_false_iff.
        apply replace_leaves_none. }
    intros [Hin|[Hin|Hin]].
    + rewrite speech_parsed in Hin. apply (Hnew _ Hin).
      intros q [<-|[]]. reflexivity.
    + pose proof (speech_json_parsed req d w) as Hp. cbv zeta in Hp.
      rewrite Hp in Hin. apply (Hnew _ Hin).
      intros q [<-|Hq]; [reflexivity|].
      destruct (parse_definition _); [destruct Hq|].
      destruct (base_url req); [destruct Hq|].
      destruct Hq as [<-|[]]. reflexivity.
    + unfold speech_zip in Hin. rewrite zip_parsed in Hin.
      apply (Hnew _ Hin). intros q [<-|[]]. reflexivity.
  - intros Hno. apply replace_nothing. now apply contains_false_iff.
Qed.

(** ** The cleaned definition *)

Lemma contains_char_cons (c a : ascii) (t : string) :
  PyStr.contains (String c "") (String a t)
  = Ascii.eqb c a || PyStr.contains (String c "") t.
Proof.
  cbn [PyStr.contains String.prefix].
  destruct (ascii_dec c a) as [->|Hne].
  - rewrite Ascii.eqb_refl. now destruct t.
  - apply Ascii.eqb_neq in Hne. now rewrite Hne.
Qed.

Lemma free_of_cons (c a : ascii) (t : string) :
  free_of c (String a t) <-> a <> c /\ free_of c t.
Proof.
  unfold free_of. rewrite contains_char_cons, orb_false_iff, Ascii.eqb_neq.
  intuition congruence.
Qed.

Lemma free_of_append (c : ascii) (a b : string) :
  free_of c (a ++ b) <-> free_of c a /\ free_of c b.
Proof.
  induction a as [|x a IH]; cbn [append].
  - unfold free_of at 2. cbn. tauto.
  - rewrite !free_of_cons, IH. tauto.
Qed.

Lemma split_free (c : ascii) (s : string) :
  free_of c s -> PyStr.split c s = [s].
Proof.
  induction s as [|a s IH]; intros H; [reflexivity|].
  apply free_of_cons in H. destruct H as [Hne Hs].
  cbn [PyStr.split]. apply Ascii.eqb_neq in Hne. rewrite Hne.
  now rewrite (IH Hs).
Qed.

Lemma split_append (c : ascii) (a b : string) :
  free_of c a ->
  PyStr.split c (a ++ String c b) = a :: PyStr.split c b.
Proof.
  induction a as [|x a IH]; intros H; cbn [append PyStr.split].
  - now rewrite Ascii.eqb_refl.
  - apply free_of_cons in H. destruct H as [Hne Ha].
    apply Ascii.eqb_neq in Hne. rewrite Hne. now rewrite (IH Ha).
Qed.

Lemma split_join (c : ascii) (parts : list string) :
  parts <> [] -> Forall (free_of c) parts ->
  PyStr.split c (PyStr.join (String c "") parts) = parts.
Proof.
  unfold PyStr.join. induction parts as [|a r IH]; [congruence|].
  intros _ Hall. inversion Hall as [|? ? Ha Hr]; subst.
  destruct r as [|b r].
  - cbn [String.concat]. now apply split_free.
  - change (String.concat (String c "") (a :: b :: r))
      with (a ++ String c (String.concat (String c "") (b :: r))).
    rewrite (split_append _ _ _ Ha), IH; [reflexivity | discriminate | exact Hr].
Qed.

Lemma uint_free_of (c : ascii) (d : Decimal.uint) :
  Forall (fun digit => digit <> c)
         ["0"; "1"; "2"; "3"; "4"; "5"; "6"; "7"; "8"; "9"]%char ->
  free_of c (NilEmpty.string_of_uint d).
Proof.
  intros Hc.
  repeat match goal with
         | H : Forall _ (_ :: _) |- _ =>
             let H1 := fresh "Hd" in
             let H2 := fresh "Hr" in
             inversion H as [|? ? H1 H2]; subst; clear H
         end.
  induction d; cbn [NilEmpty.string_of_uint]; try (now unfold free_of);
    apply free_of_cons; split; assumption.
Qed.

Lemma of_int_free_of (c : ascii) (n : Z) :
  Forall (fun digit => digit <> c)
         ["0"; "1"; "2"; "3"; "4"; "5"; "6"; "7"; "8"; "9"; "-"]%char ->
  free_of c (PyStr.of_int n).
Proof.
  intros Hc. unfold PyStr.of_int.
  assert (Hd : Forall (fun digit => digit <> c)
                 ["0"; "1"; "2"; "3"; "4"; "5"; "6"; "7"; "8"; "9"]%char).
  { repeat (inversion Hc as [|? ? ? Hc']; subst; clear Hc; rename Hc' into Hc;
            constructor; [assumption|]).
    constructor. }
  assert (Hminus : "-"%char <> c).
  { rewrite Forall_forall in Hc. apply Hc. simpl. tauto. }
  assert (Hu : forall d, free_of c (NilZero.string_of_uint d)).
  { intros d. unfold NilZero.string_of_uint.
    destruct d; try apply (uint_free_of c _ Hd).
    apply free_of_cons. split; [|now unfold free_of].
    rewrite Forall_forall in Hd. apply Hd. simpl. tauto. }
  destruct (Z.to_int n) as [d|d]; cbn [NilZero.string_of_int].
  - apply Hu.
  - apply free_of_cons. split; [exact Hminus | apply Hu].
Qed.

Lemma clean_definition_join (words : definition_map) :
  clean_definition words = PyStr.join "," (map segment words).
Proof.
  unfold clean_definition. f_equal. apply map_ext. now intros [word number].
Qed.

Lemma segment_free_of_comma (wn : string * option Z) :
  free_of "," (fst wn) -> free_of "," (segment wn).
Proof.
  intros Hw. unfold segment. apply free_of_append. split; [exact Hw|].
  destruct (snd wn) as [n|]; [|reflexivity].
  destruct (n =? 0); [reflexivity|].
  apply free_of_cons. split; [discriminate|].
  apply of_int_free_of. repeat constructor; discriminate.
Qed.

Lemma segment_split (wn : string * option Z) :
  free_of ":" (fst wn) -> PyStr.split ":" (segment wn) = segment_parts wn.
Proof.
  intros Hw. unfold segment, segment_parts.
  destruct (snd wn) as [n|].
  - destruct (n =? 0).
    + rewrite append_nil_r. now apply split_free.
    + change (":" ++ PyStr.of_int n) with (String ":" (PyStr.of_int n)).
      rewrite (split_append _ _ _ Hw). f_equal. apply split_free.
      apply of_int_free_of. repeat constructor; discriminate.
  - rewrite append_nil_r. now apply split_free.
Qed.

(** X14. The text [clean_definition] builds splits back into its entries:
    for a definition with at least one word, none of which holds a comma or
    a colon, splitting the text on [","] gives one segment per entry, in
    order, and splitting a segment on [":"] gives the word alone when the
    count is [None] or 0 and the word and the count otherwise. *)
Theorem clean_definition_splits (words : definition_map) :
  words <> [] ->
  (forall wn, In wn words -> free_of "," (fst wn) /\ free_of ":" (fst wn)) ->
  PyStr.split "," (clean_definition words) = map segment words
  /\ map (PyStr.split ":") (PyStr.split "," (clean_definition words))
     = map segment_parts words.
Proof.
  intros Hne Hfree.
  assert (Hsplit : PyStr.split "," (clean_definition words)
                   = map segment words).
  { rewrite clean_definition_join. apply split_join.
    - destruct words; [congruence | discriminate].
    - apply Forall_forall. intros seg Hin. apply in_map_iff in Hin.
      destruct Hin as [wn [<- Hin]]. apply segment_free_of_comma.
      now apply Hfree. }
  split; [exact Hsplit|]. rewrite Hsplit, map_map. apply map_ext_in.
  intros wn Hin. apply segment_split. now apply Hfree.
Qed.

(** ** What the listings ask of the engine *)

Lemma listed_calls_app (a b : list event) :
  listed_calls (a ++ b) = (listed_calls a ++ listed_calls b)%list.
Proof.
  induction a as [|[| |] a IH]; simpl; auto. now rewrite IH.
Qed.

Lemma listed_calls_map (calls : list list_call) :
  listed_calls (map EvList calls) = calls.
Proof. induction calls; simpl; congruence. Qed.

Lemma listed_calls_map_dispatch (tasks : list coroutine) :
  listed_calls (map EvDispatch tasks) = [].
Proof. induction tasks; simpl; auto. Qed.

Lemma listed_calls_start (d : string) (tasks : list coroutine)
    (w : World St) :
  listed_calls (trace (log [EvParse d] (after_tasks d tasks w)))
  = listed_calls (trace w).
Proof.
  unfold log, after_tasks. cbn [trace].
  rewrite !listed_calls_app. cbn [listed_calls].
  now rewrite listed_calls_map_dispatch, !app_nil_r.
Qed.


(** X15. When [pack_json] or [speech_json] returns a listing, it has
    called [dj.list] once per entry of the definition, in order.
    [pack_json] passes the word, the count as parsed ([None] when it was
    left out, not the 1 the fetch was given) and the licenses; [speech_json]
    passes the word, the gender, the language and [soundtype="tts"], and no
    count. *)
Theorem json_routes_list_once_per_word (req : Request) (d : string)
    (w w' : World St) (resp : response) :
  (pack_json req d w = (inr resp, w') ->
   exists words,
     parse_definition d = inr words
     /\ listed_calls (trace w')
        = (listed_calls (trace w)
           ++ map (fun wn : string * option Z =>
                     {| lc_word := fst wn;
                        lc_number := Passed (snd wn);
                        lc_licenses := Passed (licenses_arg req);
                        lc_gender := Omitted;
                        lc_language := Omitted;
                        lc_soundtype := Omitted |})
                  words)%list)
  /\ (speech_json req d w = (inr resp, w') ->
      exists words,
        parse_definition (PyStr.replace " " "_" d) = inr words
        /\ listed_calls (trace w')
           = (listed_calls (trace w)
              ++ map (fun wn : string * option Z =>
                        {| lc_word := fst wn;
                           lc_number := Omitted;
                           lc_licenses := Omitted;
                           lc_gender :=
                             Passed (args_get_default "gender" "f"
                                                      (args req));
                           lc_language :=
                             Passed (args_get_default "language" "en-GB"
                                                      (args req));
                           lc_soundtype := Passed "tts" |})
                     words)%list).
Proof.
  split.
  - intros Hrun.
    destruct (pack_json_returned _ _ _ _ _ Hrun)
      as [words [base [res [Hparse [_ [_ [_ ->]]]]]]].
    exists words. split; [exact Hparse|].
    unfold pack_json_end, pack_json_start.
    rewrite list_each_trace, listed_calls_app, listed_calls_map,
      listed_calls_start.
    reflexivity.
  - intros Hrun.
    destruct (speech_json_returned _ _ _ _ _ Hrun)
      as [words [base [res [Hparse [_ [_ [_ ->]]]]]]].
    exists words. split; [exact Hparse|].
    unfold speech_json_end, speech_json_start.
    rewrite list_each_trace, listed_calls_app, listed_calls_map,
      listed_calls_start.
    reflexivity.
Qed.

(** ** The licenses argument *)

Lemma split_not_nil (c : ascii) (s : string) : PyStr.split c s <> [].
Proof.
  destruct s as [|a t]; cbn [PyStr.split]; [discriminate|].
  destruct (Ascii.eqb a c); [discriminate|].
  destruct (PyStr.split c t); discriminate.
Qed.

Lemma join_split (c : ascii) (s : string) :
  PyStr.join (String c "") (PyStr.split c s) = s.
Proof.
  unfold PyStr.join. induction s as [|a t IH]; [reflexivity|].
  cbn [PyStr.split]. pose proof (split_not_nil c t) as Hne.
  destruct (Ascii.eqb a c) eqn:E.
  - apply Ascii.eqb_eq in E. subst a.
    destruct (PyStr.split c t) as [|h r]; [congruence|].
    change (String.concat (String c "") ("" :: h :: r))
      with (String c (String.concat (String c "") (h :: r))).
    now rewrite IH.
  - destruct (PyStr.split c t) as [|h r]; [congruence|].
    destruct r as [|h' r'].
    + cbn [String.concat] in *. now rewrite IH.
    + change (String.concat (String c "") (String a h :: h' :: r'))
        with (String a (String.concat (String c "") (h :: h' :: r'))).
      now rewrite IH.
Qed.

(** X19. The licenses a route passes on are [None] exactly when the request
    has no [licenses] argument; otherwise they are a list that is never
    empty (an empty argument gives one empty license) and that joined with
    commas gives the argument back. *)
Theorem licenses_arg_round_trip (req : Request) :
  (licenses_arg req = None <-> args_get "licenses" (args req) = None)
  /\ forall licenses,
       licenses_arg req = Some licenses ->
       licenses <> []
       /\ args_get "licenses" (args req) = Some (PyStr.join "," licenses).
Proof.
  unfold licenses_arg. destruct (args_get "licenses" (args req)) as [v|].
  - split; [split; discriminate|]. intros licenses [= <-].
    split; [apply split_not_nil | now rewrite join_split].
  - split; [tauto | discriminate].
Qed.

(** ** The pitch in file names and keys *)

(** X20. The text looked for in file names shows a finite pitch rounded
    to the nearest tenth, ties to the even tenth: for the pitch
    [(-1)^s * m * 2^e] it is [_p], the sign, and [t / 10], a point and
    [t mod 10], where [t] is the integer nearest to [10 * m * 2^e]. *)
Theorem pitch_suffix_rounds_to_tenth (s : bool) (m : positive) (e : Z) :
  let t := PyFloat.tenths m e in
  "_p" ++ PyFloat.format_plus_1f (S754_finite s m e)
  = "_p" ++ (if s then "-" else "+")
    ++ PyStr.of_int (t / 10) ++ "." ++ PyStr.of_int (t mod 10)
  /\ 0 <= t
  /\ (0 <= e -> t = 10 * (Z.pos m * 2 ^ e))
  /\ (e < 0 ->
      Z.abs (2 * (10 * Z.pos m) - 2 * t * 2 ^ (- e)) <= 2 ^ (- e)
      /\ (Z.abs (2 * (10 * Z.pos m) - 2 * t * 2 ^ (- e)) = 2 ^ (- e) ->
          Z.even t = true)).
Proof.
  intros t. split; [|split; [apply tenths_nonneg|split]].
  - cbn [PyFloat.format_plus_1f]. now destruct s.
  - apply tenths_nearest.
  - intros He. split; [now apply tenths_nearest|].
    unfold t, PyFloat.tenths.
    assert (Hle : (0 <=? e) = false) by (apply Z.leb_gt; lia).
    rewrite Hle.
    assert (Hk : 0 < 2 ^ (- e)) by (apply Z.pow_pos_nonneg; lia).
    intros Htie. apply round_half_even_tie; [exact Hk|].
    revert Htie. unfold PyFloat.round_half_even.
    pose proof (Z.div_mod (Z.pos m * 10) (2 ^ (- e)) ltac:(lia)) as Hdm.
    pose proof (Z.mod_pos_bound (Z.pos m * 10) (2 ^ (- e)) Hk) as Hr.
    destruct (2 * ((Z.pos m * 10) mod 2 ^ (- e)) ?= 2 ^ (- e)) eqn:Hc.
    + apply Z.compare_eq in Hc. lia.
    + rewrite Z.compare_lt_iff in Hc. nia.
    + rewrite Z.compare_gt_iff in Hc. nia.
Qed.

(** X21. Within one request distinct words are listed under distinct
    keys: two words for which the pitch block gives the same key are the
    same word, so the keys of a [speech_json] listing of distinct words are
    distinct. *)
Theorem sample_keys_distinct (req : Request) (d : string)
    (words : definition_map) (w : World St) :
  (forall word word' pitch samples samples' kept kept' key,
     select_pitch word pitch samples = inr (kept, key) ->
     select_pitch word' pitch samples' = inr (kept', key) ->
     word = word')
  /\ (NoDup (map fst words) ->
      NoDup (map fst (speech_json_groups req d words w)))
  /\ length (speech_json_groups req d words w) = length words.
Proof.
  assert (Hkeys : map fst (speech_json_groups req d words w)
                  = map (fun wn => sample_key (fst wn)
                                     (args_get_float "pitch" (args req)))
                        words).
  { unfold speech_json_groups. apply map_fst_combine.
    now rewrite !length_map, speech_json_listed_length. }
  split; [|split].
  - intros word word' pitch samples samples' kept kept' key H1 H2.
    destruct (PyFloat.is_finite pitch) eqn:Hfin.
    + rewrite (select_pitch_finite _ _ _ Hfin) in H1.
      rewrite (select_pitch_finite _ _ _ Hfin) in H2.
      injection H1 as _ H1. injection H2 as _ H2.
      apply (sample_key_inj pitch). congruence.
    + destruct (select_pitch_not_finite word pitch samples Hfin) as [e He].
      congruence.
  - intros Hnd. rewrite Hkeys.
    rewrite <- (map_map fst (fun word => sample_key word _)).
    apply NoDup_map_inj; [apply sample_key_inj | exact Hnd].
  - rewrite <- (length_map fst), Hkeys. apply length_map.
Qed.

(** ** The syntheses [speech] dispatches *)

(** X22. When the definition, spaces replaced, parses, [speech] dispatches
    one synthesis per word, in order, with the language, the gender and the
    pitch of the request: [en-GB] and [f] when the argument is missing, and
    the pitch 0.0 when it is missing or is not the text of a float. *)
Theorem speech_dispatches_with_defaults (req : Request) (d : string)
    (words : definition_map) (w : World St) :
  parse_definition (PyStr.replace " " "_" d) = inr words ->
  let language := match args_get "language" (args req) with
                  | Some v => v
                  | None => "en-GB"
                  end in
  let gender := match args_get "gender" (args req) with
                | Some v => v
                | None => "f"
                end in
  let pitch := match args_get "pitch" (args req) with
               | Some v => match py_float v with
                           | Some x => x
                           | None => S754_zero false
                           end
               | None => S754_zero false
               end in
  dispatched (trace (snd (speech req d w)))
  = (dispatched (trace w)
     ++ map (fun wn : string * option Z =>
               speak_one (fst wn) language gender pitch)
            words)%list.
Proof.
  intros Hparse language gender pitch.
  pose proof (speech_runs req d words w) as Hr. cbv zeta in Hr.
  rewrite (Hr Hparse). unfold after_tasks. cbn [snd trace].
  rewrite dispatched_app. cbn [dispatched]. now rewrite dispatched_map.
Qed.

End Further.

(** * The error handler and the CORS hook *)

Section ErrorResponses.

Context {RT : PyRuntime} {JT : JsonText} {St : Type} {DJ : Dj St}.

Lemma same_refl (a : string) : Headers.same a a = true.
Proof. apply String.eqb_refl. Qed.

Lemma same_sym (a b : string) : Headers.same a b = Headers.same b a.
Proof. apply String.eqb_sym. Qed.

Lemma same_apart (a b c : string) :
  Headers.same a b = true -> Headers.same c b = false ->
  Headers.same a c = false.
Proof.
  unfold Headers.same. intros Hab Hcb. apply String.eqb_eq in Hab.
  rewrite Hab, String.eqb_sym. exact Hcb.
Qed.

Lemma headers_get_remove (name k : string) (h : Headers.t) :
  Headers.same k name = false ->
  Headers.get k (Headers.remove name h) = Headers.get k h.
Proof.
  intros Hk. induction h as [|[k0 v0] r IH]; [reflexivity|].
  cbn [Headers.remove filter fst Headers.get].
  destruct (Headers.same k0 name) eqn:E; cbn [negb].
  - rewrite (same_apart _ _ _ E Hk). exact IH.
  - cbn [Headers.get]. destruct (Headers.same k0 k); [reflexivity | exact IH].
Qed.

Lemma headers_get_set (name value k : string) (h : Headers.t) :
  Headers.same k name = true ->
  Headers.get k (Headers.set name value h) = Some value.
Proof.
  intros Hk. induction h as [|[k0 v0] r IH]; cbn [Headers.set Headers.get].
  - now rewrite same_sym, Hk.
  - destruct (Headers.same k0 name) eqn:E; cbn [Headers.get].
    + now rewrite same_sym, Hk.
    + rewrite (same_sym k0 k), (same_apart k name k0 Hk E). exact IH.
Qed.

Lemma headers_get_set_other (name value k : string) (h : Headers.t) :
  Headers.same k name = false ->
  Headers.get k (Headers.set name value h) = Headers.get k h.
Proof.
  intros Hk. induction h as [|[k0 v0] r IH]; cbn [Headers.set Headers.get].
  - now rewrite same_sym, Hk.
  - destruct (Headers.same k0 name) eqn:E; cbn [Headers.get].
    + rewrite (same_sym name k), Hk, (same_apart _ _ _ E Hk).
      now apply headers_get_remove.
    + destruct (Headers.same k0 k); [reflexivity | exact IH].
Qed.

Lemma headers_remove_idem (name : string) (h : Headers.t) :
  Headers.remove name (Headers.remove name h) = Headers.remove name h.
Proof.
  unfold Headers.remove. induction h as [|[k0 v0] r IH]; [reflexivity|].
  cbn [filter fst]. destruct (Headers.same k0 name) eqn:E; cbn [negb].
  - exact IH.
  - cbn [filter fst]. rewrite E. cbn [negb]. now rewrite IH.
Qed.

Lemma headers_set_idem (name value : string) (h : Headers.t) :
  Headers.set name value (Headers.set name value h)
  = Headers.set name value h.
Proof.
  induction h as [|[k0 v0] r IH]; cbn [Headers.set].
  - rewrite same_refl. reflexivity.
  - destruct (Headers.same k0 name) eqn:E; cbn [Headers.set].
    + now rewrite same_refl, headers_remove_idem.
    + now rewrite E, IH.
Qed.

Lemma json_dumps_text (code description : pyobj) (name : string) :
  unserializable [("code", code); ("description", description)] = None ->
  json_dumps [("code", code); ("name", PyString name);
              ("description", description)]
  = inr (dumps_text [("code", code); ("name", PyString name);
                     ("description", description)]).
Proof.
  unfold json_dumps. cbn [unserializable].
  destruct code; destruct description; try discriminate; reflexivity.
Qed.

Lemma json_dumps_exception (code : pyobj) (name type_name message : string) :
  unserializable [("code", code)] = None ->
  json_dumps [("code", code); ("name", PyString name);
              ("description", PyException type_name message)]
  = inl (TypeError ("Object of type " ++ type_name
                    ++ " is not JSON serializable")).
Proof.
  unfold json_dumps. cbn [unserializable].
  destruct code; try discriminate; reflexivity.
Qed.

Lemma handle_exception_of_route (e : exn) (ex : string)
    (page : http_response) :
  e = BadRequest ex ->
  exists exception,
    http_exception e page = Some exception
    /\ handle_exception exception
       = inl (TypeError "Object of type ValueError is not JSON serializable").
Proof.
  intros ->. exists (bad_request ex page). split; [reflexivity|].
  unfold handle_exception, bad_request. cbn [exc_code exc_name
    exc_description exc_response].
  now rewrite json_dumps_exception.
Qed.

(** X16. For an exception whose code and description [json.dumps] can
    serialise, [handle_exception] returns the response of the exception
    with its status code kept, the JSON text of [code], [name] and
    [description] as body, [Content-Type: application/json], the length of
    the body as [Content-Length], and every other header as it was. *)
Theorem handle_exception_json (exception : HTTPException) :
  unserializable [("code", exc_code exception);
                  ("description", exc_description exception)] = None ->
  exists r,
    handle_exception exception = inr r
    /\ status_code r = status_code (exc_response exception)
    /\ data r = dumps_text [("code", exc_code exception);
                            ("name", PyString (exc_name exception));
                            ("description", exc_description exception)]
    /\ Headers.get "Content-Type" (headers r) = Some "application/json"
    /\ Headers.get "Content-Length" (headers r)
       = Some (PyStr.of_int (Z.of_nat (String.length (data r))))
    /\ forall k,
         Headers.same k "Content-Type" = false ->
         Headers.same k "Content-Length" = false ->
         Headers.get k (headers r)
         = Headers.get k (headers (exc_response exception)).
Proof.
  intros Hser. unfold handle_exception. rewrite (json_dumps_text _ _ _ Hser).
  eexists. split; [reflexivity|]. cbn [status_code data headers
    set_content_type set_data].
  repeat split.
  - now apply headers_get_set.
  - rewrite headers_get_set_other by reflexivity. now apply headers_get_set.
  - intros k Hct Hcl. now rewrite !headers_get_set_other.
Qed.

(** X17. For an exception whose description is itself an exception object,
    [json.dumps] raises and so does [handle_exception]: it returns no
    response.  That is the case of the [BadRequest] every route raises on a
    malformed definition, whose description is the [ValueError] of the
    parser. *)
Theorem handle_exception_raises_on_exception_object (req : Request)
    (d : string) (w : World St) (page : http_response) :
  (forall exception type_name message,
     exc_description exception = PyException type_name message ->
     unserializable [("code", exc_code exception)] = None ->
     handle_exception exception
     = inl (TypeError ("Object of type " ++ type_name
                       ++ " is not JSON serializable")))
  /\ (forall ex route,
        parse_definition d = inl ex ->
        In route [pack req d w; pack_json req d w; pack_zip req d w] ->
        exists e exception,
          fst route = inl e
          /\ http_exception e page = Some exception
          /\ handle_exception exception
             = inl (TypeError
                      "Object of type ValueError is not JSON serializable"))
  /\ (forall ex route,
        parse_definition (PyStr.replace " " "_" d) = inl ex ->
        In route [speech req d w; speech_json req d w; speech_zip req d w] ->
        exists e exception,
          fst route = inl e
          /\ http_exception e page = Some exception
          /\ handle_exception exception
             = inl (TypeError
                      "Object of type ValueError is not JSON serializable")).
Proof.
  split; [|split].
  - intros exception type_name message Hd Hc. unfold handle_exception.
    rewrite Hd. now rewrite json_dumps_exception.
  - intros ex route Hparse Hin.
    destruct (handle_exception_of_route (BadRequest ex) ex page eq_refl)
      as [exception [Hexc Hraise]].
    exists (BadRequest ex), exception. split; [|now split].
    destruct Hin as [<-|[<-|[<-|[]]]].
    + now rewrite (pack_fails _ _ _ _ Hparse).
    + now rewrite (pack_json_fails _ _ _ _ Hparse).
    + now rewrite (pack_zip_fails _ _ _ _ Hparse).
  - intros ex route Hparse Hin.
    destruct (handle_exception_of_route (BadRequest ex) ex page eq_refl)
      as [exception [Hexc Hraise]].
    exists (BadRequest ex), exception. split; [|now split].
    destruct Hin as [<-|[<-|[<-|[]]]].
    + now rewrite (speech_fails _ _ _ _ Hparse).
    + now rewrite (speech_json_fails _ _ _ _ Hparse).
    + now rewrite (speech_zip_fails _ _ _ _ Hparse).
Qed.

(** C6. A malformed definition is not answered with a client error.  When
    [dj.parse_definition] raises [ValueError], each of the six routes that
    parse a definition raises [BadRequest], having done nothing but call
    the parser: the engine is in the state it was in and no task has been
    dispatched.  The description of that [BadRequest] is the [ValueError]
    itself, which the error handler then hands to [json.dumps]:
    [handle_exception] raises [TypeError] and returns no response, so the
    response with code 400 is never sent. *)
Theorem malformed_definition_raises_in_handler (req : Request)
    (d ex : string) (w : World St) (page : http_response) :
  (parse_definition d = inl ex ->
   pack req d w = (inl (BadRequest ex), log [EvParse d] w)
   /\ pack_json req d w = (inl (BadRequest ex), log [EvParse d] w)
   /\ pack_zip req d w = (inl (BadRequest ex), log [EvParse d] w))
  /\ (let d' := PyStr.replace " " "_" d in
      parse_definition d' = inl ex ->
      speech req d w = (inl (BadRequest ex), log [EvParse d'] w)
      /\ speech_json req d w = (inl (BadRequest ex), log [EvParse d'] w)
      /\ speech_zip req d w = (inl (BadRequest ex), log [EvParse d'] w))
  /\ (forall definition : string,
        dj_state (log [EvParse definition] w) = dj_state w
        /\ dispatched (trace (log [EvParse definition] w))
           = dispatched (trace w))
  /\ http_exception (BadRequest ex) page = Some (bad_request ex page)
  /\ exc_code (bad_request ex page) = PyInt 400
  /\ handle_exception (bad_request ex page)
     = inl (TypeError "Object of type ValueError is not JSON serializable").
Proof.
  split; [|split; [|split; [|split; [|split]]]].
  - intros H. repeat split.
    + now apply pack_fails.
    + now apply pack_json_fails.
    + now apply pack_zip_fails.
  - intros d' H. repeat split.
    + now apply speech_fails.
    + now apply speech_json_fails.
    + now apply speech_zip_fails.
  - intros definition. split; [reflexivity|].
    unfold log. cbn [trace]. rewrite dispatched_app. simpl. apply app_nil_r.
  - reflexivity.
  - reflexivity.
  - unfold handle_exception, bad_request. cbn [exc_code exc_name
      exc_description exc_response].
    now rewrite json_dumps_exception.
Qed.

(** X18. [cors_after] leaves a response whose
    [Access-Control-Allow-Origin] is ["*"], whatever it was and however the
    name was spelt; the status, the body and the other headers are kept,
    and applying the hook twice changes nothing more.  After
    [handle_exception], the response still says
    [Content-Type: application/json]. *)
Theorem cors_after_allows_any_origin (r : http_response) :
  (forall k,
     Headers.same k "Access-Control-Allow-Origin" = true ->
     Headers.get k (headers (cors_after r)) = Some "*")
  /\ (forall k,
        Headers.same k "Access-Control-Allow-Origin" = false ->
        Headers.get k (headers (cors_after r)) = Headers.get k (headers r))
  /\ status_code (cors_after r) = status_code r
  /\ data (cors_after r) = data r
  /\ cors_after (cors_after r) = cors_after r
  /\ (forall exception,
        handle_exception exception = inr r ->
        Headers.get "Content-Type" (headers (cors_after r))
        = Some "application/json").
Proof.
  repeat split.
  - intros k Hk. now apply headers_get_set.
  - intros k Hk. now apply headers_get_set_other.
  - unfold cors_after. cbn [status_code headers data].
    now rewrite headers_set_idem.
  - intros exception Hrun. unfold handle_exception in Hrun.
    destruct (json_dumps _) as [e|text]; [discriminate|].
    injection Hrun as <-. cbn [cors_after headers set_content_type].
    rewrite headers_get_set_other by reflexivity.
    now apply headers_get_set.
Qed.

End ErrorResponses.

(** * The claims on the example engine *)

#[local] Existing Instance Demo.runtime.
#[local] Existing Instance Demo.dj.

(** The listing of ["dog:2,cat"] from an empty cache: three records, banks
    [dog], [dog], [cat], numbered 0, 1, 0. *)
Lemma pack_json_flat_records_witness :
  fst (pack_json (Demo.request []) "dog:2,cat" (Demo.world Demo.empty_cache))
  = inr (Jsonify (JArr
      [JObj [("url", JStr "samples/dog/dog_0.wav"); ("type", JStr "audio");
             ("bank", JStr "dog"); ("n", JInt 0)];
       JObj [("url", JStr "samples/dog/dog_1.wav"); ("type", JStr "audio");
             ("bank", JStr "dog"); ("n", JInt 1)];
       JObj [("url", JStr "samples/cat/cat_0.wav"); ("type", JStr "audio");
             ("bank", JStr "cat"); ("n", JInt 0)]])).
Proof.
  exact (proj1 (proj2 (pack_json_flat_records
                         (Demo.request []) "dog:2,cat"
                         (Demo.world Demo.empty_cache) eq_refl))
               [("dog", Some 2); ("cat", None)]
               "https://shabda.example:8080/shabda/" eq_refl eq_refl).
Defined.






(** At pitch 1.0 the record of [fox] is in the bank [fox_p1]. *)
Lemma speech_json_sample_key_witness :
  exists items,
    fst (speech_json (Demo.request [("pitch", "1.0")]) "fox"
                     (Demo.world Demo.fox_cache))
    = inr (Jsonify (JArr items))
    /\ map (field "bank") items = [Some (JStr "fox_p1")]
    /\ map fst (speech_json_groups (Demo.request [("pitch", "1.0")]) "fox"
                                    [("fox", None)]
                                    (Demo.world Demo.fox_cache))
       = ["fox_p1"].
Proof.
  exact (proj1 (proj2 (speech_json_sample_key
                         (Demo.request [("pitch", "1.0")]) "fox"
                         (Demo.world Demo.fox_cache) eq_refl))
               [("fox", None)] "https://shabda.example:8080/shabda/"
               eq_refl eq_refl eq_refl).
Defined.

(** ["dog,ghostword"], where only [dog] is found, is ["ok"];
    ["the fox"] spoken is ["ok"]. *)
Lemma status_ok_iff_a_task_succeeded_witness :
  (exists status,
     fst (pack (Demo.request []) "dog,ghostword"
               (Demo.world Demo.empty_cache))
     = inr (Jsonify (JObj [("status", JStr status);
                           ("definition", JStr "dog,ghostword")]))
     /\ (status = "ok" <-> In true [true; false])
     /\ (status = "empty" <-> ~ In true [true; false]))
  /\ (exists status,
        fst (speech (Demo.request []) "the fox" (Demo.world Demo.fox_cache))
        = inr (Jsonify (JObj [("status", JStr status);
                              ("definition", JStr "the_fox")]))
        /\ (status = "ok" <-> In true [true])
        /\ (status = "empty" <-> ~ In true [true])).
Proof.
  split.
  - exact (proj1 (status_ok_iff_a_task_succeeded
                    (Demo.request []) "dog,ghostword"
                    [("dog", None); ("ghostword", None)]
                    (Demo.world Demo.empty_cache))
                 eq_refl).
  - exact (proj2 (status_ok_iff_a_task_succeeded
                    (Demo.request []) "the fox" [("the_fox", None)]
                    (Demo.world Demo.fox_cache))
                 eq_refl).
Defined.

(** In ["dog:2,cat"] the count of [cat] is left out: its fetch asks for 1. *)
Lemma pack_defaults_count_to_one_witness :
  dispatched (trace (snd (pack (Demo.request []) "dog:2,cat"
                               (Demo.world Demo.empty_cache))))
  = [DjFetch "dog" 2 None; DjFetch "cat" 1 None]
  /\ nth_error (pack_tasks (Demo.request []) [("dog", Some 2); ("cat", None)])
               1
     = Some (fetch_one "cat" 1 None).
Proof.
  pose proof (pack_defaults_count_to_one
                (Demo.request []) "dog:2,cat" [("dog", Some 2); ("cat", None)]
                (Demo.world Demo.empty_cache) eq_refl) as H.
  split.
  - exact (proj1 H).
  - exact (proj1 (proj2 H) 1%nat "cat" eq_refl).
Defined.

(** A request to [http://shabda.example:0/cat.json?strudel=1]: [urlparse]
    gives the port 0, which [if url.port:] takes for no port, so the
    listing holds a base URL without the port that is in the URL.  (Such a
    URL reaches the route where werkzeug passes a header
    [Host: shabda.example:0] on, as its releases up to 3.1.6 do; where it
    refuses the host, the URL has no host name, and then the route builds
    no base URL at all: it raises [TypeError], as for the last request
    here.) *)
Lemma base_url_port_counterexample :
  urlparse_base_url Demo.request_port0
  = inr {| url_scheme := "http";
           url_hostname := Some "shabda.example";
           url_port := inr (Some 0) |}
  /\ base_url Demo.request_port0 = inr "https://shabda.example/"
  /\ fst (pack_json Demo.request_port0 "cat" (Demo.world Demo.empty_cache))
     = inr (Jsonify (JObj [("_base", JStr "https://shabda.example/");
                           ("cat", JArr [JStr "samples/cat/cat_0.wav"])]))
  /\ claimed_base_url "shabda.example" (Some 0) None
     = "https://shabda.example:0/"
  /\ "https://shabda.example/"
     <> claimed_base_url "shabda.example" (Some 0) None
  /\ fst (pack_json (Demo.request_no_host [("strudel", "1")]) "cat"
                    (Demo.world Demo.empty_cache))
     = inl (TypeError concat_none_error).
Proof. repeat split. discriminate. Qed.

(** The strudel listing of ["cat"] holds the base URL under [_base]. *)
Lemma base_url_is_https_witness :
  exists base dct,
    base_url (Demo.request [("strudel", "1")]) = inr base
    /\ Jsonify (JObj [("_base", JStr "https://shabda.example:8080/shabda/");
                      ("cat", JArr [JStr "samples/cat/cat_0.wav"])])
       = Jsonify (JObj dct)
    /\ Dict.get "_base" dct = Some (JStr base).
Proof.
  refine (proj1 (proj2 (proj2 (base_url_is_https
                                 (Demo.request [("strudel", "1")]))))
                "cat" (Demo.world Demo.empty_cache)
                (snd (pack_json (Demo.request [("strudel", "1")]) "cat"
                                (Demo.world Demo.empty_cache)))
                _ eq_refl (or_introl _)).
  vm_compute. reflexivity.
Defined.

(** * The further properties on the example engine *)

#[local] Existing Instance Demo.json_text.



(** For the first dog the name [dog/dog_0.wav] is passed. *)
Lemma zip_archive_names_witness :
  (forall rest, "samples/dog/dog_0.wav" = "samples/" ++ rest ->
                "dog/dog_0.wav" = rest)
  /\ exists dir,
       "samples/dog/dog_0.wav" = dir ++ "dog/dog_0.wav"
       /\ String.length dir = Nat.min 8 (String.length "samples/dog/dog_0.wav").
Proof.
  refine (proj1 (zip_archive_names
                   (Demo.request []) "dog:2,cat" (Demo.world Demo.dogs_cache)
                   (snd (pack_zip (Demo.request []) "dog:2,cat"
                                  (Demo.world Demo.dogs_cache)))
                   "/tmp/dog:2,cat.zip"
                   [("samples/dog/dog_0.wav", "dog/dog_0.wav");
                    ("samples/dog/dog_1.wav", "dog/dog_1.wav");
                    ("samples/cat/cat_0.wav", "cat/cat_0.wav")]
                   "samples/dog/dog_0.wav" "dog/dog_0.wav")
                _ _).
  - vm_compute. reflexivity.
  - left. reflexivity.
Defined.

(** The listing of ["dog:2,cat"] dispatches the two fetches of [pack]. *)
Lemma json_routes_dispatch_once_witness :
  dispatched (trace (snd (pack_json (Demo.request []) "dog:2,cat"
                                    (Demo.world Demo.empty_cache))))
  = [DjFetch "dog" 2 None; DjFetch "cat" 1 None]
  /\ dispatched (trace (snd (speech_json (Demo.request []) "the fox"
                                         (Demo.world Demo.fox_cache))))
     = [DjSpeak "the_fox" "en-GB" "f" (S754_zero false)].
Proof.
  split.
  - exact (proj1 (proj2 (proj2 (json_routes_dispatch_once
                                  (Demo.request []) "dog:2,cat"
                                  (Demo.world Demo.empty_cache))))
                 [("dog", Some 2); ("cat", None)] eq_refl).
  - exact (proj2 (proj2 (proj2 (json_routes_dispatch_once
                                  (Demo.request []) "the fox"
                                  (Demo.world Demo.fox_cache))))
                 [("the_fox", None)] eq_refl).
Defined.

(** A pitch of [nan] makes the listing of [fox] raise after the synthesis
    was dispatched: the error of [int(pitch)] when the URL has a host name,
    the [TypeError] of the base URL when it has none. *)
Lemma speech_json_pitch_not_finite_witness :
  (exists e,
     fst (speech_json (Demo.request [("pitch", "nan")]) "fox"
                      (Demo.world Demo.fox_cache))
     = inl e
     /\ int_error e)
  /\ fst (speech_json (Demo.request_no_host [("pitch", "nan")]) "fox"
                      (Demo.world Demo.fox_cache))
     = inl (TypeError concat_none_error)
  /\ dispatched (trace (snd (speech_json (Demo.request [("pitch", "nan")])
                                         "fox" (Demo.world Demo.fox_cache))))
     = [DjSpeak "fox" "en-GB" "f" S754_nan].
Proof.
  pose proof (speech_json_pitch_not_finite
                (Demo.request [("pitch", "nan")]) "fox" ("fox", None) []
                (Demo.world Demo.fox_cache) eq_refl eq_refl) as H.
  split; [|split].
  - exact (proj1 (proj2 H) "https://shabda.example:8080/shabda/" eq_refl).
  - exact (proj1 (speech_json_pitch_not_finite
                    (Demo.request_no_host [("pitch", "nan")]) "fox"
                    ("fox", None) [] (Demo.world Demo.fox_cache)
                    eq_refl eq_refl)
                 (TypeError concat_none_error) eq_refl).
  - exact (proj2 (proj2 H)).
Defined.

(** The strudel listing of the word [_base] raises. *)
Lemma pack_json_strudel_returns_iff_witness :
  fst (pack_json (Demo.request [("strudel", "1")]) "_base"
                 (Demo.world Demo.empty_cache))
  = inl append_error.
Proof.
  refine (proj2 (proj1 (pack_json_strudel_returns_iff
                          (Demo.request [("strudel", "1")]) "_base"
                          [("_base", None)] (Demo.world Demo.empty_cache)
                          eq_refl eq_refl _)
                       "https://shabda.example:8080/shabda/" eq_refl)
                _).
  - distinct_strings.
  - intros Hnc.
    exact (Hnc ("_base", [Demo.sound "samples/_base/_base_0.wav"])
               (or_introl eq_refl) ltac:(discriminate) eq_refl).
Defined.

(** At pitch 1.5 the strudel listing of [_base] returns: its key is
    [_base_p1.5]. *)
Lemma speech_json_strudel_returns_iff_witness :
  fst (speech_json (Demo.request [("strudel", "1"); ("pitch", "1.5")])
                   "_base" (Demo.world Demo.fox_cache))
  = inr (Jsonify (JObj
      [("_base", JStr "https://shabda.example:8080/shabda/");
       ("_base_p1.5",
        JArr [JStr "speech_samples/_base/_base_en-GB_f_p+1.5.wav"])])).
Proof.
  refine (proj2 (proj2 (proj1 (speech_json_strudel_returns_iff
                                 (Demo.request [("strudel", "1");
                                                ("pitch", "1.5")])
                                 "_base" [("_base", None)]
                                 (Demo.world Demo.fox_cache)
                                 eq_refl eq_refl eq_refl _)
                              "https://shabda.example:8080/shabda/" eq_refl))
                eq_refl).
  distinct_strings.
Defined.

(** A gender, another scheme and another temporary directory change
    nothing for [pack] and [pack_json]. *)
Lemma sample_routes_read_witness :
  pack (Demo.request [("licenses", "cc0")]) "dog:2,cat"
       (Demo.world Demo.empty_cache)
  = pack (with_scheme "https"
            (Demo.request [("gender", "m"); ("licenses", "cc0")]))
         "dog:2,cat" (Demo.world Demo.empty_cache)
  /\ pack_json (Demo.request [("licenses", "cc0")]) "dog:2,cat"
               (Demo.world Demo.empty_cache)
     = pack_json (with_scheme "https"
                    (Demo.request [("gender", "m"); ("licenses", "cc0")]))
                 "dog:2,cat" (Demo.world Demo.empty_cache).
Proof.
  pose proof (proj1 (sample_routes_read
                       (Demo.request [("licenses", "cc0")])
                       (with_scheme "https"
                          (Demo.request [("gender", "m");
                                         ("licenses", "cc0")]))
                       "dog:2,cat" (Demo.world Demo.empty_cache))
                    eq_refl) as H.
  split.
  - exact (proj1 H).
  - exact (proj2 H eq_refl eq_refl eq_refl).
Defined.

(** [complete] and [licenses] change nothing for [speech] and
    [speech_json]. *)
Lemma speech_routes_read_witness :
  speech (Demo.request [("pitch", "1.0")]) "fox" (Demo.world Demo.fox_cache)
  = speech (Demo.request [("complete", "1"); ("licenses", "cc0");
                          ("pitch", "1.0")])
           "fox" (Demo.world Demo.fox_cache)
  /\ speech_json (Demo.request [("pitch", "1.0")]) "fox"
                 (Demo.world Demo.fox_cache)
     = speech_json (Demo.request [("complete", "1"); ("licenses", "cc0");
                                  ("pitch", "1.0")])
                   "fox" (Demo.world Demo.fox_cache).
Proof.
  pose proof (proj1 (speech_routes_read
                       (Demo.request [("pitch", "1.0")])
                       (Demo.request [("complete", "1"); ("licenses", "cc0");
                                      ("pitch", "1.0")])
                       "fox" (Demo.world Demo.fox_cache))
                    eq_refl eq_refl eq_refl) as H.
  split.
  - exact (proj1 H).
  - exact (proj2 H eq_refl eq_refl).
Defined.

(** The reading of [fox] kept at pitch 1.0 is not kept at pitch 0. *)
Lemma pitched_and_neutral_disjoint_witness :
  ~ In (Demo.sound "fox_p+1.0") [Demo.sound "fox"].
Proof.
  refine (pitched_and_neutral_disjoint
            "fox" "fox" "fox_p1" "fox"
            (S754_finite false 1 0) (S754_zero false)
            [Demo.sound "fox"; Demo.sound "fox_p+1.0"]
            [Demo.sound "fox"; Demo.sound "fox_p+1.0"]
            [Demo.sound "fox_p+1.0"] [Demo.sound "fox"]
            eq_refl eq_refl eq_refl eq_refl
            (Demo.sound "fox_p+1.0") (or_introl eq_refl)).
Defined.

(** The flat listing of [fox] at pitch 1.0, with [complete] set. *)
Lemma speech_json_flat_records_witness :
  fst (speech_json (Demo.request [("complete", "1"); ("pitch", "1.0")]) "fox"
                   (Demo.world Demo.fox_cache))
  = inr (Jsonify (JArr
      [JObj [("url", JStr "speech_samples/fox/fox_en-GB_f_p+1.0.wav");
             ("type", JStr "audio"); ("bank", JStr "fox_p1");
             ("n", JInt 0)]])).
Proof.
  exact (proj1 (proj2 (speech_json_flat_records
                         (Demo.request [("complete", "1"); ("pitch", "1.0")])
                         "fox" (Demo.world Demo.fox_cache) eq_refl))
               [("fox", None)] "https://shabda.example:8080/shabda/"
               eq_refl eq_refl eq_refl).
Defined.

(** [speech] parses ["the fox"] as [the_fox], which holds no space. *)
Lemma speech_routes_parse_no_space_witness :
  In "the_fox" (parsed (trace (Demo.world Demo.fox_cache)))
  \/ ~ occurs_in " " "the_fox".
Proof.
  refine (proj1 (speech_routes_parse_no_space
                   (Demo.request []) "the fox" (Demo.world Demo.fox_cache)
                   "the_fox")
                (or_introl _)).
  left. reflexivity.
Defined.

(** ["dog:2,cat"] splits back into [dog] with 2 and [cat]. *)
Lemma clean_definition_splits_witness :
  PyStr.split "," (clean_definition [("dog", Some 2); ("cat", None)])
  = ["dog:2"; "cat"]
  /\ map (PyStr.split ":")
         (PyStr.split "," (clean_definition [("dog", Some 2); ("cat", None)]))
     = [["dog"; "2"]; ["cat"]].
Proof.
  refine (clean_definition_splits [("dog", Some 2); ("cat", None)] _ _).
  - discriminate.
  - intros wn [<-|[<-|[]]]; split; reflexivity.
Defined.

(** The listing of ["dog:2,cat"] asks [dj.list] for [dog] with 2 and for
    [cat] with [None]. *)
Lemma json_routes_list_once_per_word_witness :
  exists words,
    parse_definition "dog:2,cat" = inr words
    /\ listed_calls
         (trace (snd (pack_json (Demo.request []) "dog:2,cat"
                                (Demo.world Demo.empty_cache))))
       = ([]
          ++ map (fun wn : string * option Z =>
                    {| lc_word := fst wn;
                       lc_number := Passed (snd wn);
                       lc_licenses := Passed None;
                       lc_gender := Omitted;
                       lc_language := Omitted;
                       lc_soundtype := Omitted |})
                 words)%list.
Proof.
  refine (proj1 (json_routes_list_once_per_word
                   (Demo.request []) "dog:2,cat"
                   (Demo.world Demo.empty_cache)
                   (snd (pack_json (Demo.request []) "dog:2,cat"
                                   (Demo.world Demo.empty_cache)))
                   (Jsonify (JArr
                      (flat_listing false
                         (pack_json_groups (Demo.request []) "dog:2,cat"
                            [("dog", Some 2); ("cat", None)]
                            (Demo.world Demo.empty_cache))))))
                _).
  vm_compute. reflexivity.
Defined.

(** The JSON answer to a [NotFound]. *)
Lemma handle_exception_json_witness :
  exists r,
    handle_exception Demo.not_found = inr r
    /\ status_code r = 404
    /\ data r = dumps_text
                  [("code", PyInt 404); ("name", PyString "Not Found");
                   ("description",
                    PyString "The requested URL was not found.")]
    /\ Headers.get "Content-Type" (headers r) = Some "application/json"
    /\ Headers.get "Content-Length" (headers r)
       = Some (PyStr.of_int (Z.of_nat (String.length (data r))))
    /\ forall k,
         Headers.same k "Content-Type" = false ->
         Headers.same k "Content-Length" = false ->
         Headers.get k (headers r) = Headers.get k (headers (Demo.page 404)).
Proof. exact (handle_exception_json Demo.not_found eq_refl). Defined.

(** The [BadRequest] of ["a:0"] cannot be turned into JSON. *)
Lemma handle_exception_raises_on_exception_object_witness :
  exists e exception,
    fst (pack (Demo.request []) "a:0" (Demo.world Demo.empty_cache)) = inl e
    /\ http_exception e (Demo.page 400) = Some exception
    /\ handle_exception exception
       = inl (TypeError "Object of type ValueError is not JSON serializable").
Proof.
  exact (proj1 (proj2 (handle_exception_raises_on_exception_object
                         (Demo.request []) "a:0" (Demo.world Demo.empty_cache)
                         (Demo.page 400)))
               "A count is not positive"
               (pack (Demo.request []) "a:0" (Demo.world Demo.empty_cache))
               eq_refl (or_introl eq_refl)).
Defined.

(** ["a:0"] is malformed: the three sample routes raise [BadRequest],
    nothing has been dispatched, and the error handler raises in turn. *)
Lemma malformed_definition_raises_in_handler_witness :
  (pack (Demo.request []) "a:0" (Demo.world Demo.empty_cache)
   = (inl (BadRequest "A count is not positive"),
      log [EvParse "a:0"] (Demo.world Demo.empty_cache))
   /\ pack_json (Demo.request []) "a:0" (Demo.world Demo.empty_cache)
      = (inl (BadRequest "A count is not positive"),
         log [EvParse "a:0"] (Demo.world Demo.empty_cache))
   /\ pack_zip (Demo.request []) "a:0" (Demo.world Demo.empty_cache)
      = (inl (BadRequest "A count is not positive"),
         log [EvParse "a:0"] (Demo.world Demo.empty_cache)))
  /\ dispatched (trace (log [EvParse "a:0"] (Demo.world Demo.empty_cache)))
     = []
  /\ handle_exception (bad_request "A count is not positive" (Demo.page 400))
     = inl (TypeError "Object of type ValueError is not JSON serializable").
Proof.
  pose proof (malformed_definition_raises_in_handler
                (Demo.request []) "a:0" "A count is not positive"
                (Demo.world Demo.empty_cache) (Demo.page 400)) as H.
  split; [exact (proj1 H eq_refl)|]. split.
  - exact (proj2 (proj1 (proj2 (proj2 H)) "a:0")).
  - exact (proj2 (proj2 (proj2 (proj2 (proj2 H))))).
Defined.

(** The origin header of the error page, spelt in lower case, becomes
    ["*"]; its content type stays. *)
Lemma cors_after_allows_any_origin_witness :
  Headers.get "access-control-allow-origin"
              (headers (cors_after (Demo.page 400)))
  = Some "*"
  /\ Headers.get "Content-Type" (headers (cors_after (Demo.page 400)))
     = Headers.get "Content-Type" (headers (Demo.page 400)).
Proof.
  split.
  - exact (proj1 (cors_after_allows_any_origin (Demo.page 400))
                 "access-control-allow-origin" eq_refl).
  - exact (proj1 (proj2 (cors_after_allows_any_origin (Demo.page 400)))
                 "Content-Type" eq_refl).
Defined.

(** [licenses=cc0,by] gives the two licenses. *)
Lemma licenses_arg_round_trip_witness :
  ["cc0"; "by"] <> []
  /\ args_get "licenses" (args (Demo.request [("licenses", "cc0,by")]))
     = Some (PyStr.join "," ["cc0"; "by"]).
Proof.
  exact (proj2 (licenses_arg_round_trip
                  (Demo.request [("licenses", "cc0,by")]))
               ["cc0"; "by"] eq_refl).
Defined.

(** The pitch 0.25 is a tie between 0.2 and 0.3: the suffix shows the even
    tenth, 0.2. *)
Lemma pitch_suffix_rounds_to_tenth_witness :
  "_p" ++ PyFloat.format_plus_1f (S754_finite false 1 (-2)) = "_p+0.2"
  /\ Z.even (PyFloat.tenths 1 (-2)) = true.
Proof.
  pose proof (pitch_suffix_rounds_to_tenth false 1 (-2)) as H.
  cbv zeta in H. destruct H as [Htext [_ [_ Hnear]]].
  split.
  - exact Htext.
  - exact (proj2 (Hnear ltac:(lia)) eq_refl).
Defined.

(** The keys of ["fox,the fox"] at pitch 1.0 are distinct. *)
Lemma sample_keys_distinct_witness :
  NoDup (map fst (speech_json_groups (Demo.request [("pitch", "1.0")])
                    "fox,the_fox" [("fox", None); ("the_fox", None)]
                    (Demo.world Demo.fox_cache))).
Proof.
  refine (proj1 (proj2 (sample_keys_distinct
                          (Demo.request [("pitch", "1.0")]) "fox,the_fox"
                          [("fox", None); ("the_fox", None)]
                          (Demo.world Demo.fox_cache)))
                _).
  distinct_strings.
Defined.

(** ["the fox"] with a pitch that is no float: one synthesis, at pitch 0. *)
Lemma speech_dispatches_with_defaults_witness :
  dispatched (trace (snd (speech (Demo.request [("pitch", "high")]) "the fox"
                                 (Demo.world Demo.fox_cache))))
  = [DjSpeak "the_fox" "en-GB" "f" (S754_zero false)].
Proof.
  exact (speech_dispatches_with_defaults
           (Demo.request [("pitch", "high")]) "the fox" [("the_fox", None)]
           (Demo.world Demo.fox_cache) eq_refl).
Defined.
